(** * VideoQnA: the retrieval core

    A shallow embedding of [src/vector_store.py] (chunker, segment mapper,
    embedding index) and of the orchestrator of [src/video_qa_system.py],
    with the properties of the design specification proved over it, and
    of the video ids and the transcript cache of
    [src/transcript_extractor.py] and the response cleaning of
    [src/llm_interface.py], with further properties of the code.

    Python [str] values are lists of characters, integers are [Z] (Python
    integers are unbounded), floats that are only compared, added and
    subtracted are rationals, dicts are finite maps.  Calls that may raise
    run in a state-and-exception monad over the collection. *)

From Stdlib Require Import ZArith QArith Qminmax Ascii String Lia Bool.
From stdpp Require Import base tactics option list sorting strings gmap pretty.

Local Open Scope Z_scope.

(** ** Python strings *)

Abbreviation str := (list ascii).

Definition lit (s : string) : str := list_ascii_of_string s.

Definition len (s : str) : Z := Z.of_nat (length s).

(** Index normalisation of a slice bound: a negative bound counts from the
    end, and every bound is clipped to [0, len]. *)
Definition slice_bound (n i : Z) : Z :=
  if i <? 0 then Z.max 0 (i + n) else Z.min i n.

(** [text[a:b]] *)
Definition slice (s : str) (a b : Z) : str :=
  let a' := slice_bound (len s) a in
  let b' := slice_bound (len s) b in
  take (Z.to_nat (b' - a')) (drop (Z.to_nat a') s).

(** [str.isspace] on the code points below 256. *)
Definition is_space (c : ascii) : bool :=
  let n := nat_of_ascii c in
  ((9 <=? n) && (n <=? 13) || (28 <=? n) && (n <=? 32)
   || (n =? 133) || (n =? 160))%nat.

Fixpoint lstrip (s : str) : str :=
  match s with
  | c :: r => if is_space c then lstrip r else s
  | [] => []
  end.

Definition rstrip (s : str) : str := rev (lstrip (rev s)).

(** [s.strip()] *)
Definition strip (s : str) : str := rstrip (lstrip s).

Definition str_eqb (a b : str) : bool := bool_decide (a = b).

(** Truthiness of a string: [if chunk:]. *)
Definition truthy (s : str) : bool :=
  match s with [] => false | _ => true end.

(** [range(lo, hi)] *)
Definition range (lo hi : Z) : list Z :=
  map (fun k => lo + Z.of_nat k) (seq 0 (Z.to_nat (hi - lo))).

(** ** Configuration ([config/config.py]) *)

Record Config := {
  CHUNK_SIZE : Z;
  CHUNK_OVERLAP : Z;
  TOP_K_RESULTS : Z;
  COLLECTION_NAME : string;
  EMBEDDING_MODEL : string
}.

Definition default_config : Config :=
  {| CHUNK_SIZE := 1000; CHUNK_OVERLAP := 200; TOP_K_RESULTS := 5;
     COLLECTION_NAME := "video_transcripts";
     EMBEDDING_MODEL := "all-MiniLM-L6-v2" |}.

(** ** Chunker ([VectorStore.chunk_text]) *)

Module Chunker.

Definition newline : ascii := "010"%char.

Definition sentence_endings : list str :=
  [lit ". "; lit "! "; lit "? "; [newline; newline]].

(** [any(text[i:i+2] == ending for ending in sentence_endings)] *)
Definition ending_at (text : str) (i : Z) : bool :=
  existsb (fun ending => str_eqb (slice text i (i + 2)) ending)
          sentence_endings.

(** A sentence-boundary marker starts at position [i] of [text]. *)
Definition marker_at (text : str) (i : Z) : Prop :=
  exists pre m post,
    m ∈ sentence_endings /\ text = pre ++ m ++ post /\ len pre = i.

(** The [for i in range(...)] loop: every hit overwrites [best_break]. *)
Definition scan (text : str) (positions : list Z) (best_break : Z) : Z :=
  fold_left (fun best i => if ending_at text i then i + 2 else best)
            positions best_break.

(** The value of [end] when the chunk is cut, for a chunk starting at
    [start]. *)
Definition chunk_end (text : str) (chunk_size start : Z) : Z :=
  let e := start + chunk_size in
  if e <? len text
  then scan text (range (Z.max 0 (e - 100)) e) e
  else e.

(** The [while start < len(text)] loop; [fuel] bounds the number of
    iterations and [None] means that the bound was reached. *)
Fixpoint chunk_loop (fuel : nat) (text : str) (chunk_size overlap : Z)
    (start : Z) (chunks : list str) : option (list str) :=
  match fuel with
  | O => None
  | S fuel' =>
      if start <? len text then
        let e := chunk_end text chunk_size start in
        let chunk := strip (slice text start e) in
        let chunks' := if truthy chunk then chunks ++ [chunk] else chunks in
        let start' := e - overlap in
        if start' >=? len text then Some chunks'
        else chunk_loop fuel' text chunk_size overlap start' chunks'
      else Some chunks
  end.

Definition chunk_text_with (fuel : nat) (text : str)
    (chunk_size overlap : Z) : option (list str) :=
  if len text <=? chunk_size then Some [text]
  else chunk_loop fuel text chunk_size overlap 0 [].

(** [chunk_text(text, chunk_size=None, overlap=None)] *)
Definition chunk_text (cfg : Config) (fuel : nat) (text : str)
    (chunk_size overlap : option Z) : option (list str) :=
  chunk_text_with fuel text
    (default (CHUNK_SIZE cfg) chunk_size)
    (default (CHUNK_OVERLAP cfg) overlap).

(** The pairs [(start, end)] of the iterations of the loop, in order. *)
Fixpoint spans (fuel : nat) (text : str) (chunk_size overlap : Z)
    (start : Z) : list (Z * Z) :=
  match fuel with
  | O => []
  | S fuel' =>
      if start <? len text then
        let e := chunk_end text chunk_size start in
        let start' := e - overlap in
        (start, e) ::
          (if start' >=? len text then []
           else spans fuel' text chunk_size overlap start')
      else []
  end.

(** The chunk emitted by an iteration, if it is not empty after
    stripping. *)
Definition cut (text : str) (span : Z * Z) : option str :=
  let chunk := strip (slice text span.1 span.2) in
  if truthy chunk then Some chunk else None.

(** The output contract of the chunker: non-empty strings of length at
    most [chunk_size]. *)
Definition well_shaped (chunk_size : Z) (chunks : list str) : Prop :=
  Forall (fun c => c <> [] /\ len c <= chunk_size) chunks.

End Chunker.

(** [str.lower] on the code points below 256: the ASCII capitals and the
    Latin-1 capitals move up by 32. *)
Definition lower_char (c : ascii) : ascii :=
  let n := nat_of_ascii c in
  if ((65 <=? n) && (n <=? 90)
      || (192 <=? n) && (n <=? 222) && negb (n =? 215))%nat
  then ascii_of_nat (n + 32) else c.

Definition lower (s : str) : str := map lower_char s.

Fixpoint starts_with (s prefix : str) {struct prefix} : bool :=
  match prefix, s with
  | [], _ => true
  | p :: prefix', c :: s' => bool_decide (p = c) && starts_with s' prefix'
  | _ :: _, [] => false
  end.

(** [needle in hay] *)
Fixpoint contains (hay needle : str) : bool :=
  starts_with hay needle
  || match hay with
     | [] => false
     | _ :: hay' => contains hay' needle
     end.

(** [needle] is a literal substring of [hay]. *)
Definition substring (needle hay : str) : Prop :=
  exists pre post, hay = pre ++ needle ++ post.

(** ** Data model *)

(** A transcript segment: [{'start': .., 'duration': .., 'text': ..}]. *)
Record Segment := {
  seg_start : Q;
  seg_duration : Q;
  seg_text : str
}.

(** The values stored in metadata dicts. *)
Inductive Value :=
  | VStr (s : str)
  | VInt (n : Z)
  | VNum (q : Q).

Abbreviation dict := (gmap string Value).

Abbreviation Embedding := (list Q).

(** A record of the collection. *)
Record Entry := {
  id : str;
  document : str;
  metadata : dict;
  embedding : Embedding
}.

Abbreviation Collection := (list Entry).

(** The dict returned by the transcript extractor; [segments] may be
    missing. *)
Record TranscriptData := {
  td_video_id : str;
  td_metadata : dict;
  td_transcript : str;
  td_segments : option (list Segment)
}.

(** [d.get(key, dflt)] *)
Definition dict_get (d : dict) (key : string) (dflt : Value) : Value :=
  default dflt (d !! key).

(** ** Exceptions and state *)

Inductive exn :=
  | KeyError (key : string)
  | IndexError
  | ValueError (msg : string)
  | DuplicateIDError
  | OtherError (msg : string).

(** The result of a call: a value, an exception, or no result at all
    (the call does not come back). *)
Inductive outcome (A : Type) :=
  | Returns (a : A)
  | Raises (e : exn)
  | Hangs.
Arguments Returns {A} a.
Arguments Raises {A} e.
Arguments Hangs {A}.

Definition M (St A : Type) : Type := St -> outcome A * St.

Definition ret {St A} (a : A) : M St A := fun st => (Returns a, st).

Definition raise {St A} (e : exn) : M St A := fun st => (Raises e, st).

Definition hang {St A} : M St A := fun st => (Hangs, st).

Definition bind {St A B} (m : M St A) (k : A -> M St B) : M St B :=
  fun st =>
    match m st with
    | (Returns a, st') => k a st'
    | (Raises e, st') => (Raises e, st')
    | (Hangs, st') => (Hangs, st')
    end.

(** [try: body  except Exception as e: handler] *)
Definition try_except {St A} (body : M St A) (handler : exn -> M St A)
    : M St A :=
  fun st =>
    match body st with
    | (Raises e, st') => handler e st'
    | r => r
    end.

(** The result of a call that does not touch the state. *)
Definition lift {St A} (o : outcome A) : M St A := fun st => (o, st).

Notation "'let*' x ':=' m 'in' k" := (bind m (fun x => k))
  (at level 10, x pattern, m at level 100, k at level 200).

(** ** Built-in functions

    [print] writes a text to the standard output, which may refuse it
    (an encoding that cannot represent a character, a closed stream) and
    then raises.  [str(e)] of an exception and the text of a metadata
    value in an f-string depend on values that are outside this model:
    they are functions of the environment. *)
Record Builtins (St : Type) := {
  print : str -> M St unit;
  exception_str : exn -> str;
  value_str : Value -> str
}.
Arguments print {St}.
Arguments exception_str {St}.
Arguments value_str {St}.

(** The standard output takes every text. *)
Definition accepts {St} (builtins : Builtins St) : Prop :=
  forall msg st, exists st', print builtins msg st = (Returns tt, st').

(** The decimal text of an integer in an f-string. *)
Definition int_str (n : Z) : str := lit (pretty n).

(** ** Segment mapper ([VectorStore._find_segments_for_chunk]) *)

Definition find_segments_for_chunk (chunk_text : str)
    (segments : list Segment) : list Segment :=
  let chunk_lower := lower chunk_text in
  fold_left
    (fun relevant_segments segment =>
       if contains chunk_lower (lower (seg_text segment))
       then relevant_segments ++ [segment]
       else relevant_segments)
    segments [].

(** ** Metadata of a chunk (the body of the loop of [add_transcript]) *)

Definition Qltb (a b : Q) : bool := negb (Qle_bool b a).

(** [min(xs)] and [max(xs)] on a non-empty sequence: the first of the
    least, respectively greatest, elements. *)
Definition py_min (x : Q) (rest : list Q) : Q :=
  fold_left (fun m y => if Qltb y m then y else m) rest x.

Definition py_max (x : Q) (rest : list Q) : Q :=
  fold_left (fun m y => if Qltb m y then y else m) rest x.

Definition seg_end (seg : Segment) : Q := seg_start seg + seg_duration seg.

(** [f"{video_id}_{i}"] *)
Definition make_id (video_id : str) (i : nat) : str :=
  video_id ++ lit "_" ++ lit (pretty i).

Definition metadata_entry (video_id : str) (metadata : dict) (i : nat)
    (chunk : str) (chunk_segments : list Segment) : dict :=
  let entry : dict :=
    list_to_map
      [("video_id", VStr video_id);
       ("chunk_index", VInt (Z.of_nat i));
       ("video_title", dict_get metadata "title" (VStr (lit "Unknown")));
       ("uploader", dict_get metadata "uploader" (VStr (lit "Unknown")));
       ("upload_date", dict_get metadata "upload_date" (VStr (lit "Unknown")));
       ("video_url", dict_get metadata "url" (VStr []));
       ("duration", dict_get metadata "duration" (VInt 0));
       ("segments_count", VInt (Z.of_nat (length chunk_segments)));
       ("text_length", VInt (len chunk))] in
  match chunk_segments with
  | [] => entry
  | seg :: rest =>
      <["end_time" := VNum (py_max (seg_end seg) (map seg_end rest))]>
        (<["start_time" := VNum (py_min (seg_start seg) (map seg_start rest))]>
           entry)
  end.

(** [enumerate(xs)] *)
Definition enumerate {A} (xs : list A) : list (nat * A) :=
  zip (seq 0 (length xs)) xs.

(** The [for i, chunk in enumerate(chunks)] loop: the three lists handed
    to the collection. *)
Definition prepare (video_id : str) (metadata : dict)
    (segments : list Segment) (chunks : list str)
    : list str * list dict * list str :=
  fold_left
    (fun '(documents, metadatas, ids) '(i, chunk) =>
       let doc_id := make_id video_id i in
       let chunk_segments := find_segments_for_chunk chunk segments in
       let entry := metadata_entry video_id metadata i chunk chunk_segments in
       (documents ++ [chunk], metadatas ++ [entry], ids ++ [doc_id]))
    (enumerate chunks) ([], [], []).

(** ** The collection

    The collection lives in ChromaDB, outside the repository.  It is
    modelled as the list of its records in insertion order, with the
    library's documented behaviour: [get] filters on a metadata field,
    [delete] removes the records with the given ids, [add] rejects an
    empty batch, lists of different lengths and duplicate ids in the
    batch, and ignores a record whose id is already stored. *)

Module Store.

Definition has_video_id (video_id : str) (e : Entry) : bool :=
  match metadata e !! "video_id" with
  | Some (VStr v) => bool_decide (v = video_id)
  | _ => false
  end.

(** [collection.get(where={"video_id": video_id})['ids']] *)
Definition get_ids_where_video_id (video_id : str) : M Collection (list str) :=
  fun c => (Returns (map id (List.filter (has_video_id video_id) c)), c).

(** [collection.delete(ids=ids)] *)
Definition delete (ids : list str) : M Collection unit :=
  fun c =>
    (Returns tt, List.filter (fun e => negb (bool_decide (id e ∈ ids))) c).

Fixpoint zip_entries (documents : list str) (metadatas : list dict)
    (embeddings : list Embedding) (ids : list str) : list Entry :=
  match documents, metadatas, embeddings, ids with
  | d :: ds, m :: ms, v :: vs, i :: is_ =>
      {| id := i; document := d; metadata := m; embedding := v |}
        :: zip_entries ds ms vs is_
  | _, _, _, _ => []
  end.

(** [collection.add(documents=.., metadatas=.., embeddings=.., ids=..)] *)
Definition add (documents : list str) (metadatas : list dict)
    (embeddings : list Embedding) (ids : list str) : M Collection unit :=
  fun c =>
    if bool_decide (ids = []) then
      (Raises (ValueError "Expected IDs to be a non-empty list"), c)
    else if negb (bool_decide (length documents = length ids
                               /\ length metadatas = length ids
                               /\ length embeddings = length ids)) then
      (Raises (ValueError "Unequal lengths"), c)
    else if negb (bool_decide (NoDup ids)) then
      (Raises DuplicateIDError, c)
    else
      let stored := map id c in
      (Returns tt,
       c ++ List.filter (fun e => negb (bool_decide (id e ∈ stored)))
              (zip_entries documents metadatas embeddings ids)).

(** [collection.get(include=['metadatas'])['metadatas']] *)
Definition get_metadatas : M Collection (list dict) :=
  fun c => (Returns (map metadata c), c).

(** [collection.count()] *)
Definition count : M Collection Z :=
  fun c => (Returns (Z.of_nat (length c)), c).

(** The answer of [collection.query]: one inner list per query. *)
Record QueryResult := {
  q_documents : list (list str);
  q_metadatas : list (list dict);
  q_distances : list (list Q)
}.

End Store.

(** The records that [add_transcript] hands to the collection. *)
Definition built_entries (video_id : str) (metadata : dict)
    (segments : list Segment) (chunks : list str)
    (embeddings : list Embedding) : list Entry :=
  let '(documents, metadatas, ids) :=
    prepare video_id metadata segments chunks in
  Store.zip_entries documents metadatas embeddings ids.

(** The record of chunk [i]. *)
Definition entry_of (video_id : str) (metadata : dict)
    (segments : list Segment) (ic : nat * str) (v : Embedding) : Entry :=
  {| id := make_id video_id ic.1;
     document := ic.2;
     metadata := metadata_entry video_id metadata ic.1 ic.2
                   (find_segments_for_chunk ic.2 segments);
     embedding := v |}.

(** What [remove_video] leaves of the collection. *)
Definition without_video (video_id : str) (c : Collection) : Collection :=
  List.filter
    (fun e => negb (bool_decide
       (id e ∈ map id (List.filter (Store.has_video_id video_id) c))))
    c.

(** Every record carries its video id, and its id is built from it. *)
Definition wf_collection (c : Collection) : Prop :=
  Forall (fun e => exists v i,
            metadata e !! "video_id" = Some (VStr v) /\ id e = make_id v i) c.

(** ** The vector store ([VectorStore])

    [self]: the configuration and the two outside computations, the
    embedding model and the nearest-neighbour query of the collection.
    The collection itself is the state. *)

Record VectorStore := {
  config : Config;
  encode : list str -> outcome (list Embedding);
  query : Collection -> Embedding -> Z -> outcome Store.QueryResult
}.

(** [VectorStore.remove_video], over the two calls it makes to the
    collection: the ids of the records of the video, and their
    deletion. *)
Definition remove_video_on {St} (collection_get : str -> M St (list str))
    (collection_delete : list str -> M St unit) (video_id : str) : M St Z :=
  let* returned :=
    try_except
      (let* ids := collection_get video_id in
       if bool_decide (ids <> []) then
         let* _ := collection_delete ids in
         ret (Some (Z.of_nat (length ids)))
       else ret None)
      (fun e => ret None) in
  match returned with
  | Some n => ret n
  | None => ret 0
  end.

Definition remove_video : str -> M Collection Z :=
  remove_video_on Store.get_ids_where_video_id Store.delete.

(** [VectorStore.add_transcript].  The chunker runs for at most
    [len(text) + 1] iterations; when that is not enough it never ends
    (see [chunk_text_hangs]). *)
Definition add_transcript (self : VectorStore) (transcript_data : TranscriptData)
    : M Collection Z :=
  let video_id := td_video_id transcript_data in
  let metadata := td_metadata transcript_data in
  let transcript_text := td_transcript transcript_data in
  let segments := default [] (td_segments transcript_data) in
  let* _ := remove_video video_id in
  match Chunker.chunk_text (config self) (S (length transcript_text))
          transcript_text None None with
  | None => hang
  | Some chunks =>
      let '(documents, metadatas, ids) :=
        prepare video_id metadata segments chunks in
      let* embeddings := lift (encode self documents) in
      let* _ := Store.add documents metadatas embeddings ids in
      ret (Z.of_nat (length chunks))
  end.

(** [for x in xs: acc = body(acc, x)] with calls that may raise. *)
Fixpoint for_each {St A B} (xs : list A) (acc : B) (body : B -> A -> M St B)
    : M St B :=
  match xs with
  | [] => ret acc
  | x :: xs' => let* acc' := body acc x in for_each xs' acc' body
  end.

(** [l[i]] for [i >= 0] *)
Definition list_index {St A} (l : list A) (i : nat) : M St A :=
  match l !! i with
  | Some x => ret x
  | None => raise IndexError
  end.

(** [d[key]] *)
Definition dict_index {St} (d : dict) (key : string) : M St Value :=
  match d !! key with
  | Some v => ret v
  | None => raise (KeyError key)
  end.

(** A formatted search result. *)
Record SearchResult := {
  r_document : str;
  r_metadata : dict;
  r_distance : Q;
  r_similarity : Q
}.

(** [VectorStore.search] *)
Definition search (self : VectorStore) (query_text : str) (top_k : option Z)
    : M Collection (list SearchResult) :=
  let top_k := default (TOP_K_RESULTS (config self)) top_k in
  let* encoded := lift (encode self [query_text]) in
  let* query_embedding := list_index encoded 0 in
  let* results :=
    (fun c => (query self c query_embedding top_k, c)) in
  let* documents := list_index (Store.q_documents results) 0 in
  for_each (seq 0 (length documents)) []
    (fun formatted_results i =>
       let* documents0 := list_index (Store.q_documents results) 0 in
       let* document := list_index documents0 i in
       let* metadatas0 := list_index (Store.q_metadatas results) 0 in
       let* metadata := list_index metadatas0 i in
       let* distances0 := list_index (Store.q_distances results) 0 in
       let* distance := list_index distances0 i in
       ret (formatted_results ++
              [{| r_document := document; r_metadata := metadata;
                  r_distance := distance; r_similarity := 1 - distance |}])).

(** A video record of [list_videos]. *)
Record VideoRecord := {
  vr_video_id : Value;
  vr_title : Value;
  vr_uploader : Value;
  vr_upload_date : Value;
  vr_url : Value;
  vr_duration : Value;
  vr_chunks : Z
}.

(** Equality of dict keys: numbers are compared by value. *)
Definition value_eqb (a b : Value) : bool :=
  match a, b with
  | VStr x, VStr y => bool_decide (x = y)
  | VInt x, VInt y => Z.eqb x y
  | VNum x, VNum y => Qeq_bool x y
  | VInt x, VNum y => Qeq_bool (inject_Z x) y
  | VNum x, VInt y => Qeq_bool x (inject_Z y)
  | _, _ => false
  end.

(** [key in videos], for a dict kept in insertion order. *)
Definition assoc_mem {B} (key : Value) (videos : list (Value * B)) : bool :=
  existsb (fun kv => value_eqb kv.1 key) videos.

(** [videos[key] = f(videos[key])] *)
Definition assoc_update {B} (key : Value) (f : B -> B)
    (videos : list (Value * B)) : list (Value * B) :=
  map (fun kv => if value_eqb kv.1 key then (kv.1, f kv.2) else kv) videos.

Definition add_chunk (r : VideoRecord) : VideoRecord :=
  {| vr_video_id := vr_video_id r; vr_title := vr_title r;
     vr_uploader := vr_uploader r; vr_upload_date := vr_upload_date r;
     vr_url := vr_url r; vr_duration := vr_duration r;
     vr_chunks := vr_chunks r + 1 |}.

(** The record created for a video id seen for the first time. *)
Definition fresh_record (video_id : Value) (metadata : dict) : VideoRecord :=
  {| vr_video_id := video_id;
     vr_title := dict_get metadata "video_title" (VStr (lit "Unknown"));
     vr_uploader := dict_get metadata "uploader" (VStr (lit "Unknown"));
     vr_upload_date := dict_get metadata "upload_date" (VStr (lit "Unknown"));
     vr_url := dict_get metadata "video_url" (VStr []);
     vr_duration := dict_get metadata "duration" (VInt 0);
     vr_chunks := 0 |}.

(** One iteration of the loop of [list_videos], once
    [metadata['video_id']] is known. *)
Definition count_step (videos : list (Value * VideoRecord)) (video_id : Value)
    (metadata : dict) : list (Value * VideoRecord) :=
  let videos :=
    if negb (assoc_mem video_id videos)
    then videos ++ [(video_id, fresh_record video_id metadata)]
    else videos in
  assoc_update video_id add_chunk videos.

(** The body of the loop of [list_videos]. *)
Definition count_metadata (videos : list (Value * VideoRecord))
    (metadata : dict) : M Collection (list (Value * VideoRecord)) :=
  let* video_id := dict_index metadata "video_id" in
  ret (count_step videos video_id metadata).

(** [VectorStore.list_videos] *)
Definition list_videos : M Collection (list VideoRecord) :=
  try_except
    (let* metadatas := Store.get_metadatas in
     let* videos := for_each metadatas [] count_metadata in
     ret (map snd videos))
    (fun e => ret []).

(** [VectorStore.get_collection_stats] *)
Definition get_collection_stats (self : VectorStore) : M Collection dict :=
  try_except
    (let* count := Store.count in
     let* videos := list_videos in
     ret (list_to_map
            [("total_chunks", VInt count);
             ("total_videos", VInt (Z.of_nat (length videos)));
             ("collection_name", VStr (lit (COLLECTION_NAME (config self))));
             ("embedding_model", VStr (lit (EMBEDDING_MODEL (config self))))]))
    (fun e => ret ∅).

(** [VectorStore.clear_database]: the collection is deleted and created
    again, empty. *)
Definition clear_database : M Collection bool :=
  try_except
    (let* _ := (fun _ : Collection => (Returns tt, [])) in ret true)
    (fun e => ret false).

(** The collections that the vector store can hold: it starts empty and
    is written by [add_transcript] (whatever its outcome),
    [remove_video] and [clear_database] only. *)
Inductive reachable (self : VectorStore) : Collection -> Prop :=
  | reachable_empty : reachable self []
  | reachable_add td c :
      reachable self c -> reachable self (add_transcript self td c).2
  | reachable_remove video_id c :
      reachable self c -> reachable self (remove_video video_id c).2
  | reachable_clear c :
      reachable self c -> reachable self (clear_database c).2.

(** ** The transcript extractor ([TranscriptExtractor])

    The extractor reads the network and the transcript files; [W] is the
    state of that outside world, and the four operations that touch it
    are the fields. *)

Record TranscriptExtractor (W : Type) := {
  extract_video_id : str -> outcome (option str);
  load_transcript : str -> M W (option TranscriptData);
  extract_transcript : str -> M W (option TranscriptData);
  save_transcript : TranscriptData -> M W str
}.
Arguments extract_video_id {W}.
Arguments load_transcript {W}.
Arguments extract_transcript {W}.
Arguments save_transcript {W}.

(** [TranscriptExtractor.extract_and_save_transcript] *)
Definition extract_and_save_transcript {W} (self : TranscriptExtractor W)
    (video_url : str) (force_refresh : bool) : M W (option TranscriptData) :=
  let* video_id := lift (extract_video_id self video_url) in
  match video_id with
  | None => ret None
  | Some [] => ret None
  | Some video_id =>
      let* cached :=
        if negb force_refresh then load_transcript self video_id
        else ret None in
      match cached with
      | Some existing_transcript => ret (Some existing_transcript)
      | None =>
          let* transcript_data := extract_transcript self video_id in
          match transcript_data with
          | Some td => let* filepath := save_transcript self td in ret (Some td)
          | None => ret None
          end
      end
  end.

(** ** The orchestrator ([VideoQASystem])

    The orchestrator calls its two collaborators through their methods
    and reports on the standard output; the record holds the methods and
    the built-in functions it uses. *)

Record VideoQASystem (St : Type) := {
  transcript_extractor_extract_and_save_transcript :
    str -> bool -> M St (option TranscriptData);
  vector_store_add_transcript : TranscriptData -> M St Z;
  vector_store_remove_video : str -> M St Z;
  builtins : Builtins St
}.
Arguments transcript_extractor_extract_and_save_transcript {St}.
Arguments vector_store_add_transcript {St}.
Arguments vector_store_remove_video {St}.
Arguments builtins {St}.

Module System.

Section Messages.
Context {St : Type} (self : VideoQASystem St).

(** [f"Added video to knowledge base: {transcript_data['metadata']['title']}"] *)
Definition added_video (title : Value) : str :=
  lit "Added video to knowledge base: " ++ value_str (builtins self) title.

(** [f"Created {chunks_added} searchable chunks"] *)
Definition created_chunks (chunks_added : Z) : str :=
  lit "Created " ++ int_str chunks_added ++ lit " searchable chunks".

(** [f"Error adding video {video_url}: {e}"] *)
Definition error_adding (video_url : str) (e : exn) : str :=
  lit "Error adding video " ++ video_url ++ lit ": "
  ++ exception_str (builtins self) e.

(** [f"\nProcessing: {url}"] *)
Definition processing (url : str) : str :=
  "010"%char :: lit "Processing: " ++ url.

(** [f"\nSummary: {successful}/{len(video_urls)} videos added successfully"] *)
Definition summary (successful total : Z) : str :=
  "010"%char :: lit "Summary: " ++ int_str successful ++ lit "/"
  ++ int_str total ++ lit " videos added successfully".

(** [f"Removed video {video_id} and {removed_chunks} chunks"] *)
Definition removed_video (video_id : str) (removed_chunks : Z) : str :=
  lit "Removed video " ++ video_id ++ lit " and " ++ int_str removed_chunks
  ++ lit " chunks".

(** [f"Video {video_id} not found in database"] *)
Definition not_found (video_id : str) : str :=
  lit "Video " ++ video_id ++ lit " not found in database".

(** [f"Error removing video {video_id}: {e}"] *)
Definition error_removing (video_id : str) (e : exn) : str :=
  lit "Error removing video " ++ video_id ++ lit ": "
  ++ exception_str (builtins self) e.

End Messages.

(** [VideoQASystem.add_video] *)
Definition add_video {St} (self : VideoQASystem St) (video_url : str)
    (force_refresh : bool) : M St bool :=
  try_except
    (let* transcript_data :=
       transcript_extractor_extract_and_save_transcript self video_url
         force_refresh in
     match transcript_data with
     | None => ret false
     | Some td =>
         let* chunks_added := vector_store_add_transcript self td in
         let* title := dict_index (td_metadata td) "title" in
         let* _ := print (builtins self) (added_video self title) in
         let* _ := print (builtins self) (created_chunks chunks_added) in
         ret true
     end)
    (fun e =>
       let* _ := print (builtins self) (error_adding self video_url e) in
       ret false).

(** [VideoQASystem.add_videos] *)
Definition add_videos {St} (self : VideoQASystem St) (video_urls : list str)
    (force_refresh : bool) : M St (gmap str bool) :=
  let* results :=
    for_each video_urls (∅ : gmap str bool)
      (fun results url =>
         let* _ := print (builtins self) (processing url) in
         let* added := add_video self url force_refresh in
         ret (<[url := added]> results)) in
  let successful :=
    length (List.filter (fun kv => kv.2) (map_to_list results)) in
  let* _ :=
    print (builtins self)
      (summary (Z.of_nat successful) (Z.of_nat (length video_urls))) in
  ret results.

(** [VideoQASystem.remove_video] *)
Definition remove_video {St} (self : VideoQASystem St) (video_id : str)
    : M St bool :=
  try_except
    (let* removed_chunks := vector_store_remove_video self video_id in
     if removed_chunks >? 0 then
       let* _ :=
         print (builtins self) (removed_video video_id removed_chunks) in
       ret true
     else
       let* _ := print (builtins self) (not_found video_id) in
       ret false)
    (fun e =>
       let* _ := print (builtins self) (error_removing self video_id e) in
       ret false).

(** Neither collaborator call of [add_video] hangs. *)
Definition never_hangs {St} (self : VideoQASystem St) : Prop :=
  (forall url force_refresh st,
      (transcript_extractor_extract_and_save_transcript self url
         force_refresh st).1 <> Hangs)
  /\ (forall td st, (vector_store_add_transcript self td st).1 <> Hangs).

(** The url announced and [add_video] called on every url in turn,
    whatever the earlier calls gave: the pairs of url and result, and
    the final state. *)
Fixpoint batch_log {St} (self : VideoQASystem St) (video_urls : list str)
    (force_refresh : bool) (st : St) : list (str * bool) * St :=
  match video_urls with
  | [] => ([], st)
  | url :: video_urls' =>
      let '(_, st0) := print (builtins self) (processing url) st in
      let '(o, st') := add_video self url force_refresh st0 in
      let added := match o with Returns b => b | _ => false end in
      let '(log, st'') := batch_log self video_urls' force_refresh st' in
      ((url, added) :: log, st'')
  end.

(** The dict in which the pairs of a log were stored one after the
    other. *)
Definition record_all (log : list (str * bool)) (results : gmap str bool)
    : gmap str bool :=
  fold_left (fun results ub => <[ub.1 := ub.2]> results) log results.

End System.

(** The system as [VideoQASystem.__init__] builds it: the state is the
    collection together with the outside world of the extractor, which
    holds the standard output too. *)

Definition on_collection {W A} (m : M Collection A) : M (Collection * W) A :=
  fun st => let '(o, c) := m st.1 in (o, (c, st.2)).

Definition on_outside {W A} (m : M W A) : M (Collection * W) A :=
  fun st => let '(o, w) := m st.2 in (o, (st.1, w)).

Definition system {W} (extractor : TranscriptExtractor W) (store : VectorStore)
    (console : Builtins W) : VideoQASystem (Collection * W) :=
  {| transcript_extractor_extract_and_save_transcript url force_refresh :=
       on_outside (extract_and_save_transcript extractor url force_refresh);
     vector_store_add_transcript td := on_collection (add_transcript store td);
     vector_store_remove_video video_id :=
       on_collection (remove_video video_id);
     builtins :=
       {| print msg := on_outside (print console msg);
          exception_str := exception_str console;
          value_str := value_str console |} |}.

(** The text of the exceptions and of the metadata values of the
    examples (no float is printed in them). *)
Definition sample_exception_str (e : exn) : str :=
  match e with
  | OtherError msg | ValueError msg => lit msg
  | KeyError key => lit "'" ++ lit key ++ lit "'"
  | IndexError => lit "list index out of range"
  | DuplicateIDError => lit "duplicate ids"
  end.

Definition sample_value_str (v : Value) : str :=
  match v with
  | VStr s => s
  | VInt n => int_str n
  | VNum q => lit "nan"
  end.

(** A standard output that takes every text, and one that encodes to
    ASCII and refuses every other character; what was written is not
    kept in the state. *)
Definition utf8_console {St} : Builtins St :=
  {| print msg := ret tt;
     exception_str := sample_exception_str;
     value_str := sample_value_str |}.

Definition is_ascii (c : ascii) : bool := (nat_of_ascii c <? 128)%nat.

Definition ascii_console {St} : Builtins St :=
  {| print msg :=
       if forallb is_ascii msg then ret tt
       else raise (OtherError "'ascii' codec can't encode character");
     exception_str := sample_exception_str;
     value_str := sample_value_str |}.

Definition rep (n : nat) (c : ascii) : str := replicate n c.

(** Sample inputs of the examples below. *)
Definition two_sentences : str :=
  rep 50 "a"%char ++ lit ". " ++ rep 98 "b"%char.

Definition dot_then_letters : str := lit ". " ++ rep 200 "a"%char.

(** The pairs of the grouping dict that belong to video [v], and the
    metadata dicts that do. *)
Definition keyed (v : str) (kv : Value * VideoRecord) : bool :=
  value_eqb kv.1 (VStr v).

Definition about_video (v : str) (metadata : dict) : bool :=
  match metadata !! "video_id" with
  | Some (VStr s) => bool_decide (s = v)
  | _ => false
  end.

(** The state of the grouping dict with respect to video [v] after [k]
    of its chunks were counted: no record for [k = 0], and otherwise one
    record, which holds [k]. *)
Definition tally (v : str) (videos : list (Value * VideoRecord)) (k : Z)
    : Prop :=
  Forall (fun kv => vr_video_id kv.2 = kv.1) videos
  /\ ((k = 0 /\ List.filter (keyed v) videos = [])
      \/ (0 < k /\ exists r, List.filter (keyed v) videos = [(VStr v, r)]
                             /\ vr_chunks r = k)).

(** Sample stores and transcripts of the examples below: chunks of at
    most 110 characters overlapping by 5; an embedding model that maps a
    text to its length, and one that always fails; a query that ranks
    nothing. *)
Definition small_config : Config :=
  {| CHUNK_SIZE := 110; CHUNK_OVERLAP := 5; TOP_K_RESULTS := 5;
     COLLECTION_NAME := "video_transcripts";
     EMBEDDING_MODEL := "length" |}.

Definition no_neighbours : Store.QueryResult :=
  {| Store.q_documents := [[]]; Store.q_metadatas := [[]];
     Store.q_distances := [[]] |}.

Definition length_store : VectorStore :=
  {| config := small_config;
     encode docs := Returns (map (fun d => [inject_Z (len d)]) docs);
     query _ _ _ := Returns no_neighbours |}.

Definition failing_store : VectorStore :=
  {| config := small_config;
     encode docs := Raises (OtherError "CUDA out of memory");
     query _ _ _ := Returns no_neighbours |}.

(** A store whose query answers two neighbours, nearest first. *)
Definition two_neighbours : Store.QueryResult :=
  {| Store.q_documents := [[lit "Hello world."; lit "Bye"]];
     Store.q_metadatas := [[∅; ∅]];
     Store.q_distances := [[1 # 10; 3 # 10]] |}.

Definition ranking_store : VectorStore :=
  {| config := small_config;
     encode docs := Returns (map (fun d => [inject_Z (len d)]) docs);
     query _ _ _ := Returns two_neighbours |}.

Definition greeting_segments : list Segment :=
  [ {| seg_start := 0; seg_duration := 2; seg_text := lit "hello WORLD." |};
    {| seg_start := 2; seg_duration := 3 # 2; seg_text := lit "Bye" |};
    {| seg_start := 5; seg_duration := 1; seg_text := lit "absent" |} ].

Definition greeting : TranscriptData :=
  {| td_video_id := lit "abc";
     td_metadata := {[ "title" := VStr (lit "Greeting") ]};
     td_transcript := lit "Hello world. Bye";
     td_segments := Some greeting_segments |}.

(** The same video with another transcript, which makes two chunks. *)
Definition greeting_again : TranscriptData :=
  {| td_video_id := lit "abc";
     td_metadata := {[ "title" := VStr (lit "Greeting") ]};
     td_transcript := two_sentences;
     td_segments := None |}.

(** An extractor that knows one url, has no transcript files and
    fetches the greeting; the outside world has no state. *)
Definition one_video_extractor : TranscriptExtractor unit :=
  {| extract_video_id url :=
       if bool_decide (url = lit "https://youtu.be/abc")
       then Returns (Some (lit "abc")) else Returns None;
     load_transcript video_id := ret None;
     extract_transcript video_id := ret (Some greeting);
     save_transcript td := ret (lit "./data/transcripts/abc_transcript.json") |}.

Definition greeting_index : Collection :=
  (add_transcript length_store greeting []).2.

Definition greeting_entry : Entry :=
  entry_of (lit "abc") (td_metadata greeting) greeting_segments
    (0%nat, lit "Hello world. Bye") [inject_Z 16].

Definition greeting_again_index : Collection :=
  (add_transcript length_store greeting_again greeting_index).2.

(** The sum of the chunk counts of video records. *)
Definition chunk_total (records : list VideoRecord) : Z :=
  foldr (fun r acc => vr_chunks r + acc) 0 records.

(** ** Video ids ([TranscriptExtractor.extract_video_id])

    The two patterns are searched with [re.search]: the match starts at
    the leftmost position at which the pattern matches, and the group
    [([^&\n?#]+)] takes as many characters as it can, at least one. *)

Module VideoId.

(** [[^&\n?#]] *)
Definition allowed (c : ascii) : bool :=
  negb (bool_decide (c ∈ ["&"%char; "010"%char; "?"%char; "#"%char])).

(** The longest prefix of allowed characters. *)
Fixpoint run (s : str) : str :=
  match s with
  | c :: s' => if allowed c then c :: run s' else []
  | [] => []
  end.

(** The literal [p] followed by the group, at the start of [s]. *)
Definition group_after (p s : str) : option str :=
  if starts_with s p then
    match run (drop (length p) s) with
    | [] => None
    | r => Some r
    end
  else None.

(** [(?:youtube\.com/watch\?v=|youtu\.be/|youtube\.com/embed/)([^&\n?#]+)]
    at the start of [s]: the alternatives in order. *)
Definition pattern1_here (s : str) : option str :=
  match group_after (lit "youtube.com/watch?v=") s with
  | Some r => Some r
  | None =>
      match group_after (lit "youtu.be/") s with
      | Some r => Some r
      | None => group_after (lit "youtube.com/embed/") s
      end
  end.

(** [.*v=([^&\n?#]+)] at the start of [rest]: [.*] takes as many
    characters other than newlines as it can and gives back until
    [v=] and the group match, so the last place that matches wins. *)
Fixpoint last_v (rest : str) : option str :=
  match rest with
  | [] => None
  | c :: rest' =>
      match (if bool_decide (c = "010"%char) then None else last_v rest') with
      | Some r => Some r
      | None => group_after (lit "v=") rest
      end
  end.

(** [youtube\.com/watch\?.*v=([^&\n?#]+)] at the start of [s]. *)
Definition pattern2_here (s : str) : option str :=
  if starts_with s (lit "youtube.com/watch?")
  then last_v (drop (length (lit "youtube.com/watch?")) s)
  else None.

(** [re.search]: the first position at which the pattern matches. *)
Fixpoint search_from (here : str -> option str) (s : str) : option str :=
  match here s with
  | Some r => Some r
  | None =>
      match s with
      | [] => None
      | _ :: s' => search_from here s'
      end
  end.

(** [[a-zA-Z0-9_-]] *)
Definition id_char (c : ascii) : bool :=
  let n := nat_of_ascii c in
  ((97 <=? n) && (n <=? 122) || (65 <=? n) && (n <=? 90)
   || (48 <=? n) && (n <=? 57) || (n =? 95) || (n =? 45))%nat.

(** [re.match(r'^[a-zA-Z0-9_-]{11}$', url)]: eleven such characters,
    and [$] also matches before a newline that ends the string. *)
Definition bare_id (url : str) : bool :=
  forallb id_char (take 11 url)
  && (bool_decide (length url = 11%nat)
      || bool_decide (drop 11 url = ["010"%char])).

(** [extract_video_id] *)
Definition extract_video_id (url : str) : option str :=
  match search_from pattern1_here url with
  | Some r => Some r
  | None =>
      match search_from pattern2_here url with
      | Some r => Some r
      | None => if bare_id url then Some url else None
      end
  end.

(** The ['url'] field of [get_video_metadata]:
    [f"https://www.youtube.com/watch?v={video_id}"]. *)
Definition watch_url (video_id : str) : str :=
  lit "https://www.youtube.com/watch?v=" ++ video_id.

End VideoId.

(** ** Answering ([VideoQASystem.ask_question])

    The calls that [ask_question] and [get_relevant_sources] make: the
    search of the vector store, the answer of the language model, and
    the built-in [print] and [str(e)] of the handler. *)

Record Answering (St : Type) := {
  answering_config : Config;
  vector_store_search : str -> option Z -> M St (list SearchResult);
  llm_generate_answer : str -> list SearchResult -> M St str;
  answering_builtins : Builtins St
}.
Arguments answering_config {St}.
Arguments vector_store_search {St}.
Arguments llm_generate_answer {St}.
Arguments answering_builtins {St}.

Definition no_information : str :=
  lit "I couldn't find any relevant information in the video transcripts to answer your question. Please make sure you've added videos to the knowledge base.".

Definition error_prefix : str :=
  lit "I encountered an error while processing your question: ".

(** [f"Error answering question: {e}"] *)
Definition error_answering {St} (self : Answering St) (e : exn) : str :=
  lit "Error answering question: " ++ exception_str (answering_builtins self) e.

(** [f"I encountered an error while processing your question: {str(e)}"] *)
Definition error_answer {St} (self : Answering St) (e : exn) : str :=
  error_prefix ++ exception_str (answering_builtins self) e.

(** [VideoQASystem.ask_question] *)
Definition ask_question {St} (self : Answering St) (question : str)
    (top_k : option Z) : M St str :=
  try_except
    (let top_k := default (TOP_K_RESULTS (answering_config self)) top_k in
     let* context := vector_store_search self question (Some top_k) in
     match context with
     | [] => ret no_information
     | _ :: _ =>
         let* answer := llm_generate_answer self question context in
         ret answer
     end)
    (fun e =>
       let* _ := print (answering_builtins self) (error_answering self e) in
       ret (error_answer self e)).

(** [VideoQASystem.get_relevant_sources] *)
Definition get_relevant_sources {St} (self : Answering St) (question : str)
    (top_k : option Z) : M St (list SearchResult) :=
  let top_k := default (TOP_K_RESULTS (answering_config self)) top_k in
  vector_store_search self question (Some top_k).

(** [TranscriptExtractor.batch_extract_transcripts] *)
Definition batch_extract_transcripts {W} (self : TranscriptExtractor W)
    (video_urls : list str) (force_refresh : bool)
    : M W (list TranscriptData) :=
  for_each video_urls []
    (fun results url =>
       let* transcript_data :=
         extract_and_save_transcript self url force_refresh in
       match transcript_data with
       | Some td => ret (results ++ [td])
       | None => ret results
       end).

(** An extractor whose transcript files are a map from video id to
    transcript, and which fetches the greeting under the id asked
    for. *)
Definition file_extractor : TranscriptExtractor (gmap str TranscriptData) :=
  {| extract_video_id url := Returns (VideoId.extract_video_id url);
     load_transcript video_id := fun files => (Returns (files !! video_id), files);
     extract_transcript video_id :=
       ret (Some {| td_video_id := video_id;
                    td_metadata := td_metadata greeting;
                    td_transcript := td_transcript greeting;
                    td_segments := td_segments greeting |});
     save_transcript td :=
       fun files => (Returns (td_video_id td ++ lit "_transcript.json"),
                     <[td_video_id td := td]> files) |}.

(** The same files behind a network that fails: [extract_transcript]
    reports the failure with [None]. *)
Definition offline_extractor : TranscriptExtractor (gmap str TranscriptData) :=
  {| extract_video_id := extract_video_id file_extractor;
     load_transcript := load_transcript file_extractor;
     extract_transcript video_id := ret None;
     save_transcript := save_transcript file_extractor |}.

(** The same extractor over a directory that cannot be written. *)
Definition readonly_extractor : TranscriptExtractor (gmap str TranscriptData) :=
  {| extract_video_id := extract_video_id file_extractor;
     load_transcript := load_transcript file_extractor;
     extract_transcript := extract_transcript file_extractor;
     save_transcript td := raise (OtherError "Permission denied") |}.

(** An answering path over the vector store, with a language model that
    repeats the first document. *)
Definition echo_answering (store : VectorStore)
    (console : Builtins Collection) : Answering Collection :=
  {| answering_config := config store;
     vector_store_search := search store;
     llm_generate_answer question context :=
       ret (default [] (r_document <$> head context));
     answering_builtins := console |}.

(** Chunks of at most 100 characters overlapping by 2, and an extractor
    that fetches a transcript which starts with a full stop; a url and
    a video id with a letter that is not ASCII. *)
Definition tight_store : VectorStore :=
  {| config :=
       {| CHUNK_SIZE := 100; CHUNK_OVERLAP := 2; TOP_K_RESULTS := 5;
          COLLECTION_NAME := "video_transcripts";
          EMBEDDING_MODEL := "length" |};
     encode := encode length_store;
     query := query length_store |}.

Definition dotted_extractor : TranscriptExtractor unit :=
  {| extract_video_id := extract_video_id one_video_extractor;
     load_transcript := load_transcript one_video_extractor;
     extract_transcript video_id :=
       ret (Some {| td_video_id := video_id;
                    td_metadata := td_metadata greeting;
                    td_transcript := dot_then_letters;
                    td_segments := None |});
     save_transcript := save_transcript one_video_extractor |}.

Definition accented_id : str := ["233"%char].

Definition accented_url : str := lit "https://youtu.be/" ++ accented_id.

(** ** Cleaning a model response ([LLMInterface._clean_response]) *)

Module Llm.

(** [s.replace(old, new)] for a non-empty [old]: the occurrences are
    taken from the left and do not overlap; [skip] counts the characters
    of an occurrence that are still to be passed over. *)
Fixpoint replace_from (old new : str) (skip : nat) (s : str) : str :=
  match s with
  | [] => []
  | c :: s' =>
      match skip with
      | S k => replace_from old new k s'
      | O =>
          if starts_with s old
          then new ++ replace_from old new (length old - 1) s'
          else c :: replace_from old new 0 s'
      end
  end.

Definition replace (s old new : str) : str := replace_from old new 0 s.

(** [s.split(sep)] for a separator of one character. *)
Fixpoint split (s : str) (sep : ascii) : list str :=
  match s with
  | [] => [[]]
  | c :: s' =>
      if bool_decide (c = sep) then [] :: split s' sep
      else match split s' sep with
           | line :: lines => (c :: line) :: lines
           | [] => [[c]]
           end
  end.

(** [sep.join(parts)] *)
Fixpoint join (sep : str) (parts : list str) : str :=
  match parts with
  | [] => []
  | [part] => part
  | part :: rest => part ++ sep ++ join sep rest
  end.

Definition labels : list str :=
  [lit "Question:"; lit "Context:"; lit "Answer:"].

(** [line.startswith(('Question:', 'Context:', 'Answer:'))] *)
Definition starts_with_label (line : str) : bool :=
  existsb (starts_with line) labels.

(** The loop over the lines, with its [break]. *)
Fixpoint clean_lines (lines cleaned_lines : list str) : list str :=
  match lines with
  | [] => cleaned_lines
  | line :: rest =>
      let line := strip line in
      if truthy line && negb (starts_with_label line) then
        let cleaned_lines := cleaned_lines ++ [line] in
        if 300 <? len (join (lit " ") cleaned_lines) then cleaned_lines
        else clean_lines rest cleaned_lines
      else clean_lines rest cleaned_lines
  end.

(** [_clean_response] *)
Definition clean_response (response : str) : str :=
  let response := replace response (lit "<|endoftext|>") [] in
  let response := replace response (lit "<pad>") [] in
  let lines := split response "010"%char in
  join (lit " ") (clean_lines lines []).

(** A line is clean when it is not empty, has no white space at either
    end, holds no newline and starts with none of the labels. *)
Definition clean_line (line : str) : Prop :=
  line <> []
  /\ (forall ch, head line = Some ch \/ last line = Some ch ->
        is_space ch = false)
  /\ ("010"%char ∉ line)
  /\ starts_with_label line = false.

End Llm.

(** * Properties *)

(** *** Basic facts on slices and stripping *)

Section StringFacts.

Lemma len_nonneg (s : str) : 0 <= len s.
Proof. unfold len. lia. Qed.

Lemma len_app (s t : str) : len (s ++ t) = len s + len t.
Proof. unfold len. rewrite length_app. lia. Qed.

Lemma slice_bound_range n i : 0 <= n -> 0 <= slice_bound n i <= n.
Proof. unfold slice_bound. destruct (Z.ltb_spec i 0); lia. Qed.

Lemma len_slice s a b :
  len (slice s a b)
  = Z.max 0 (slice_bound (len s) b - slice_bound (len s) a).
Proof.
  pose proof (len_nonneg s) as Hn.
  pose proof (slice_bound_range (len s) a Hn).
  pose proof (slice_bound_range (len s) b Hn).
  unfold slice. unfold len in *. rewrite length_take, length_drop. lia.
Qed.

Lemma lstrip_suffix s : exists ws, s = ws ++ lstrip s.
Proof.
  induction s as [|c r [ws IH]]; simpl.
  - by exists [].
  - destruct (is_space c).
    + exists (c :: ws). simpl. by f_equal.
    + by exists [].
Qed.

Lemma len_lstrip s : len (lstrip s) <= len s.
Proof.
  destruct (lstrip_suffix s) as [ws H]. rewrite H at 2.
  rewrite len_app. pose proof (len_nonneg ws). lia.
Qed.

Lemma len_rstrip s : len (rstrip s) <= len s.
Proof.
  unfold rstrip. pose proof (len_lstrip (rev s)) as H.
  unfold len in *. rewrite length_rev in *. lia.
Qed.

Lemma len_strip s : len (strip s) <= len s.
Proof.
  unfold strip. pose proof (len_rstrip (lstrip s)). pose proof (len_lstrip s).
  lia.
Qed.

Lemma rstrip_snoc_space s c : is_space c = true -> rstrip (s ++ [c]) = rstrip s.
Proof. intros H. unfold rstrip. rewrite rev_app_distr. simpl. by rewrite H. Qed.

Lemma lstrip_snoc s c :
  lstrip (s ++ [c]) = [] \/ exists s', lstrip (s ++ [c]) = s' ++ [c] /\ len s' <= len s.
Proof.
  induction s as [|d r IH]; simpl.
  - destruct (is_space c); [by left|]. right. exists []. split; [done|]. unfold len; simpl; lia.
  - destruct (is_space d).
    + destruct IH as [IH|(s' & -> & Hl)]; [by left|].
      right. exists s'. split; [done|]. unfold len in *. simpl. lia.
    + right. exists (d :: r). split; [done|]. lia.
Qed.

(** A string that ends in white space loses at least that character. *)
Lemma len_strip_snoc_space s c :
  is_space c = true -> len (strip (s ++ [c])) <= len s.
Proof.
  intros Hc. unfold strip.
  destruct (lstrip_snoc s c) as [->|(s' & -> & Hl)].
  - unfold rstrip; simpl. apply len_nonneg.
  - rewrite rstrip_snoc_space by done. pose proof (len_rstrip s'). lia.
Qed.

End StringFacts.


(** *** The boundary scan *)

Section ChunkEnd.
Import Chunker.

Lemma slice_at_nonneg s a b :
  0 <= a <= b -> b <= len s ->
  slice s a b = take (Z.to_nat (b - a)) (drop (Z.to_nat a) s).
Proof.
  intros Hab Hb. unfold slice, slice_bound.
  destruct (Z.ltb_spec a 0), (Z.ltb_spec b 0); try lia.
  by rewrite !Z.min_l by lia.
Qed.

Lemma ending_length m : m ∈ sentence_endings -> len m = 2.
Proof.
  unfold sentence_endings. rewrite !elem_of_cons, elem_of_nil.
  intros [->|[->|[->|[->|[]]]]]; reflexivity.
Qed.

Lemma ending_last_space m :
  m ∈ sentence_endings -> exists c1 c2, m = [c1; c2] /\ is_space c2 = true.
Proof.
  unfold sentence_endings. rewrite !elem_of_cons, elem_of_nil.
  intros [->|[->|[->|[->|[]]]]]; eexists _, _; (split; [reflexivity|reflexivity]).
Qed.

Lemma ending_at_elem text i :
  ending_at text i = true <-> slice text i (i + 2) ∈ sentence_endings.
Proof.
  unfold ending_at, sentence_endings, str_eqb. simpl.
  rewrite !orb_true_iff, !bool_decide_eq_true, !elem_of_cons, elem_of_nil.
  intuition congruence.
Qed.

(** The test of the loop is the occurrence of a marker at [i]. *)
Lemma ending_at_spec text i :
  0 <= i -> ending_at text i = true <-> marker_at text i.
Proof.
  intros Hi. rewrite ending_at_elem. split.
  - intros Hm. pose proof (ending_length _ Hm) as Hl.
    rewrite len_slice in Hl. pose proof (len_nonneg text) as Hn.
    unfold slice_bound in Hl.
    destruct (Z.ltb_spec i 0), (Z.ltb_spec (i + 2) 0); try lia.
    assert (i + 2 <= len text) as Hle by lia.
    rewrite slice_at_nonneg in Hm by lia.
    exists (take (Z.to_nat i) text), (take (Z.to_nat (i + 2 - i)) (drop (Z.to_nat i) text)),
      (drop (Z.to_nat (i + 2 - i)) (drop (Z.to_nat i) text)).
    split; [done|]. split.
    + by rewrite !take_drop.
    + unfold len in *. rewrite length_take. lia.
  - intros (pre & m & post & Hm & -> & Hpre).
    pose proof (ending_length _ Hm) as Hl.
    pose proof (len_nonneg post) as Hpost.
    rewrite slice_at_nonneg; [|lia|rewrite !len_app; lia].
    replace (Z.to_nat i) with (length pre) by (unfold len in Hpre; lia).
    rewrite drop_app_length.
    replace (Z.to_nat (i + 2 - i)) with (length m) by (unfold len in Hl; lia).
    by rewrite take_app_length.
Qed.

Lemma range_empty lo hi : hi <= lo -> range lo hi = [].
Proof. intros H. unfold range. by replace (Z.to_nat (hi - lo)) with 0%nat by lia. Qed.

Lemma scan_snoc text ps i best :
  scan text (ps ++ [i]) best
  = if ending_at text i then i + 2 else scan text ps best.
Proof. unfold scan. by rewrite fold_left_app. Qed.

Lemma range_succ lo n :
  range lo (lo + Z.of_nat (S n))
  = range lo (lo + Z.of_nat n) ++ [lo + Z.of_nat n].
Proof.
  unfold range.
  replace (Z.to_nat (lo + Z.of_nat (S n) - lo)) with (S n) by lia.
  replace (Z.to_nat (lo + Z.of_nat n - lo)) with n by lia.
  by rewrite seq_S, map_app.
Qed.

(** The scan of [lo, lo+n) keeps [best] when no position hits, and
    otherwise returns two past the greatest hit. *)
Lemma scan_range text lo n best :
  let r := scan text (range lo (lo + Z.of_nat n)) best in
  ((forall i, lo <= i < lo + Z.of_nat n -> ending_at text i = false) /\ r = best)
  \/ (exists i, lo <= i < lo + Z.of_nat n /\ ending_at text i = true
        /\ (forall j, i < j < lo + Z.of_nat n -> ending_at text j = false)
        /\ r = i + 2).
Proof.
  induction n as [|n IH]; intros r.
  - left. split; [intros; lia|]. subst r.
    by rewrite range_empty by lia.
  - subst r. rewrite range_succ, scan_snoc.
    destruct (ending_at text (lo + Z.of_nat n)) eqn:Hhit.
    + right. exists (lo + Z.of_nat n). split; [lia|]. split; [done|].
      split; [intros; lia|done].
    + destruct IH as [[Hno Hr]|(i & Hi & Hhi & Hlast & Hr)].
      * left. split; [|done]. intros i Hi.
        destruct (decide (i = lo + Z.of_nat n)) as [->|]; [done|].
        apply Hno. lia.
      * right. exists i. repeat split; try lia; try done.
        intros j Hj. destruct (decide (j = lo + Z.of_nat n)) as [->|]; [done|].
        apply Hlast. lia.
Qed.

Lemma scan_window text lo hi best :
  lo <= hi ->
  let r := scan text (range lo hi) best in
  ((forall i, lo <= i < hi -> ending_at text i = false) /\ r = best)
  \/ (exists i, lo <= i < hi /\ ending_at text i = true
        /\ (forall j, i < j < hi -> ending_at text j = false)
        /\ r = i + 2).
Proof.
  intros Hle. pose proof (scan_range text lo (Z.to_nat (hi - lo)) best) as H.
  by replace (lo + Z.of_nat (Z.to_nat (hi - lo))) with hi in H by lia.
Qed.

(** What [chunk_end] returns, in terms of the window before the
    tentative end [start + chunk_size]. *)
Lemma chunk_end_cases text cs start :
  let e := start + cs in
  let lo := Z.max 0 (e - 100) in
  (len text <= e /\ chunk_end text cs start = e)
  \/ (e < len text
      /\ (forall i, lo <= i < e -> ending_at text i = false)
      /\ chunk_end text cs start = e)
  \/ (e < len text
      /\ exists i, lo <= i < e /\ ending_at text i = true
           /\ (forall j, i < j < e -> ending_at text j = false)
           /\ chunk_end text cs start = i + 2).
Proof.
  intros e lo. unfold chunk_end. fold e. fold lo.
  destruct (Z.ltb_spec e (len text)) as [Hlt|Hge]; [|left; lia].
  right. destruct (Z.le_gt_cases lo e) as [Hle|Hgt].
  - destruct (scan_window text lo e e Hle) as [[Hno Hr]|(i & Hi & Hhit & Hlast & Hr)].
    + left. by repeat split.
    + right. split; [done|]. by exists i.
  - left. rewrite range_empty by lia. repeat split; try done. intros; lia.
Qed.

Lemma chunk_end_bounds text cs start :
  start + cs - 98 <= chunk_end text cs start <= start + cs + 1.
Proof.
  destruct (chunk_end_cases text cs start)
    as [[_ ->]|[(_ & _ & ->)|(_ & i & Hi & _ & _ & ->)]]; lia.
Qed.

End ChunkEnd.

(** *** The chunking loop *)

Section ChunkLoop.
Import Chunker.

Lemma spans_end fuel text cs ov start s e :
  (s, e) ∈ spans fuel text cs ov start -> e = chunk_end text cs s.
Proof.
  revert start. induction fuel as [|fuel IH]; intros start; simpl.
  - by rewrite elem_of_nil.
  - destruct (start <? len text); [|by rewrite elem_of_nil].
    rewrite elem_of_cons. intros [[= -> ->]|Hin]; [done|].
    destruct (chunk_end text cs start - ov >=? len text).
    + by apply elem_of_nil in Hin.
    + by apply IH in Hin.
Qed.

(** The chunks returned are the cuts of the spans, in order. *)
Lemma chunk_loop_spans fuel text cs ov start acc chunks :
  chunk_loop fuel text cs ov start acc = Some chunks ->
  chunks = acc ++ omap (cut text) (spans fuel text cs ov start).
Proof.
  revert start acc. induction fuel as [|fuel IH]; intros start acc; simpl; [done|].
  destruct (start <? len text); [|intros [= <-]; by rewrite app_nil_r].
  unfold cut at 1. simpl.
  set (chunk := strip (slice text start (chunk_end text cs start))).
  destruct (chunk_end text cs start - ov >=? len text).
  - intros [= <-]. destruct (truthy chunk); simpl; by rewrite ?app_nil_r.
  - intros H. apply IH in H. rewrite H.
    destruct (truthy chunk); simpl; by rewrite <- ?app_assoc.
Qed.

Lemma chunk_loop_fuel_mono fuel fuel' text cs ov start acc chunks :
  chunk_loop fuel text cs ov start acc = Some chunks ->
  (fuel <= fuel')%nat ->
  chunk_loop fuel' text cs ov start acc = Some chunks.
Proof.
  revert fuel' start acc. induction fuel as [|fuel IH]; intros fuel' start acc; [done|].
  intros H Hle. destruct fuel' as [|fuel']; [lia|]. simpl in *.
  destruct (start <? len text); [|done].
  destruct (chunk_end text cs start - ov >=? len text); [done|].
  apply IH; [done|lia].
Qed.

(** When every cut advances [start], the loop ends within
    [len text - start + 1] iterations. *)
Lemma chunk_loop_terminates text cs ov :
  99 <= cs - ov ->
  forall fuel start acc,
    (Z.to_nat (len text - start) < fuel)%nat ->
    exists chunks, chunk_loop fuel text cs ov start acc = Some chunks.
Proof.
  intros Hcfg. induction fuel as [|fuel IH]; intros start acc Hfuel; [lia|].
  simpl. destruct (Z.ltb_spec start (len text)) as [Hlt|Hge]; [|by eexists].
  pose proof (chunk_end_bounds text cs start) as Hb.
  destruct (Z.geb_spec (chunk_end text cs start - ov) (len text)); [by eexists|].
  apply IH. lia.
Qed.

(** An iteration that leaves [start] where it was repeats for ever. *)
Lemma chunk_loop_stuck text cs ov start :
  start < len text ->
  chunk_end text cs start - ov = start ->
  forall fuel acc, chunk_loop fuel text cs ov start acc = None.
Proof.
  intros Hlt Hfix. induction fuel as [|fuel IH]; intros acc; [done|].
  simpl. rewrite Hfix.
  destruct (Z.ltb_spec start (len text)); [|lia].
  destruct (Z.geb_spec start (len text)); [lia|].
  apply IH.
Qed.

Lemma chunk_text_total text cs ov :
  99 <= cs - ov ->
  exists chunks, forall fuel,
    (length text < fuel)%nat -> chunk_text_with fuel text cs ov = Some chunks.
Proof.
  intros Hcfg. unfold chunk_text_with.
  destruct (len text <=? cs); [by eexists|].
  destruct (chunk_loop_terminates text cs ov Hcfg (S (length text)) 0 [])
    as [chunks Hrun]; [unfold len; lia|].
  exists chunks. intros fuel Hfuel.
  apply (chunk_loop_fuel_mono (S (length text))); [done|lia].
Qed.

(** The cut moves right with the start. *)
Lemma chunk_end_mono text cs s s' :
  s <= s' -> chunk_end text cs s <= chunk_end text cs s'.
Proof.
  intros Hle. destruct (decide (s = s')) as [->|Hne]; [lia|].
  pose proof (chunk_end_bounds text cs s) as Hb.
  destruct (chunk_end_cases text cs s')
    as [[_ ->]|[(_ & _ & ->)|(Hlt' & i' & Hi' & Hhit' & Hlast' & ->)]]; [lia..|].
  destruct (chunk_end_cases text cs s)
    as [[Hge ->]|[(Hlt & Hno & ->)|(Hlt & i & Hi & Hhit & Hlast & ->)]]; [lia| |].
  - destruct (Z.lt_ge_cases i' (s + cs)) as [Hin|]; [|lia].
    rewrite Hno in Hhit' by lia. done.
  - destruct (Z.le_gt_cases i i') as [|Hgt]; [lia|].
    rewrite Hlast' in Hhit by lia. done.
Qed.

(** Once a cut fails to advance [start], no later cut advances it. *)
Lemma chunk_loop_never text cs ov :
  forall fuel start acc,
    start < len text ->
    chunk_end text cs start - ov <= start ->
    chunk_loop fuel text cs ov start acc = None.
Proof.
  induction fuel as [|fuel IH]; intros start acc Hlt Hback; [done|].
  simpl. destruct (Z.ltb_spec start (len text)); [|lia].
  destruct (Z.geb_spec (chunk_end text cs start - ov) (len text)); [lia|].
  apply IH; [lia|].
  pose proof (chunk_end_mono text cs (chunk_end text cs start - ov) start Hback).
  lia.
Qed.

(** A loop that has not ended after [len text - start + 1] iterations
    never ends. *)
Lemma chunk_loop_hangs text cs ov :
  forall fuel start acc,
    (Z.to_nat (len text - start) < fuel)%nat ->
    chunk_loop fuel text cs ov start acc = None ->
    forall fuel' acc', chunk_loop fuel' text cs ov start acc' = None.
Proof.
  induction fuel as [|fuel IH]; intros start acc Hfuel Hrun; [lia|].
  simpl in Hrun. destruct (Z.ltb_spec start (len text)) as [Hlt|]; [|done].
  destruct (Z.geb_spec (chunk_end text cs start - ov) (len text)) as [|Hin];
    [done|].
  destruct (Z.le_gt_cases (chunk_end text cs start - ov) start) as [Hback|Hadv].
  - intros fuel' acc'. by apply chunk_loop_never.
  - assert (Z.to_nat (len text - (chunk_end text cs start - ov)) < fuel)%nat
      as Hfuel' by lia.
    pose proof (IH _ _ Hfuel' Hrun) as Hnext.
    intros [|fuel'] acc'; [done|]. simpl.
    destruct (Z.ltb_spec start (len text)); [|lia].
    destruct (Z.geb_spec (chunk_end text cs start - ov) (len text)); [lia|].
    apply Hnext.
Qed.

(** [len(text) + 1] iterations decide whether [chunk_text] returns. *)
Lemma chunk_text_hangs text cs ov :
  chunk_text_with (S (length text)) text cs ov = None ->
  forall fuel, chunk_text_with fuel text cs ov = None.
Proof.
  unfold chunk_text_with. destruct (len text <=? cs); [done|].
  intros Hrun fuel. eapply chunk_loop_hangs; [|exact Hrun]. unfold len. lia.
Qed.

(** A cut that reaches one past the tentative end ends in the second
    character of a marker, which is white space. *)
Lemma chunk_len_bound text cs start :
  0 <= cs -> start < len text ->
  len (strip (slice text start (chunk_end text cs start))) <= cs.
Proof.
  intros Hcs Hstart. pose proof (len_nonneg text) as Hn.
  assert (forall e, e = start + cs ->
            len (strip (slice text start e)) <= cs) as Hplain.
  { intros e ->. etrans; [apply len_strip|]. rewrite len_slice.
    unfold slice_bound.
    destruct (Z.ltb_spec (start + cs) 0), (Z.ltb_spec start 0); lia. }
  destruct (chunk_end_cases text cs start)
    as [[_ ->]|[(_ & _ & ->)|(Hlt & i & Hi & Hhit & _ & ->)]]; [by apply Hplain..|].
  assert (0 <= i) as Hi0 by lia.
  apply ending_at_spec in Hhit as (pre & m & post & Hm & Htext & Hpre); [|done].
  destruct (ending_last_space m Hm) as (c1 & c2 & -> & Hsp).
  assert (i + 2 <= len text) as Hi2.
  { rewrite Htext, !len_app. pose proof (len_nonneg post).
    change (len [c1; c2]) with 2. lia. }
  destruct (decide (start < 0 \/ i + 2 - start <= cs)) as [Heasy|Hhard].
  - etrans; [apply len_strip|]. rewrite len_slice. unfold slice_bound.
    destruct (Z.ltb_spec (i + 2) 0), (Z.ltb_spec start 0); lia.
  - assert (0 <= start /\ i + 2 - start = cs + 1) as [Hs0 Heq] by lia.
    rewrite slice_at_nonneg by lia.
    assert (text = (pre ++ [c1]) ++ [c2] ++ post) as Htext'.
    { rewrite Htext. by rewrite <- !app_assoc. }
    set (A := drop (Z.to_nat start) (pre ++ [c1])).
    assert (length (pre ++ [c1]) = Z.to_nat (i + 1)) as Hlen1.
    { rewrite length_app. simpl. unfold len in Hpre. lia. }
    assert (length A = Z.to_nat (i + 1 - start)) as HlenA.
    { unfold A. rewrite length_drop, Hlen1. lia. }
    assert (take (Z.to_nat (i + 2 - start)) (drop (Z.to_nat start) text) = A ++ [c2])
      as ->.
    { rewrite Htext' at 1. rewrite drop_app_le by lia. fold A.
      replace (Z.to_nat (i + 2 - start)) with (length A + 1)%nat by lia.
      by rewrite take_app_add. }
    etrans; [by apply len_strip_snoc_space|]. unfold len. lia.
Qed.

Lemma truthy_nonempty (s : str) : truthy s = true -> s <> [].
Proof. by destruct s. Qed.

Lemma chunk_loop_shape fuel text cs ov start acc chunks :
  0 <= cs ->
  well_shaped cs acc ->
  chunk_loop fuel text cs ov start acc = Some chunks ->
  well_shaped cs chunks.
Proof.
  intros Hcs. revert start acc.
  induction fuel as [|fuel IH]; intros start acc Hacc; simpl; [done|].
  destruct (Z.ltb_spec start (len text)) as [Hlt|]; [|by intros [= <-]].
  set (chunk := strip (slice text start (chunk_end text cs start))).
  assert (well_shaped cs (if truthy chunk then acc ++ [chunk] else acc)) as Hacc'.
  { destruct (truthy chunk) eqn:Ht; [|done].
    apply Forall_app. split; [done|]. apply Forall_singleton.
    split; [by apply truthy_nonempty|by apply chunk_len_bound]. }
  destruct (chunk_end text cs start - ov >=? len text); [by intros [= <-]|].
  by apply IH.
Qed.

End ChunkLoop.

(** *** Properties of the chunker *)

Section ChunkerProperties.
Import Chunker.

(** C2 (boundary selection).  When the text is longer than the chunk
    size, the chunks returned are the stripped, non-empty cuts
    [text[start:end]] of the iterations, and in each iteration, with
    [tentative = start + chunk_size]: if [tentative] is not below the
    length of the text, [end] is [tentative]; otherwise, if no marker
    starts in the 100 positions before [tentative] then [end] is
    [tentative], and if one does then [end] is two past the start of the
    greatest such position. *)
Theorem chunk_end_selection fuel text cs ov chunks :
  cs < len text ->
  chunk_text_with fuel text cs ov = Some chunks ->
  chunks = omap (cut text) (spans fuel text cs ov 0) /\
  forall s e, (s, e) ∈ spans fuel text cs ov 0 ->
    let tentative := s + cs in
    let window i := Z.max 0 (tentative - 100) <= i < tentative in
    (len text <= tentative -> e = tentative) /\
    (tentative < len text ->
      ((forall i, window i -> ~ marker_at text i) -> e = tentative) /\
      ((exists i, window i /\ marker_at text i) ->
        exists i, window i /\ marker_at text i /\
          (forall j, window j -> marker_at text j -> j <= i) /\ e = i + 2)).
Proof.
  intros Hlong Hrun. unfold chunk_text_with in Hrun.
  destruct (Z.leb_spec (len text) cs); [lia|].
  split; [by apply chunk_loop_spans in Hrun|].
  intros s e Hin tentative window. apply spans_end in Hin as ->.
  subst tentative window. cbv beta.
  destruct (chunk_end_cases text cs s)
    as [[Hge ->]|[(Hlt & Hno & ->)|(Hlt & i & Hi & Hhit & Hlast & ->)]].
  - split; [done|lia].
  - split; [done|]. intros _. split; [done|].
    intros (i & Hi & Hm). apply ending_at_spec in Hm; [|lia].
    rewrite Hno in Hm by apply Hi. done.
  - split; [lia|]. intros _. split.
    + intros Hnone. exfalso. apply (Hnone i); [done|].
      apply ending_at_spec; [lia|done].
    + intros _. exists i. split; [done|]. split; [apply ending_at_spec; [lia|done]|].
      split; [|done]. intros j Hj Hm.
      destruct (Z.le_gt_cases j i) as [|Hgt]; [done|].
      apply ending_at_spec in Hm; [|lia].
      rewrite Hlast in Hm; [done|]. lia.
Qed.

Lemma chunk_end_selection_witness :
  [rep 50 "a"%char ++ lit "."; rep 3 "a"%char ++ lit ". " ++ rep 98 "b"%char]
    = omap (cut two_sentences) (spans 3 two_sentences 110 5 0)
  /\ (0, 52) ∈ spans 3 two_sentences 110 5 0
  /\ marker_at two_sentences 50.
Proof.
  destruct (chunk_end_selection 3 two_sentences 110 5
              [rep 50 "a"%char ++ lit "."; rep 3 "a"%char ++ lit ". " ++ rep 98 "b"%char])
    as [Hchunks Hspans]; [by vm_compute|by vm_compute|].
  split; [exact Hchunks|]. split; [vm_compute; apply list_elem_of_here|].
  exists (rep 50 "a"%char), (lit ". "), (rep 98 "b"%char).
  split; [apply list_elem_of_here|]. split; reflexivity.
Defined.

(** C3, as the code has it.  When the chunk size exceeds the overlap by
    at least 99 (the cut never falls more than 98 before the tentative
    end), every cut advances [start] and [chunk_text] returns for every
    text, within [len(text) + 1] iterations. *)
Theorem chunk_text_terminates text cs ov :
  99 <= cs - ov ->
  exists chunks, forall fuel,
    (length text < fuel)%nat -> chunk_text_with fuel text cs ov = Some chunks.
Proof. apply chunk_text_total. Qed.

Lemma chunk_text_terminates_witness :
  exists chunks, forall fuel,
    (length two_sentences < fuel)%nat ->
    chunk_text_with fuel two_sentences 110 5 = Some chunks.
Proof. apply (chunk_text_terminates two_sentences 110 5). lia. Defined.

(** C3, as stated, fails: no configuration is rejected and the loop need
    not advance.  With chunk size 100 and overlap 2 a marker at the very
    start of the window sends [start] back to 0; with chunk size 2 and
    overlap 2 every iteration starts at 0.  No number of iterations
    suffices. *)
Lemma chunk_text_loops_forever :
  (forall fuel, chunk_text_with fuel dot_then_letters 100 2 = None)
  /\ (forall fuel, chunk_text_with fuel (lit "abcd") 2 2 = None).
Proof.
  split; intros fuel.
  - change (chunk_loop fuel dot_then_letters 100 2 0 [] = None).
    by apply chunk_loop_stuck.
  - change (chunk_loop fuel (lit "abcd") 2 2 0 [] = None).
    by apply chunk_loop_stuck.
Qed.

(** C4, as the code has it.  For a non-negative chunk size every string
    returned has length at most the chunk size; it is non-empty unless
    the input text is empty, in which case the text itself is returned as
    the only chunk.  A result exists whenever the chunk size exceeds the
    overlap by at least 99. *)
Theorem chunk_text_shape text cs ov :
  0 <= cs ->
  (forall fuel chunks, chunk_text_with fuel text cs ov = Some chunks ->
     Forall (fun c => len c <= cs) chunks
     /\ (text <> [] -> well_shaped cs chunks)
     /\ (text = [] -> chunks = [[]]))
  /\ (99 <= cs - ov ->
      exists chunks, chunk_text_with (S (length text)) text cs ov = Some chunks).
Proof.
  intros Hcs. split.
  - intros fuel chunks. unfold chunk_text_with.
    destruct (Z.leb_spec (len text) cs) as [Hle|Hgt].
    + intros [= <-]. split; [by apply Forall_singleton|].
      split; [|by intros ->]. intros Hne. by apply Forall_singleton.
    + intros Hrun.
      assert (well_shaped cs chunks) as Hshape.
      { eapply chunk_loop_shape; [done| |done]. apply Forall_nil_2. }
      split; [|split; [done|]].
      * eapply Forall_impl; [exact Hshape|]. by intros c [_ ?].
      * intros ->. change (len []) with 0 in Hgt. lia.
  - intros Hcfg. destruct (chunk_text_total text cs ov Hcfg) as [chunks H].
    exists chunks. apply H. lia.
Qed.

Lemma chunk_text_shape_witness :
  well_shaped 110 [rep 50 "a"%char ++ lit "."; rep 3 "a"%char ++ lit ". " ++ rep 98 "b"%char].
Proof.
  destruct (chunk_text_shape two_sentences 110 5) as [Hshape _]; [lia|].
  destruct (Hshape 3%nat
    [rep 50 "a"%char ++ lit "."; rep 3 "a"%char ++ lit ". " ++ rep 98 "b"%char])
    as (_ & Hwf & _); [by vm_compute|].
  apply Hwf. discriminate.
Defined.

(** C4, as stated, fails: an empty text is returned as the single chunk
    [""] by the early return, and a negative chunk size lets a cut be
    longer than the chunk size. *)
Lemma chunk_text_empty_chunk :
  (exists chunks, chunk_text default_config 0 [] None None = Some chunks
                  /\ ~ well_shaped (CHUNK_SIZE default_config) chunks)
  /\ (exists chunks, chunk_text_with 1 (lit "abc") (-1) (-5) = Some chunks
                     /\ ~ well_shaped (-1) chunks).
Proof.
  split.
  - exists [[]]. split; [reflexivity|].
    intros H. apply Forall_singleton in H as [H _]. by apply H.
  - exists [lit "ab"]. split; [reflexivity|].
    intros H. apply Forall_singleton in H as [_ H]. vm_compute in H. by apply H.
Qed.

End ChunkerProperties.

(** *** The segment mapper *)

Section SegmentMapper.

Lemma starts_with_spec s p :
  starts_with s p = true <-> exists post, s = p ++ post.
Proof.
  revert s. induction p as [|a p IH]; intros s; simpl.
  - split; [intros _; by exists s|done].
  - destruct s as [|c s].
    + split; [done|]. by intros [post ?].
    + rewrite andb_true_iff, bool_decide_eq_true, IH. split.
      * intros [-> [post ->]]. by exists post.
      * intros [post [= -> ->]]. split; [done|by exists post].
Qed.

(** The search of [in] finds exactly the literal substrings. *)
Lemma contains_spec hay needle :
  contains hay needle = true <-> substring needle hay.
Proof.
  induction hay as [|c hay IH]; simpl.
  - rewrite orb_false_r, starts_with_spec. split.
    + intros [post ->]. by exists [], post.
    + intros (pre & post & H). symmetry in H.
      apply app_eq_nil in H as [-> H]. apply app_eq_nil in H as [-> ->].
      by exists [].
  - rewrite orb_true_iff, starts_with_spec, IH. split.
    + intros [[post ->]|(pre & post & ->)].
      * by exists [], post.
      * by exists (c :: pre), post.
    + intros (pre & post & H). destruct pre as [|d pre].
      * left. by exists post.
      * right. injection H as -> ->. by exists pre, post.
Qed.

Lemma filter_loop {A} (keep : A -> bool) (xs acc : list A) :
  fold_left (fun kept x => if keep x then kept ++ [x] else kept) xs acc
  = acc ++ List.filter keep xs.
Proof.
  revert acc. induction xs as [|x xs IH]; intros acc; simpl.
  - by rewrite app_nil_r.
  - rewrite IH. destruct (keep x); [|done]. by rewrite <- app_assoc.
Qed.

Lemma find_segments_filter chunk segments :
  find_segments_for_chunk chunk segments
  = List.filter (fun seg => contains (lower chunk) (lower (seg_text seg)))
      segments.
Proof. unfold find_segments_for_chunk. by rewrite filter_loop. Qed.

Lemma filter_sublist {A} (keep : A -> bool) (xs : list A) :
  sublist (List.filter keep xs) xs.
Proof.
  induction xs as [|x xs IH]; simpl; [constructor|].
  destruct (keep x); by constructor.
Qed.

Lemma elem_of_filter_bool {A} (keep : A -> bool) (xs : list A) x :
  x ∈ List.filter keep xs <-> x ∈ xs /\ keep x = true.
Proof. rewrite !list_elem_of_In. apply filter_In. Qed.

(** C5 (segment mapper).  The output is the input list filtered, in
    order, by the test that the lowercased text of the segment is a
    literal substring of the lowercased chunk: it is a sublist of the
    input, and a segment is in it if and only if it is in the input and
    passes the test. *)
Theorem find_segments_for_chunk_spec chunk segments :
  (exists keep : Segment -> bool,
      (forall seg, keep seg = true
                   <-> substring (lower (seg_text seg)) (lower chunk))
      /\ find_segments_for_chunk chunk segments = List.filter keep segments)
  /\ sublist (find_segments_for_chunk chunk segments) segments
  /\ (forall seg, seg ∈ find_segments_for_chunk chunk segments
                  <-> seg ∈ segments
                      /\ substring (lower (seg_text seg)) (lower chunk)).
Proof.
  rewrite find_segments_filter. split; [|split].
  - eexists. split; [|reflexivity]. intros seg. apply contains_spec.
  - apply filter_sublist.
  - intros seg. rewrite elem_of_filter_bool. by rewrite contains_spec.
Qed.

End SegmentMapper.

(** *** Timestamps of a chunk *)

Section Timestamps.

Lemma Qltb_true a b : Qltb a b = true -> (a < b)%Q.
Proof.
  unfold Qltb. rewrite negb_true_iff. intros H.
  apply Qnot_le_lt. intros Hle. apply Qle_bool_iff in Hle. congruence.
Qed.

Lemma Qltb_false a b : Qltb a b = false -> (b <= a)%Q.
Proof. unfold Qltb. rewrite negb_false_iff. apply Qle_bool_iff. Qed.

Lemma py_min_spec x rest :
  py_min x rest ∈ x :: rest
  /\ forall y, y ∈ x :: rest -> (py_min x rest <= y)%Q.
Proof.
  unfold py_min. revert x. induction rest as [|z rest IH]; intros x; simpl.
  - split; [apply list_elem_of_here|].
    intros y Hy. apply list_elem_of_singleton in Hy as ->. apply Qle_refl.
  - set (m := if Qltb z x then z else x).
    destruct (IH m) as [Hin Hle].
    assert ((m <= x)%Q /\ (m <= z)%Q /\ (m = x \/ m = z)) as (Hmx & Hmz & Hm).
    { subst m. destruct (Qltb z x) eqn:Hlt.
      - apply Qltb_true in Hlt. split; [by apply Qlt_le_weak|].
        split; [apply Qle_refl|by right].
      - apply Qltb_false in Hlt. split; [apply Qle_refl|]. split; [done|by left]. }
    split.
    + apply elem_of_cons in Hin as [Heq|Hin].
      * rewrite Heq. destruct Hm as [->| ->]; [apply list_elem_of_here|].
        apply list_elem_of_further, list_elem_of_here.
      * by do 2 apply list_elem_of_further.
    + intros y Hy.
      assert (fold_left (fun m0 y0 => if Qltb y0 m0 then y0 else m0) rest m <= m)%Q
        as Hfm by (apply Hle, list_elem_of_here).
      apply elem_of_cons in Hy as [->|Hy]; [by eapply Qle_trans|].
      apply elem_of_cons in Hy as [->|Hy]; [by eapply Qle_trans|].
      by apply Hle, list_elem_of_further.
Qed.

Lemma py_max_spec x rest :
  py_max x rest ∈ x :: rest
  /\ forall y, y ∈ x :: rest -> (y <= py_max x rest)%Q.
Proof.
  unfold py_max. revert x. induction rest as [|z rest IH]; intros x; simpl.
  - split; [apply list_elem_of_here|].
    intros y Hy. apply list_elem_of_singleton in Hy as ->. apply Qle_refl.
  - set (m := if Qltb x z then z else x).
    destruct (IH m) as [Hin Hle].
    assert ((x <= m)%Q /\ (z <= m)%Q /\ (m = x \/ m = z)) as (Hmx & Hmz & Hm).
    { subst m. destruct (Qltb x z) eqn:Hlt.
      - apply Qltb_true in Hlt. split; [by apply Qlt_le_weak|].
        split; [apply Qle_refl|by right].
      - apply Qltb_false in Hlt. split; [apply Qle_refl|]. split; [done|by left]. }
    split.
    + apply elem_of_cons in Hin as [Heq|Hin].
      * rewrite Heq. destruct Hm as [->| ->]; [apply list_elem_of_here|].
        apply list_elem_of_further, list_elem_of_here.
      * by do 2 apply list_elem_of_further.
    + intros y Hy.
      assert (m <= fold_left (fun m0 y0 => if Qltb m0 y0 then y0 else m0) rest m)%Q
        as Hfm by (apply Hle, list_elem_of_here).
      apply elem_of_cons in Hy as [->|Hy]; [by eapply Qle_trans|].
      apply elem_of_cons in Hy as [->|Hy]; [by eapply Qle_trans|].
      by apply Hle, list_elem_of_further.
Qed.

End Timestamps.

(** *** Indexing a video *)

Section Indexing.

Lemma enumerate_snd {A} (xs : list A) : map snd (enumerate xs) = xs.
Proof. unfold enumerate. apply snd_zip. by rewrite length_seq. Qed.

Lemma enumerate_length {A} (xs : list A) : length (enumerate xs) = length xs.
Proof. unfold enumerate. rewrite length_zip, length_seq. lia. Qed.

Lemma enumerate_lookup {A} (xs : list A) i x :
  xs !! i = Some x -> enumerate xs !! i = Some (i, x).
Proof.
  intros H. unfold enumerate. apply lookup_zip_with_Some.
  exists i, x. split; [done|]. split; [|done].
  apply lookup_seq. split; [done|]. by apply lookup_lt_Some in H.
Qed.

Lemma prepare_loop video_id metadata segments ics documents metadatas ids :
  fold_left
    (fun '(documents, metadatas, ids) '(i, chunk) =>
       let doc_id := make_id video_id i in
       let chunk_segments := find_segments_for_chunk chunk segments in
       let entry := metadata_entry video_id metadata i chunk chunk_segments in
       (documents ++ [chunk], metadatas ++ [entry], ids ++ [doc_id]))
    ics (documents, metadatas, ids)
  = (documents ++ map snd ics,
     metadatas ++ map (fun ic => metadata_entry video_id metadata ic.1 ic.2
                                   (find_segments_for_chunk ic.2 segments)) ics,
     ids ++ map (fun ic => make_id video_id ic.1) ics).
Proof.
  revert documents metadatas ids.
  induction ics as [|[i chunk] ics IH]; intros documents metadatas ids; simpl.
  - by rewrite !app_nil_r.
  - rewrite IH. by rewrite <- !app_assoc.
Qed.

Lemma prepare_spec video_id metadata segments chunks :
  prepare video_id metadata segments chunks
  = (chunks,
     map (fun ic => metadata_entry video_id metadata ic.1 ic.2
                      (find_segments_for_chunk ic.2 segments))
       (enumerate chunks),
     map (fun ic => make_id video_id ic.1) (enumerate chunks)).
Proof. unfold prepare. rewrite prepare_loop. simpl. by rewrite enumerate_snd. Qed.

Lemma zip_entries_map {A} (f1 : A -> str) (f2 : A -> dict) (f3 : A -> str)
    (xs : list A) (embeddings : list Embedding) :
  Store.zip_entries (map f1 xs) (map f2 xs) embeddings (map f3 xs)
  = zip_with (fun x v => {| id := f3 x; document := f1 x; metadata := f2 x;
                            embedding := v |}) xs embeddings.
Proof.
  revert embeddings. induction xs as [|x xs IH]; intros [|v embeddings]; simpl;
    try done.
  by rewrite IH.
Qed.

(** The records built are the records of the chunks, in order. *)
Lemma built_entries_spec video_id metadata segments chunks embeddings :
  built_entries video_id metadata segments chunks embeddings
  = zip_with (entry_of video_id metadata segments) (enumerate chunks) embeddings.
Proof.
  unfold built_entries. rewrite prepare_spec.
  rewrite <- (enumerate_snd chunks) at 1. by rewrite zip_entries_map.
Qed.

Lemma remove_video_run video_id c :
  remove_video video_id c
  = (Returns (Z.of_nat (length (List.filter (Store.has_video_id video_id) c))),
     without_video video_id c).
Proof.
  unfold remove_video, remove_video_on, without_video, bind, try_except, ret,
    Store.get_ids_where_video_id, Store.delete.
  destruct (List.filter (Store.has_video_id video_id) c) as [|e es] eqn:Hf; simpl.
  - f_equal. clear Hf. induction c as [|x c IH]; simpl; [done|].
    by f_equal.
  - by rewrite length_map.
Qed.

(** No record of the video survives [remove_video]. *)
Lemma without_video_none video_id c :
  List.filter (Store.has_video_id video_id) (without_video video_id c) = [].
Proof.
  unfold without_video.
  set (ids := map id (List.filter (Store.has_video_id video_id) c)).
  assert (forall e, e ∈ c -> Store.has_video_id video_id e = true -> id e ∈ ids)
    as Hids.
  { intros e He Hv. apply list_elem_of_fmap. exists e. split; [done|].
    by apply elem_of_filter_bool. }
  clearbody ids. induction c as [|x c IH]; simpl; [done|].
  destruct (bool_decide (id x ∈ ids)) eqn:Hx; simpl.
  - apply IH. intros e He. apply Hids. by apply list_elem_of_further.
  - destruct (Store.has_video_id video_id x) eqn:Hv.
    + apply bool_decide_eq_false in Hx. exfalso. apply Hx, Hids; [|done].
      apply list_elem_of_here.
    + apply IH. intros e He. apply Hids. by apply list_elem_of_further.
Qed.

(** What a call of [add_transcript] that returns has done. *)
Lemma add_transcript_returns self td c n c' :
  add_transcript self td c = (Returns n, c') ->
  exists chunks embeddings,
    Chunker.chunk_text (config self) (S (length (td_transcript td)))
      (td_transcript td) None None = Some chunks
    /\ encode self chunks = Returns embeddings
    /\ length embeddings = length chunks
    /\ chunks <> []
    /\ n = Z.of_nat (length chunks)
    /\ c' = without_video (td_video_id td) c
            ++ List.filter
                 (fun e => negb (bool_decide
                    (id e ∈ map id (without_video (td_video_id td) c))))
                 (built_entries (td_video_id td) (td_metadata td)
                    (default [] (td_segments td)) chunks embeddings).
Proof.
  unfold add_transcript, bind. rewrite remove_video_run.
  destruct (Chunker.chunk_text _ _ _ _ _) as [chunks|] eqn:Hchunks; [|done].
  unfold built_entries.
  destruct (prepare _ _ _ chunks) as [[documents metadatas] ids] eqn:Hprep.
  pose proof Hprep as Hprep'. rewrite prepare_spec in Hprep'.
  injection Hprep' as <- Hm Hi.
  unfold lift. destruct (encode self chunks) as [embeddings| |] eqn:Henc; try done.
  unfold Store.add, ret.
  destruct (bool_decide (ids = [])) eqn:Hnil; [done|].
  destruct (bool_decide (_ /\ _)) eqn:Hlen; [|done]. simpl.
  destruct (bool_decide (NoDup ids)); [|done]. simpl.
  intros [= <- <-]. exists chunks, embeddings.
  apply bool_decide_eq_true in Hlen as (Hl1 & Hl2 & Hl3).
  apply bool_decide_eq_false in Hnil.
  assert (length ids = length chunks) as Hids.
  { by rewrite <- Hi, length_map, enumerate_length. }
  split; [done|]. split; [done|]. split; [lia|].
  split; [|split]. 
  - intros ->. apply Hnil. by rewrite <- Hi.
  - done.
  - by rewrite Hprep.
Qed.

End Indexing.

Section MetadataFacts.

Lemma metadata_entry_video_id v md i chunk segs :
  metadata_entry v md i chunk segs !! "video_id" = Some (VStr v).
Proof.
  unfold metadata_entry. destruct segs as [|seg rest]; simpl.
  - by rewrite lookup_insert_eq.
  - rewrite !lookup_insert_ne by done. by rewrite lookup_insert_eq.
Qed.

Lemma metadata_entry_chunk_index v md i chunk segs :
  metadata_entry v md i chunk segs !! "chunk_index"
  = Some (VInt (Z.of_nat i)).
Proof.
  unfold metadata_entry. destruct segs as [|seg rest]; simpl.
  - rewrite !lookup_insert_ne by done. by rewrite lookup_insert_eq.
  - rewrite !lookup_insert_ne by done. by rewrite lookup_insert_eq.
Qed.

Lemma metadata_entry_no_segments v md i chunk :
  metadata_entry v md i chunk [] !! "start_time" = None
  /\ metadata_entry v md i chunk [] !! "end_time" = None.
Proof.
  unfold metadata_entry. simpl.
  split; rewrite !lookup_insert_ne by done; apply lookup_empty.
Qed.

Lemma metadata_entry_segments v md i chunk seg rest :
  metadata_entry v md i chunk (seg :: rest) !! "start_time"
  = Some (VNum (py_min (seg_start seg) (map seg_start rest)))
  /\ metadata_entry v md i chunk (seg :: rest) !! "end_time"
     = Some (VNum (py_max (seg_end seg) (map seg_end rest))).
Proof.
  unfold metadata_entry. simpl. split.
  - rewrite lookup_insert_ne by done. by rewrite lookup_insert_eq.
  - by rewrite lookup_insert_eq.
Qed.

End MetadataFacts.

Section ProducedEntries.

Lemma enumerate_lookup_inv {A} (xs : list A) i j x :
  enumerate xs !! i = Some (j, x) -> j = i /\ xs !! i = Some x.
Proof.
  unfold enumerate. intros H.
  apply lookup_zip_with_Some in H as (k & y & [= -> ->] & Hk & Hy).
  apply lookup_seq in Hk as [-> _]. done.
Qed.

Lemma built_entry_inv v md segs chunks embs e :
  e ∈ built_entries v md segs chunks embs ->
  exists i chunk emb,
    chunks !! i = Some chunk /\ embs !! i = Some emb
    /\ e = entry_of v md segs (i, chunk) emb.
Proof.
  rewrite built_entries_spec. intros H.
  apply elem_of_lookup_zip_with_1 in H as (i & [j chunk] & emb & -> & Hic & Hemb).
  apply enumerate_lookup_inv in Hic as [-> Hchunk].
  by exists i, chunk, emb.
Qed.

(** After a call that returns, a record of the video is one that the
    call built. *)
Lemma video_entry_is_built v c built (keep : Entry -> bool) e :
  e ∈ without_video v c ++ List.filter keep built ->
  Store.has_video_id v e = true ->
  e ∈ built.
Proof.
  intros He Hv. apply elem_of_app in He as [He|He].
  - exfalso. assert (e ∈ List.filter (Store.has_video_id v) (without_video v c)) as H.
    { by apply elem_of_filter_bool. }
    rewrite without_video_none in H. by apply elem_of_nil in H.
  - by apply elem_of_filter_bool in He as [He _].
Qed.

Lemma metadata_entry_times v md i chunk matched :
  let m := metadata_entry v md i chunk matched in
  (is_Some (m !! "start_time") <-> matched <> [])
  /\ (is_Some (m !! "end_time") <-> matched <> [])
  /\ (matched <> [] ->
      exists a b,
        m !! "start_time" = Some (VNum a) /\ m !! "end_time" = Some (VNum b)
        /\ (exists seg, seg ∈ matched /\ a = seg_start seg)
        /\ (forall seg, seg ∈ matched -> (a <= seg_start seg)%Q)
        /\ (exists seg, seg ∈ matched /\ b = seg_end seg)
        /\ (forall seg, seg ∈ matched -> (seg_end seg <= b)%Q)).
Proof.
  intros m. subst m. destruct matched as [|seg rest].
  - destruct (metadata_entry_no_segments v md i chunk) as [-> ->].
    split; [|split]; try done; split; try done; by intros [? ?].
  - destruct (metadata_entry_segments v md i chunk seg rest) as [-> ->].
    split; [done|]. split; [done|]. intros _.
    destruct (py_min_spec (seg_start seg) (map seg_start rest)) as [Hin Hle].
    destruct (py_max_spec (seg_end seg) (map seg_end rest)) as [Hin' Hle'].
    eexists _, _. split; [done|]. split; [done|].
    change (seg_start seg :: map seg_start rest)
      with (seg_start <$> (seg :: rest)) in *.
    change (seg_end seg :: map seg_end rest)
      with (seg_end <$> (seg :: rest)) in *.
    split; [|split; [|split]].
    + apply list_elem_of_fmap in Hin as (s & Hs & Hin). by exists s.
    + intros s Hs. apply Hle. by apply list_elem_of_fmap_2.
    + apply list_elem_of_fmap in Hin' as (s & Hs & Hin'). by exists s.
    + intros s Hs. apply Hle'. by apply list_elem_of_fmap_2.
Qed.

(** C6 (timestamp metadata).  After a call of [add_transcript] that
    returns, take any record of the video and let [matched] be the
    segments whose lowercased text is a literal substring of the
    lowercased document, in input order.  The keys [start_time] and
    [end_time] are present exactly when [matched] is not empty, and then
    [start_time] is the least [start] and [end_time] the greatest
    [start + duration] over [matched]. *)
Theorem add_transcript_timestamps self td c n c' :
  add_transcript self td c = (Returns n, c') ->
  forall e, e ∈ c' -> Store.has_video_id (td_video_id td) e = true ->
    exists matched,
      matched = find_segments_for_chunk (document e) (default [] (td_segments td))
      /\ sublist matched (default [] (td_segments td))
      /\ (forall seg, seg ∈ matched
            <-> seg ∈ default [] (td_segments td)
                /\ substring (lower (seg_text seg)) (lower (document e)))
      /\ (is_Some (metadata e !! "start_time") <-> matched <> [])
      /\ (is_Some (metadata e !! "end_time") <-> matched <> [])
      /\ (matched <> [] ->
          exists a b,
            metadata e !! "start_time" = Some (VNum a)
            /\ metadata e !! "end_time" = Some (VNum b)
            /\ (exists seg, seg ∈ matched /\ a = seg_start seg)
            /\ (forall seg, seg ∈ matched -> (a <= seg_start seg)%Q)
            /\ (exists seg, seg ∈ matched
                  /\ b = (seg_start seg + seg_duration seg)%Q)
            /\ (forall seg, seg ∈ matched
                  -> (seg_start seg + seg_duration seg <= b)%Q)).
Proof.
  intros Hrun e He Hv.
  apply add_transcript_returns in Hrun
    as (chunks & embs & _ & _ & _ & _ & _ & ->).
  apply video_entry_is_built in He; [|done].
  apply built_entry_inv in He as (i & chunk & emb & _ & _ & ->). simpl.
  exists (find_segments_for_chunk chunk (default [] (td_segments td))).
  split; [done|].
  split; [rewrite find_segments_filter; apply filter_sublist|].
  split.
  { intros seg. rewrite find_segments_filter, elem_of_filter_bool.
    by rewrite contains_spec. }
  apply metadata_entry_times.
Qed.

Lemma add_transcript_timestamps_witness :
  is_Some (metadata greeting_entry !! "start_time")
  /\ is_Some (metadata greeting_entry !! "end_time").
Proof.
  destruct (add_transcript_timestamps length_store greeting [] 1 greeting_index)
    with (e := greeting_entry)
    as (matched & -> & _ & _ & Hstart & Hend & _).
  - by vm_compute.
  - vm_compute. apply list_elem_of_here.
  - by vm_compute.
  - split; [apply Hstart|apply Hend]; by vm_compute.
Defined.

End ProducedEntries.

(** *** Record ids *)

Section Ids.

Lemma lit_inj s t : lit s = lit t -> s = t.
Proof.
  unfold lit. intros H.
  rewrite <- (string_of_list_ascii_of_string s), <- (string_of_list_ascii_of_string t).
  by rewrite H.
Qed.

Lemma pretty_N_go_no_underscore x s :
  "_"%char ∉ lit s -> "_"%char ∉ lit (pretty_N_go x s).
Proof.
  revert s. induction (N.lt_wf_0 x) as [x _ IH]; intros s Hs.
  assert (x = 0 \/ 0 < x)%N as [->|Hpos] by lia.
  - by rewrite pretty_N_go_0.
  - rewrite pretty_N_go_step by done. apply IH.
    { by apply N.div_lt. }
    unfold lit. simpl. apply not_elem_of_cons. split; [|done].
    unfold pretty_N_char. by repeat case_match.
Qed.

Lemma pretty_no_underscore (i : nat) : "_"%char ∉ lit (pretty i).
Proof.
  unfold pretty, pretty_nat, pretty, pretty_N.
  case_decide.
  - unfold lit. simpl. rewrite not_elem_of_cons. split; [done|apply not_elem_of_nil].
  - apply pretty_N_go_no_underscore. apply not_elem_of_nil.
Qed.

Lemma app_sep_inj (sep : ascii) (a a' d d' : str) :
  sep ∉ d -> sep ∉ d' ->
  a ++ sep :: d = a' ++ sep :: d' -> a = a' /\ d = d'.
Proof.
  intros Hd Hd'. revert a'. induction a as [|x a IH]; intros [|y a']; simpl.
  - by intros [= ->].
  - intros [= <- ->]. exfalso. apply Hd. apply elem_of_app. right.
    apply list_elem_of_here.
  - intros [= -> <-]. exfalso. apply Hd'. apply elem_of_app. right.
    apply list_elem_of_here.
  - intros [= -> H]. apply IH in H as [-> ->]. done.
Qed.

(** The id determines the video and the chunk index. *)
Lemma make_id_inj v v' i i' :
  make_id v i = make_id v' i' -> v = v' /\ i = i'.
Proof.
  unfold make_id. change (lit "_") with ["_"%char]. simpl. intros H.
  apply app_sep_inj in H as [-> H]; try apply pretty_no_underscore.
  split; [done|]. apply lit_inj in H. by apply (inj pretty) in H.
Qed.

End Ids.

(** *** Replacing the records of a video *)

Section Replace.

Lemma has_video_id_true v e :
  Store.has_video_id v e = true <-> metadata e !! "video_id" = Some (VStr v).
Proof.
  unfold Store.has_video_id.
  destruct (metadata e !! "video_id") as [[s|z|q]|]; try (split; done).
  rewrite bool_decide_eq_true. split; [by intros ->|by intros [= ->]].
Qed.

Lemma wf_elem c e :
  wf_collection c -> e ∈ c ->
  exists v i, metadata e !! "video_id" = Some (VStr v) /\ id e = make_id v i.
Proof. intros Hwf He. eapply Forall_forall in Hwf; done. Qed.

(** In a well-formed collection [remove_video] removes the records of
    the video and no other. *)
Lemma without_video_wf v c :
  wf_collection c ->
  without_video v c
  = List.filter (fun e => negb (Store.has_video_id v e)) c.
Proof.
  intros Hwf. unfold without_video. apply filter_ext_in. intros e He.
  apply list_elem_of_In in He. f_equal.
  destruct (Store.has_video_id v e) eqn:Hv.
  - apply bool_decide_eq_true. apply list_elem_of_fmap. exists e.
    split; [done|]. by apply elem_of_filter_bool.
  - apply bool_decide_eq_false. intros Hin.
    apply list_elem_of_fmap in Hin as (e' & Hid & He').
    apply elem_of_filter_bool in He' as [He' Hv'].
    apply has_video_id_true in Hv'.
    destruct (wf_elem c e Hwf He) as (v1 & i1 & Hm1 & Hid1).
    destruct (wf_elem c e' Hwf He') as (v2 & i2 & Hm2 & Hid2).
    rewrite Hm2 in Hv'. injection Hv' as ->.
    rewrite Hid1, Hid2 in Hid. apply make_id_inj in Hid as [-> _].
    apply has_video_id_true in Hm1. congruence.
Qed.

Lemma wf_filter (keep : Entry -> bool) c :
  wf_collection c -> wf_collection (List.filter keep c).
Proof.
  intros Hwf. apply Forall_forall. intros e He.
  apply elem_of_filter_bool in He as [He _]. by apply (wf_elem c).
Qed.

Lemma built_entries_wf v md segs chunks embs :
  wf_collection (built_entries v md segs chunks embs).
Proof.
  apply Forall_forall. intros e He.
  apply built_entry_inv in He as (i & chunk & emb & _ & _ & ->).
  exists v, i. simpl. split; [apply metadata_entry_video_id|done].
Qed.

Lemma built_entries_has_video v md segs chunks embs :
  List.filter (Store.has_video_id v) (built_entries v md segs chunks embs)
  = built_entries v md segs chunks embs.
Proof.
  apply forallb_filter_id, forallb_forall. intros e He. apply list_elem_of_In in He.
  apply built_entry_inv in He as (i & chunk & emb & _ & _ & ->).
  apply has_video_id_true. simpl. apply metadata_entry_video_id.
Qed.

(** The ids of the new records are not stored once the old records of
    the video are gone. *)
Lemma built_entries_fresh v md segs chunks embs c :
  wf_collection c ->
  List.filter
    (fun e => negb (bool_decide (id e ∈ map id (without_video v c))))
    (built_entries v md segs chunks embs)
  = built_entries v md segs chunks embs.
Proof.
  intros Hwf. apply forallb_filter_id, forallb_forall. intros e He.
  apply list_elem_of_In in He.
  apply built_entry_inv in He as (i & chunk & emb & _ & _ & ->). simpl.
  apply negb_true_iff, bool_decide_eq_false. intros Hin.
  apply list_elem_of_fmap in Hin as (e' & Hid & He').
  assert (Store.has_video_id v e' = false) as Hv'.
  { destruct (Store.has_video_id v e') eqn:Hv; [|done]. exfalso.
    assert (e' ∈ List.filter (Store.has_video_id v) (without_video v c)) as H
      by by apply elem_of_filter_bool.
    rewrite without_video_none in H. by apply elem_of_nil in H. }
  unfold without_video in He'. apply elem_of_filter_bool in He' as [He' _].
  destruct (wf_elem c e' Hwf He') as (v2 & i2 & Hm2 & Hid2).
  rewrite Hid2 in Hid. apply make_id_inj in Hid as [<- _].
  apply has_video_id_true in Hm2. congruence.
Qed.

(** The collection after a call that returns, for a well-formed
    collection. *)
Lemma add_transcript_result self td c n c' :
  wf_collection c ->
  add_transcript self td c = (Returns n, c') ->
  exists chunks embeddings,
    Chunker.chunk_text (config self) (S (length (td_transcript td)))
      (td_transcript td) None None = Some chunks
    /\ encode self chunks = Returns embeddings
    /\ length embeddings = length chunks
    /\ chunks <> []
    /\ n = Z.of_nat (length chunks)
    /\ c' = List.filter (fun e => negb (Store.has_video_id (td_video_id td) e)) c
            ++ built_entries (td_video_id td) (td_metadata td)
                 (default [] (td_segments td)) chunks embeddings.
Proof.
  intros Hwf Hrun.
  apply add_transcript_returns in Hrun
    as (chunks & embs & Hc & He & Hl & Hne & Hn & ->).
  exists chunks, embs. repeat (split; [done|]).
  by rewrite built_entries_fresh, without_video_wf.
Qed.

Lemma filter_filter_neg {A} (keep : A -> bool) (xs : list A) :
  List.filter keep (List.filter (fun x => negb (keep x)) xs) = [].
Proof.
  induction xs as [|x xs IH]; simpl; [done|].
  destruct (keep x) eqn:Hk; simpl; [done|]. by rewrite Hk.
Qed.

Lemma filter_neg_filter_neg {A} (keep : A -> bool) (xs : list A) :
  List.filter (fun x => negb (keep x)) (List.filter (fun x => negb (keep x)) xs)
  = List.filter (fun x => negb (keep x)) xs.
Proof.
  induction xs as [|x xs IH]; simpl; [done|].
  destruct (keep x) eqn:Hk; simpl; [done|]. rewrite Hk. simpl. by f_equal.
Qed.

Lemma filter_neg_of_all {A} (keep : A -> bool) (xs : list A) :
  List.filter keep xs = xs -> List.filter (fun x => negb (keep x)) xs = [].
Proof.
  induction xs as [|x xs IH]; simpl; [done|].
  destruct (keep x) eqn:Hk; simpl.
  - intros [= H]. by apply IH.
  - intros H. exfalso.
    assert (x ∈ List.filter keep xs) as Hx by (rewrite H; apply list_elem_of_here).
    apply elem_of_filter_bool in Hx as [_ Hx]. congruence.
Qed.

End Replace.

(** *** Grouping the records by video *)

Section Grouping.

Lemma value_eqb_str_r x v : value_eqb x (VStr v) = true <-> x = VStr v.
Proof.
  destruct x as [s|z|q]; simpl; try (split; done).
  rewrite bool_decide_eq_true. split; [by intros ->|by intros [= ->]].
Qed.

Lemma value_eqb_str_l v y : value_eqb (VStr v) y = true <-> y = VStr v.
Proof.
  destruct y as [s|z|q]; simpl; try (split; done).
  rewrite bool_decide_eq_true. split; [by intros ->|by intros [= ->]].
Qed.

Lemma count_metadata_run videos metadata key c :
  metadata !! "video_id" = Some key ->
  count_metadata videos metadata c
  = (Returns (count_step videos key metadata), c).
Proof.
  intros Hkey. unfold count_metadata, dict_index, bind. by rewrite Hkey.
Qed.

Variable v : str.

Lemma assoc_mem_keyed videos :
  assoc_mem (VStr v) videos = false -> List.filter (keyed v) videos = [].
Proof.
  unfold assoc_mem, keyed. induction videos as [|kv videos IH]; simpl; [done|].
  rewrite orb_false_iff. intros [Hkv H]. rewrite Hkv. auto.
Qed.

Lemma keyed_assoc_mem videos :
  List.filter (keyed v) videos = [] -> assoc_mem (VStr v) videos = false.
Proof.
  unfold assoc_mem, keyed. induction videos as [|kv videos IH]; simpl; [done|].
  destruct (value_eqb kv.1 (VStr v)); [done|]. auto.
Qed.

Lemma filter_keyed_update_same videos :
  List.filter (keyed v) (assoc_update (VStr v) add_chunk videos)
  = map (fun kv => (kv.1, add_chunk kv.2)) (List.filter (keyed v) videos).
Proof.
  unfold assoc_update, keyed. induction videos as [|kv videos IH]; simpl; [done|].
  destruct (value_eqb kv.1 (VStr v)) eqn:Hk; simpl; rewrite Hk; simpl;
    by rewrite IH.
Qed.

Lemma filter_keyed_update_other key videos :
  value_eqb key (VStr v) = false ->
  List.filter (keyed v) (assoc_update key add_chunk videos)
  = List.filter (keyed v) videos.
Proof.
  intros Hkey. unfold assoc_update, keyed.
  induction videos as [|kv videos IH]; simpl; [done|].
  destruct (value_eqb kv.1 key) eqn:Hk; simpl.
  - destruct (value_eqb kv.1 (VStr v)) eqn:Hv; [|done].
    apply value_eqb_str_r in Hv. rewrite Hv in Hk.
    apply value_eqb_str_l in Hk. rewrite Hk in Hkey. simpl in Hkey.
    by rewrite bool_decide_eq_true_2 in Hkey.
  - by rewrite IH.
Qed.

Lemma update_consistent key videos :
  Forall (fun kv => vr_video_id kv.2 = kv.1) videos ->
  Forall (fun kv => vr_video_id kv.2 = kv.1)
    (assoc_update key add_chunk videos).
Proof.
  intros H. unfold assoc_update. apply Forall_fmap.
  eapply Forall_impl; [exact H|]. intros kv Hkv. simpl.
  by destruct (value_eqb kv.1 key).
Qed.

Lemma tally_step videos k key metadata :
  metadata !! "video_id" = Some key ->
  tally v videos k ->
  tally v (count_step videos key metadata)
        (k + if (about_video v) metadata then 1 else 0).
Proof.
  intros Hkey [Hcons Hk]. unfold count_step. split.
  { apply update_consistent. destruct (negb (assoc_mem key videos)); [|done].
    apply Forall_app. split; [done|]. by apply Forall_singleton. }
  unfold about_video. rewrite Hkey.
  destruct (value_eqb key (VStr v)) eqn:Hv.
  - apply value_eqb_str_r in Hv as ->.
    rewrite bool_decide_eq_true_2 by done.
    rewrite filter_keyed_update_same.
    destruct Hk as [[-> Hnone]|(Hpos & r & Hone & Hr)].
    + right. split; [lia|]. rewrite (keyed_assoc_mem _ Hnone). simpl.
      rewrite List.filter_app, Hnone. simpl. unfold keyed. simpl.
      rewrite bool_decide_eq_true_2 by done. simpl.
      eexists. split; [done|]. simpl. lia.
    + right. split; [lia|].
      assert (assoc_mem (VStr v) videos = true) as ->.
      { destruct (assoc_mem (VStr v) videos) eqn:Hm; [done|].
        apply assoc_mem_keyed in Hm. congruence. }
      simpl. rewrite Hone. simpl. eexists. split; [done|]. simpl. lia.
  - rewrite filter_keyed_update_other by done.
    assert ((if match key with
                | VStr s => bool_decide (s = v)
                | _ => false
                end then 1 else 0) = 0) as ->.
    { destruct key as [s|z|q]; try done. simpl in Hv. by rewrite Hv. }
    rewrite Z.add_0_r.
    destruct (negb (assoc_mem key videos)); [|done].
    rewrite List.filter_app. simpl.
    replace (keyed v (key, fresh_record key metadata)) with false
      by (unfold keyed; simpl; by rewrite Hv).
    by rewrite app_nil_r.
Qed.

(** The grouping loop on metadata that all carry a video id. *)
Lemma tally_loop metadatas videos k c :
  Forall (fun m => is_Some (m !! "video_id")) metadatas ->
  tally v videos k ->
  exists videos',
    for_each metadatas videos count_metadata c = (Returns videos', c)
    /\ tally v videos'
         (k + Z.of_nat (length (List.filter (about_video v) metadatas))).
Proof.
  revert videos k. induction metadatas as [|m metadatas IH];
    intros videos k Hall Hk; simpl.
  - exists videos. split; [done|]. by rewrite Z.add_0_r.
  - apply Forall_cons in Hall as [[key Hkey] Hall].
    unfold bind. rewrite (count_metadata_run _ _ key) by done.
    destruct (IH (count_step videos key m)
                (k + if (about_video v) m then 1 else 0) Hall)
      as (videos' & Hrun & Htally); [by apply tally_step|].
    exists videos'. split; [done|].
    destruct ((about_video v) m); simpl length;
      [by replace (k + Z.of_nat (S (length (List.filter (about_video v) metadatas))))
          with (k + 1 + Z.of_nat (length (List.filter (about_video v) metadatas)))
          by lia
      |by rewrite Z.add_0_r in Htally].
Qed.

Lemma about_video_metadata c :
  List.filter (about_video v) (map metadata c)
  = map metadata (List.filter (Store.has_video_id v) c).
Proof.
  induction c as [|e c IH]; simpl; [done|].
  unfold about_video at 1, Store.has_video_id at 1.
  destruct (metadata e !! "video_id") as [[s|z|q]|]; simpl; try done.
  destruct (bool_decide (s = v)); simpl; by f_equal.
Qed.

(** [list_videos] on a well-formed collection: one record for [v] when
    [v] has records, holding their number, and none otherwise. *)
Lemma list_videos_of_video c :
  wf_collection c ->
  exists records,
    list_videos c = (Returns records, c)
    /\ let k := Z.of_nat (length (List.filter (Store.has_video_id v) c)) in
       ((k = 0
         /\ List.filter (fun r => value_eqb (vr_video_id r) (VStr v)) records = [])
        \/ (0 < k
            /\ exists r,
                 List.filter (fun r => value_eqb (vr_video_id r) (VStr v)) records
                 = [r]
                 /\ vr_video_id r = VStr v /\ vr_chunks r = k)).
Proof.
  intros Hwf.
  assert (Forall (fun m => is_Some (m !! "video_id")) (map metadata c)) as Hall.
  { apply Forall_fmap. eapply Forall_impl; [exact Hwf|].
    intros e (v' & i & Hm & _). simpl. by rewrite Hm. }
  destruct (tally_loop (map metadata c) [] 0 c Hall) as (videos & Hrun & [Hcons Hk]).
  { split; [constructor|]. by left. }
  exists (map snd videos). split.
  { unfold list_videos, try_except, bind, Store.get_metadatas. by rewrite Hrun. }
  assert (List.filter (fun r => value_eqb (vr_video_id r) (VStr v)) (map snd videos)
          = map snd (List.filter (keyed v) videos)) as ->.
  { clear Hrun Hk. induction videos as [|kv videos IH]; simpl; [done|].
    apply Forall_cons in Hcons as [Hkv Hcons]. unfold keyed at 1.
    rewrite Hkv. destruct (value_eqb kv.1 (VStr v)); simpl; rewrite IH; done. }
  rewrite about_video_metadata, length_map, Z.add_0_l in Hk. simpl.
  destruct Hk as [[Hz Hnone]|(Hpos & r & Hone & Hr)].
  - left. by rewrite Hnone.
  - right. split; [done|]. exists r. rewrite Hone. simpl. split; [done|].
    split; [|done].
    assert ((VStr v, r) ∈ videos) as Hin.
    { assert ((VStr v, r) ∈ List.filter (keyed v) videos) as H
        by (rewrite Hone; apply list_elem_of_here).
      by apply elem_of_filter_bool in H as [H _]. }
    eapply Forall_forall in Hcons; [|exact Hin]. done.
Qed.

End Grouping.

(** *** Properties of indexing *)

Section IndexingProperties.

Lemma get_collection_stats_run self c records :
  list_videos c = (Returns records, c) ->
  exists stats,
    get_collection_stats self c = (Returns stats, c)
    /\ stats !! "total_chunks" = Some (VInt (Z.of_nat (length c)))
    /\ stats !! "total_videos" = Some (VInt (Z.of_nat (length records))).
Proof.
  intros Hlist. eexists. split.
  - unfold get_collection_stats, try_except, bind, Store.count.
    rewrite Hlist. reflexivity.
  - simpl. split.
    + by rewrite lookup_insert_eq.
    + rewrite lookup_insert_ne by done. by rewrite lookup_insert_eq.
Qed.

Lemma add_transcript_wf self td c :
  wf_collection c -> wf_collection (add_transcript self td c).2.
Proof.
  intros Hwf. unfold add_transcript, bind. rewrite remove_video_run.
  assert (wf_collection (without_video (td_video_id td) c)) as Hwf0
    by by apply wf_filter.
  destruct (Chunker.chunk_text _ _ _ _ _) as [chunks|]; [|done].
  pose proof (built_entries_wf (td_video_id td) (td_metadata td)
                (default [] (td_segments td)) chunks) as Hbuilt.
  unfold built_entries in Hbuilt.
  destruct (prepare _ _ _ chunks) as [[documents metadatas] ids].
  unfold lift. destruct (encode self documents) as [embeddings| |]; try done.
  unfold Store.add, ret.
  repeat (match goal with |- context [if ?b then _ else _] => destruct b end);
    try done.
  simpl. apply Forall_app. split; [done|]. by apply wf_filter.
Qed.

(** Every collection that the vector store can hold is well formed. *)
Lemma reachable_wf self c : reachable self c -> wf_collection c.
Proof.
  induction 1 as [|td c _ IH|video_id c _ IH|c _ IH].
  - apply Forall_nil_2.
  - by apply add_transcript_wf.
  - rewrite remove_video_run. by apply wf_filter.
  - apply Forall_nil_2.
Qed.

(** C1 (re-index replace semantics).  Let [add_transcript] return [n] on
    a collection whose records carry ids built from their video id.
    Then [n] is the positive number of chunks; the records of the video
    are exactly the records built by this call, in the order of the
    chunks, record [i] with id [v_i], chunk index [i] and chunk [i] as
    document; the records of the other videos are as before;
    [list_videos] has one record for the video, with chunk count [n];
    and [total_chunks] is [n] plus the number of records of the other
    videos. *)
Theorem add_transcript_replaces self td c n c' :
  wf_collection c ->
  add_transcript self td c = (Returns n, c') ->
  let v := td_video_id td in
  let mine := List.filter (Store.has_video_id v) c' in
  let others := List.filter (fun e => negb (Store.has_video_id v e)) c in
  exists chunks embeddings,
    Chunker.chunk_text (config self) (S (length (td_transcript td)))
      (td_transcript td) None None = Some chunks
    /\ encode self chunks = Returns embeddings
    /\ n = Z.of_nat (length chunks) /\ 0 < n
    /\ mine = built_entries v (td_metadata td) (default [] (td_segments td))
                chunks embeddings
    /\ length mine = length chunks
    /\ (forall i chunk, chunks !! i = Some chunk ->
        exists e, mine !! i = Some e
                  /\ id e = make_id v i
                  /\ document e = chunk
                  /\ metadata e !! "video_id" = Some (VStr v)
                  /\ metadata e !! "chunk_index" = Some (VInt (Z.of_nat i)))
    /\ List.filter (fun e => negb (Store.has_video_id v e)) c' = others
    /\ wf_collection c'
    /\ (exists records r,
          list_videos c' = (Returns records, c')
          /\ List.filter (fun r => value_eqb (vr_video_id r) (VStr v)) records
             = [r]
          /\ vr_video_id r = VStr v /\ vr_chunks r = n)
    /\ (exists stats,
          get_collection_stats self c' = (Returns stats, c')
          /\ stats !! "total_chunks"
             = Some (VInt (n + Z.of_nat (length others)))).
Proof.
  intros Hwf Hrun v mine others. subst v mine others.
  set (v := td_video_id td).
  apply add_transcript_result in Hrun
    as (chunks & embs & Hc & He & Hl & Hne & Hn & Hc'); [|done].
  fold v in Hc'.
  set (built := built_entries v (td_metadata td) (default [] (td_segments td))
                  chunks embs) in *.
  assert (length built = length chunks) as Hlb.
  { unfold built. rewrite built_entries_spec, length_zip_with, enumerate_length.
    lia. }
  assert (List.filter (Store.has_video_id v) c' = built) as Hmine.
  { rewrite Hc', List.filter_app.
    rewrite (filter_filter_neg (Store.has_video_id v)).
    apply built_entries_has_video. }
  assert (wf_collection c') as Hwf'.
  { rewrite Hc'. apply Forall_app. split; [by apply wf_filter|].
    apply built_entries_wf. }
  assert (0 < n) as Hpos.
  { destruct chunks; [done|]. rewrite Hn. simpl. lia. }
  exists chunks, embs. split; [done|]. split; [done|]. split; [done|].
  split; [done|]. split; [done|]. split; [by rewrite Hmine|].
  split.
  { intros i chunk Hi. rewrite Hmine. unfold built. rewrite built_entries_spec.
    assert (is_Some (embs !! i)) as [emb Hemb].
    { apply lookup_lt_is_Some. apply lookup_lt_Some in Hi. lia. }
    exists (entry_of v (td_metadata td) (default [] (td_segments td)) (i, chunk) emb).
    split.
    { apply lookup_zip_with_Some. exists (i, chunk), emb.
      split; [done|]. split; [by apply enumerate_lookup|done]. }
    simpl. split; [done|]. split; [done|].
    split; [apply metadata_entry_video_id|apply metadata_entry_chunk_index]. }
  split.
  { rewrite Hc', List.filter_app.
    rewrite (filter_neg_filter_neg (Store.has_video_id v)).
    rewrite (filter_neg_of_all (Store.has_video_id v) built)
      by apply built_entries_has_video.
    by rewrite app_nil_r. }
  split; [done|].
  destruct (list_videos_of_video v c' Hwf') as (records & Hlist & Hcase).
  rewrite Hmine, Hlb, <- Hn in Hcase.
  destruct Hcase as [[Hz _]|(_ & r & Hr & Hid & Hk)]; [lia|].
  split; [by exists records, r|].
  destruct (get_collection_stats_run self c' records Hlist) as (stats & Hs & Ht & _).
  exists stats. split; [done|]. rewrite Ht. do 2 f_equal.
  rewrite Hc', length_app. lia.
Qed.

Lemma add_transcript_replaces_witness :
  length (List.filter (Store.has_video_id (lit "abc")) greeting_again_index)
  = 2%nat
  /\ length greeting_again_index = 2%nat.
Proof.
  destruct (add_transcript_replaces length_store greeting_again greeting_index
              2 greeting_again_index)
    as (chunks & embs & Hc & _ & _ & _ & _ & Hlen & _).
  - assert (greeting_index = [greeting_entry]) as -> by by vm_compute.
    apply Forall_singleton. exists (lit "abc"), 0%nat. split; by vm_compute.
  - by vm_compute.
  - vm_compute in Hc. injection Hc as <-. split; [exact Hlen|by vm_compute].
Defined.

(** C8 (failed re-index).  When the embedding model raises on the
    chunks, [add_transcript] raises the same exception and the collection
    is left as [remove_video] alone leaves it: no record of the video is
    in it, none was inserted, and in a collection whose records carry ids
    built from their video id the records of the other videos are as
    before. *)
Theorem add_transcript_embedding_failure self td c chunks e :
  Chunker.chunk_text (config self) (S (length (td_transcript td)))
    (td_transcript td) None None = Some chunks ->
  encode self chunks = Raises e ->
  let v := td_video_id td in
  exists c',
    add_transcript self td c = (Raises e, c')
    /\ c' = (remove_video v c).2
    /\ List.filter (Store.has_video_id v) c' = []
    /\ sublist c' c
    /\ (wf_collection c ->
        c' = List.filter (fun e => negb (Store.has_video_id v e)) c).
Proof.
  intros Hchunks Henc v. exists (without_video v c). split.
  { unfold add_transcript, bind. rewrite remove_video_run, Hchunks.
    rewrite prepare_spec. unfold lift. by rewrite Henc. }
  split; [by rewrite remove_video_run|].
  split; [apply without_video_none|].
  split; [apply filter_sublist|]. apply without_video_wf.
Qed.

Lemma add_transcript_embedding_failure_witness :
  add_transcript failing_store greeting_again greeting_index
  = (Raises (OtherError "CUDA out of memory"), []).
Proof.
  destruct (add_transcript_embedding_failure failing_store greeting_again
              greeting_index
              [rep 50 "a"%char ++ lit "."; rep 3 "a"%char ++ lit ". " ++ rep 98 "b"%char]
              (OtherError "CUDA out of memory"))
    as (c' & Hrun & -> & _); [by vm_compute|reflexivity|].
  exact Hrun.
Defined.

End IndexingProperties.

(** *** Running monadic code *)

Section MonadFacts.
Context {St : Type}.

Lemma bind_returns {A B} (m : M St A) (k : A -> M St B) st b st' :
  bind m k st = (Returns b, st') ->
  exists a st1, m st = (Returns a, st1) /\ k a st1 = (Returns b, st').
Proof.
  unfold bind. destruct (m st) as [[a| |] st1]; try done. intros H. by exists a, st1.
Qed.

Lemma list_index_returns {A} (l : list A) i (st st' : St) x :
  list_index l i st = (Returns x, st') -> l !! i = Some x /\ st' = st.
Proof. unfold list_index. destruct (l !! i); [by intros [= -> ->]|done]. Qed.

Lemma lift_returns {A} (o : outcome A) (st st' : St) x :
  lift o st = (Returns x, st') -> o = Returns x /\ st' = st.
Proof. unfold lift. by intros [= -> ->]. Qed.

Lemma bind_no_hang {A B} (m : M St A) (k : A -> M St B) st :
  (m st).1 <> Hangs ->
  (forall a st1, (k a st1).1 <> Hangs) ->
  (bind m k st).1 <> Hangs.
Proof.
  intros Hm Hk. unfold bind.
  destruct (m st) as [[a|e|] st1]; simpl in *; [apply Hk|done|done].
Qed.

End MonadFacts.

(** *** Search *)

Section Search.

Lemma Qminus_antitone (a b : Q) : (a <= b)%Q -> (1 - b <= 1 - a)%Q.
Proof.
  intros H. unfold Qminus. apply Qplus_le_compat; [apply Qle_refl|].
  by apply Qopp_le_compat.
Qed.

Lemma similarity_sorted (rs : list SearchResult) :
  Forall (fun r => r_similarity r = (1 - r_distance r)%Q) rs ->
  StronglySorted Qle (map r_distance rs) ->
  StronglySorted (fun a b => (r_similarity b <= r_similarity a)%Q) rs.
Proof.
  induction rs as [|r rs IH]; simpl; [constructor|].
  intros Hsim Hsorted. apply Forall_cons in Hsim as [Hr Hsim].
  apply StronglySorted_cons in Hsorted as [Hle Hsorted].
  apply StronglySorted_cons. split; [|by apply IH].
  apply Forall_forall. intros r' Hr'.
  eapply Forall_forall in Hsim; [|exact Hr']. rewrite Hr, Hsim.
  apply Qminus_antitone. eapply Forall_forall in Hle; [exact Hle|].
  by apply list_elem_of_fmap_2.
Qed.

(** The formatting loop of [search]: result [i] is built from position
    [i] of the three inner lists. *)
Lemma search_loop (res : Store.QueryResult) n s acc (c c' : Collection) out :
  for_each (seq s n) acc
    (fun formatted_results i =>
       let* documents0 := list_index (Store.q_documents res) 0 in
       let* document := list_index documents0 i in
       let* metadatas0 := list_index (Store.q_metadatas res) 0 in
       let* metadata := list_index metadatas0 i in
       let* distances0 := list_index (Store.q_distances res) 0 in
       let* distance := list_index distances0 i in
       ret (formatted_results ++
              [{| r_document := document; r_metadata := metadata;
                  r_distance := distance; r_similarity := 1 - distance |}]))
    c = (Returns out, c') ->
  c' = c
  /\ exists new,
       out = acc ++ new
       /\ Forall (fun r => r_similarity r = (1 - r_distance r)%Q) new
       /\ map r_document new
          = take n (drop s (default [] (Store.q_documents res !! 0%nat)))
       /\ map r_metadata new
          = take n (drop s (default [] (Store.q_metadatas res !! 0%nat)))
       /\ map r_distance new
          = take n (drop s (default [] (Store.q_distances res !! 0%nat))).
Proof.
  set (body := fun (formatted_results : list SearchResult) (i : nat) => _).
  revert s acc. induction n as [|n IH]; intros s acc; simpl.
  - intros [= <- <-]. split; [done|]. exists []. by rewrite app_nil_r.
  - unfold bind at 1. destruct (body acc s c) as [o c1] eqn:Hbody.
    unfold body, bind, list_index, ret, raise in Hbody.
    destruct (Store.q_documents res !! 0%nat) as [docs|];
      [|injection Hbody as <- <-; done].
    destruct (docs !! s) as [d|] eqn:Hd; [|injection Hbody as <- <-; done].
    destruct (Store.q_metadatas res !! 0%nat) as [mds|];
      [|injection Hbody as <- <-; done].
    destruct (mds !! s) as [m|] eqn:Hm; [|injection Hbody as <- <-; done].
    destruct (Store.q_distances res !! 0%nat) as [ds|];
      [|injection Hbody as <- <-; done].
    destruct (ds !! s) as [x|] eqn:Hx; [|injection Hbody as <- <-; done].
    injection Hbody as <- <-.
    intros Hrun. apply IH in Hrun as (-> & new & -> & Hsim & Hdoc & Hmd & Hdist).
    split; [done|]. eexists (_ :: new). split; [by rewrite <- app_assoc|].
    simpl in *. split; [by apply Forall_cons|].
    rewrite (drop_S docs d s), (drop_S mds m s), (drop_S ds x s) by done.
    simpl. by rewrite Hdoc, Hmd, Hdist.
Qed.

(** C7 (search ordering).  In what [search] returns, the similarity of
    each result is 1 minus its distance, the results are the neighbours
    answered by the query of the collection, in its order, and the
    collection is unchanged; when the distances answered are in
    ascending order, as a nearest-neighbour query gives them, the
    similarities are non-increasing from first to last. *)
Theorem search_ordering self query_text top_k c results c' :
  (forall emb k res,
      query self c emb k = Returns res ->
      StronglySorted Qle (default [] (Store.q_distances res !! 0%nat))) ->
  search self query_text top_k c = (Returns results, c') ->
  c' = c
  /\ Forall (fun r => r_similarity r = (1 - r_distance r)%Q) results
  /\ StronglySorted (fun a b => (r_similarity b <= r_similarity a)%Q) results
  /\ exists emb res,
       query self c emb (default (TOP_K_RESULTS (config self)) top_k)
       = Returns res
       /\ map r_document results = default [] (Store.q_documents res !! 0%nat)
       /\ map r_distance results
          = take (length results) (default [] (Store.q_distances res !! 0%nat)).
Proof.
  intros Hsorted Hrun. unfold search in Hrun.
  apply bind_returns in Hrun as (encoded & c1 & Henc & Hrun).
  apply lift_returns in Henc as [Henc ->].
  apply bind_returns in Hrun as (emb & c1 & Hemb & Hrun).
  apply list_index_returns in Hemb as [Hemb ->].
  apply bind_returns in Hrun as (res & c1 & Hq & Hrun).
  injection Hq as Hq <-.
  apply bind_returns in Hrun as (docs & c1 & Hdocs & Hrun).
  apply list_index_returns in Hdocs as [Hdocs ->].
  apply search_loop in Hrun as (-> & new & -> & Hsim & Hdoc & _ & Hdist).
  rewrite Hdocs in Hdoc. simpl in Hdoc, Hdist.
  rewrite drop_0 in Hdoc. rewrite drop_0 in Hdist. rewrite firstn_all in Hdoc.
  assert (length new = length docs) as Hlen.
  { by rewrite <- Hdoc, length_map. }
  simpl. split; [done|]. split; [done|]. split.
  - apply similarity_sorted; [done|]. rewrite Hdist.
    specialize (Hsorted emb _ res Hq).
    rewrite <- (take_drop (length docs)) in Hsorted.
    by apply StronglySorted_app_1_l in Hsorted.
  - exists emb, res. split; [done|]. rewrite Hdocs. simpl.
    split; [done|]. by rewrite Hlen.
Qed.

Lemma search_ordering_witness :
  exists results,
    search ranking_store (lit "hello") None [] = (Returns results, [])
    /\ map r_similarity results = [9 # 10; 7 # 10]
    /\ StronglySorted (fun a b => (r_similarity b <= r_similarity a)%Q) results.
Proof.
  destruct (search ranking_store (lit "hello") None []) as [o c'] eqn:Hrun.
  destruct o as [results| |]; try by vm_compute in Hrun.
  destruct (search_ordering ranking_store (lit "hello") None [] results c')
    as (-> & _ & Hs & _).
  - intros emb k res [= <-]. simpl.
    repeat constructor; by vm_compute.
  - exact Hrun.
  - exists results. split; [done|]. split; [|exact Hs].
    vm_compute in Hrun. by injection Hrun as <-.
Defined.

End Search.

(** *** The orchestrator *)

Section Orchestrator.
Context {St : Type}.
Implicit Types self : VideoQASystem St.

Lemma bind_run {A B} (m : M St A) (k : A -> M St B) st a st' :
  m st = (Returns a, st') -> (let* x := m in k x) st = k a st'.
Proof. unfold bind. by intros ->. Qed.

(** A block that prints and returns raises only what the print raises. *)
Lemma print_then_raises {A} (b : Builtins St) msg (a : A) st e st' :
  (let* _ := print b msg in ret a) st = (Raises e, st') ->
  print b msg st = (Raises e, st').
Proof.
  unfold bind, ret. destruct (print b msg st) as [[[]| |] st1]; try done.
  by intros [= -> ->].
Qed.

Lemma print_then_returns {A} (b : Builtins St) msg (a : A) st :
  accepts b ->
  exists st', (let* _ := print b msg in ret a) st = (Returns a, st').
Proof.
  intros Hacc. destruct (Hacc msg st) as [st' Hp]. exists st'.
  by rewrite (bind_run _ _ _ _ _ Hp).
Qed.

Lemma try_except_raises {A} (body : M St A) handler st e st' :
  try_except body handler st = (Raises e, st') ->
  exists e0 st0, body st = (Raises e0, st0) /\ handler e0 st0 = (Raises e, st').
Proof.
  unfold try_except. destruct (body st) as [[a|e0|] st0]; try done.
  intros H. by exists e0, st0.
Qed.

(** The only exception that leaves [add_video] is one raised by the
    print of its handler. *)
Lemma add_video_raises self url force_refresh st e st' :
  System.add_video self url force_refresh st = (Raises e, st') ->
  exists e0 st0,
    print (builtins self) (System.error_adding self url e0) st0
    = (Raises e, st').
Proof.
  intros H. apply try_except_raises in H as (e0 & st0 & _ & H).
  apply print_then_raises in H. by exists e0, st0.
Qed.

(** What [add_video] gives when the standard output takes its
    messages, by the results of its two collaborator calls. *)
Lemma add_video_cases self url force_refresh st :
  accepts (builtins self) ->
  exists st',
    System.add_video self url force_refresh st
    = (match transcript_extractor_extract_and_save_transcript self url
               force_refresh st with
       | (Raises e, st1) => Returns false
       | (Hangs, st1) => Hangs
       | (Returns None, st1) => Returns false
       | (Returns (Some td), st1) =>
           match vector_store_add_transcript self td st1 with
           | (Raises e, st2) => Returns false
           | (Hangs, st2) => Hangs
           | (Returns n, st2) =>
               Returns (bool_decide (is_Some (td_metadata td !! "title")))
           end
       end, st').
Proof.
  intros Hacc. unfold System.add_video, try_except.
  unfold bind at 1.
  destruct (transcript_extractor_extract_and_save_transcript self url
              force_refresh st) as [[[td|]| |] st1]; [|by eexists| |by eexists].
  - unfold bind at 1.
    destruct (vector_store_add_transcript self td st1) as [[n| |] st2];
      [| |by eexists].
    + unfold bind at 1, dict_index.
      destruct (td_metadata td !! "title") as [title|] eqn:Ht.
      * rewrite bool_decide_eq_true_2 by done. unfold ret at 1.
        destruct (Hacc (System.added_video self title) st2) as [st3 Hp1].
        rewrite (bind_run _ _ _ _ _ Hp1).
        destruct (Hacc (System.created_chunks n) st3) as [st4 Hp2].
        rewrite (bind_run _ _ _ _ _ Hp2). by exists st4.
      * rewrite bool_decide_eq_false_2 by by intros [? ?]. unfold raise at 1.
        apply print_then_returns, Hacc.
    + apply print_then_returns, Hacc.
  - apply print_then_returns, Hacc.
Qed.

Lemma add_video_returns self url force_refresh st :
  System.never_hangs self -> accepts (builtins self) ->
  exists b st', System.add_video self url force_refresh st = (Returns b, st').
Proof.
  intros [Hex Hvs] Hacc.
  destruct (add_video_cases self url force_refresh st Hacc) as [st' ->].
  specialize (Hex url force_refresh st).
  destruct (transcript_extractor_extract_and_save_transcript self url
              force_refresh st) as [[[td|]| |] st1]; try done; try by eexists _, _.
  specialize (Hvs td st1).
  destruct (vector_store_add_transcript self td st1) as [[n| |] st2];
    try done; by eexists _, _.
Qed.

(** The loop of [add_videos] stores the result of every url. *)
Lemma add_videos_loop self urls force_refresh st results :
  System.never_hangs self -> accepts (builtins self) ->
  for_each urls results
    (fun results url =>
       let* _ := print (builtins self) (System.processing url) in
       let* added := System.add_video self url force_refresh in
       ret (<[url := added]> results)) st
  = (Returns (System.record_all
                (System.batch_log self urls force_refresh st).1 results),
     (System.batch_log self urls force_refresh st).2).
Proof.
  intros Hnh Hacc. revert st results.
  induction urls as [|url urls IH]; intros st results; simpl; [done|].
  destruct (Hacc (System.processing url) st) as [st0 Hp]. rewrite Hp.
  destruct (add_video_returns self url force_refresh st0 Hnh Hacc)
    as (b & st' & Hv). rewrite Hv.
  unfold bind at 1. rewrite (bind_run _ _ _ _ _ Hp), (bind_run _ _ _ _ _ Hv).
  unfold ret at 1. rewrite IH.
  by destruct (System.batch_log self urls force_refresh st') as [log st''].
Qed.

Lemma batch_log_urls self urls force_refresh st :
  map fst (System.batch_log self urls force_refresh st).1 = urls.
Proof.
  revert st. induction urls as [|url urls IH]; intros st; simpl; [done|].
  destruct (print (builtins self) (System.processing url) st) as [u st0].
  destruct (System.add_video self url force_refresh st0) as [o st'].
  specialize (IH st').
  destruct (System.batch_log self urls force_refresh st') as [log st''].
  simpl in *. by rewrite IH.
Qed.

Lemma record_all_lookup (log : list (str * bool)) (results : gmap str bool)
    (url : str) :
  is_Some (System.record_all log results !! url)
  <-> url ∈ map fst log \/ is_Some (results !! url).
Proof.
  unfold System.record_all. revert results.
  induction log as [|[u b] log IH]; intros results; simpl.
  - rewrite elem_of_nil. tauto.
  - rewrite IH, elem_of_cons. destruct (decide (url = u)) as [->|Hne].
    + rewrite lookup_insert_eq. split; [by left; left|]. intros _. by right.
    + rewrite lookup_insert_ne by done. tauto.
Qed.

(** What [remove_video] of the orchestrator gives, by the result of the
    vector store. *)
Lemma system_remove_video_returns self video_id st n st1 :
  vector_store_remove_video self video_id st = (Returns n, st1) ->
  forall st',
    print (builtins self)
      (if 0 <? n then System.removed_video video_id n
       else System.not_found video_id) st1 = (Returns tt, st') ->
    System.remove_video self video_id st = (Returns (0 <? n), st').
Proof.
  intros Hrun st' Hp. unfold System.remove_video, try_except.
  rewrite (bind_run _ _ _ _ _ Hrun), Z.gtb_ltb.
  destruct (0 <? n); by rewrite (bind_run _ _ _ _ _ Hp).
Qed.

Lemma system_remove_video_caught self video_id st e st1 :
  vector_store_remove_video self video_id st = (Raises e, st1) ->
  System.remove_video self video_id st
  = (let* _ := print (builtins self) (System.error_removing self video_id e) in
     ret false) st1.
Proof.
  intros Hrun. unfold System.remove_video, try_except.
  unfold bind at 1. by rewrite Hrun.
Qed.

Lemma system_remove_video_raises self video_id st e st' :
  System.remove_video self video_id st = (Raises e, st') ->
  exists e0 st0,
    print (builtins self) (System.error_removing self video_id e0) st0
    = (Raises e, st').
Proof.
  intros H. apply try_except_raises in H as (e0 & st0 & _ & H).
  apply print_then_raises in H. by exists e0, st0.
Qed.

End Orchestrator.

(** *** The system of this repository *)

Section ConcreteSystem.

Lemma add_transcript_never_hangs self td c :
  99 <= CHUNK_SIZE (config self) - CHUNK_OVERLAP (config self) ->
  (forall docs, encode self docs <> Hangs) ->
  (add_transcript self td c).1 <> Hangs.
Proof.
  intros Hcfg Henc. unfold add_transcript.
  apply bind_no_hang; [by rewrite remove_video_run|]. intros _ c1.
  destruct (chunk_text_total (td_transcript td) _ _ Hcfg) as [chunks Hrun].
  unfold Chunker.chunk_text. simpl. rewrite Hrun by lia.
  destruct (prepare _ _ _ chunks) as [[documents metadatas] ids].
  apply bind_no_hang; [apply Henc|]. intros embeddings c2.
  apply bind_no_hang; [|done]. unfold Store.add.
  repeat (match goal with |- context [if ?b then _ else _] => destruct b end);
    done.
Qed.

Lemma extract_and_save_never_hangs {W} (extractor : TranscriptExtractor W)
    url force_refresh w :
  (forall url, extract_video_id extractor url <> Hangs) ->
  (forall video_id w, (load_transcript extractor video_id w).1 <> Hangs) ->
  (forall video_id w, (extract_transcript extractor video_id w).1 <> Hangs) ->
  (forall td w, (save_transcript extractor td w).1 <> Hangs) ->
  (extract_and_save_transcript extractor url force_refresh w).1 <> Hangs.
Proof.
  intros Hid Hload Hfetch Hsave. unfold extract_and_save_transcript.
  apply bind_no_hang; [apply Hid|]. intros [[|ch video_id]|] w1; try done.
  apply bind_no_hang; [destruct force_refresh; [done|apply Hload]|].
  intros [existing|] w2; [done|].
  apply bind_no_hang; [apply Hfetch|]. intros [td|] w3; [|done].
  apply bind_no_hang; [apply Hsave|done].
Qed.

(** With a chunk size that exceeds the overlap by at least 99 and
    outside calls that come back, no collaborator call hangs. *)
Lemma system_never_hangs {W} (extractor : TranscriptExtractor W) store console :
  99 <= CHUNK_SIZE (config store) - CHUNK_OVERLAP (config store) ->
  (forall docs, encode store docs <> Hangs) ->
  (forall url, extract_video_id extractor url <> Hangs) ->
  (forall video_id w, (load_transcript extractor video_id w).1 <> Hangs) ->
  (forall video_id w, (extract_transcript extractor video_id w).1 <> Hangs) ->
  (forall td w, (save_transcript extractor td w).1 <> Hangs) ->
  System.never_hangs (system extractor store console).
Proof.
  intros Hcfg Henc Hid Hload Hfetch Hsave. split.
  - intros url force_refresh [c w]. simpl. unfold on_outside. simpl.
    pose proof (extract_and_save_never_hangs extractor url force_refresh w
                  Hid Hload Hfetch Hsave) as H.
    by destruct (extract_and_save_transcript extractor url force_refresh w).
  - intros td [c w]. simpl. unfold on_collection. simpl.
    pose proof (add_transcript_never_hangs store td c Hcfg Henc) as H.
    by destruct (add_transcript store td c).
Qed.

(** The system prints on the standard output of its outside world, and
    a print leaves the collection alone. *)
Lemma system_print {W} (extractor : TranscriptExtractor W) store console
    msg c w w' :
  print console msg w = (Returns tt, w') ->
  print (builtins (system extractor store console)) msg (c, w)
  = (Returns tt, (c, w')).
Proof. intros H. simpl. unfold on_outside. simpl. by rewrite H. Qed.

Lemma system_accepts {W} (extractor : TranscriptExtractor W) store console :
  accepts console -> accepts (builtins (system extractor store console)).
Proof.
  intros Hacc msg [c w]. destruct (Hacc msg w) as [w' Hp].
  exists (c, w'). by apply system_print.
Qed.

Lemma utf8_console_accepts {St} : accepts (@utf8_console St).
Proof. intros msg st. by exists st. Qed.

End ConcreteSystem.

Section OrchestratorProperties.
Context {St : Type}.
Implicit Types self : VideoQASystem St.

(** C9 (no crash, isolated failures), as the code has it.  The only
    exception that leaves [add_video] is one raised by the print of its
    handler.  When the collaborator calls come back and the standard
    output takes the messages, [add_video] returns a boolean, which is
    true exactly when the extractor returned a transcript,
    [add_transcript] returned and the metadata has a title, and false
    for every exception of the extraction, the acquisition and the
    indexing; and [add_videos] returns the dict in which the result of
    [add_video] on every url, called in turn whatever the earlier
    results, was stored: its keys are the urls.  In the system of this
    repository the collaborator calls come back when the chunk size
    exceeds the overlap by at least 99 and the outside calls come
    back. *)
Theorem add_video_isolates_failures self :
  (forall url force_refresh st e st',
      System.add_video self url force_refresh st = (Raises e, st') ->
      exists e0 st0,
        print (builtins self) (System.error_adding self url e0) st0
        = (Raises e, st'))
  /\ (System.never_hangs self -> accepts (builtins self) ->
      (forall url force_refresh st,
          exists b st',
            System.add_video self url force_refresh st = (Returns b, st')
            /\ (b = true <->
                exists td st1 n st2,
                  transcript_extractor_extract_and_save_transcript self url
                    force_refresh st = (Returns (Some td), st1)
                  /\ vector_store_add_transcript self td st1 = (Returns n, st2)
                  /\ is_Some (td_metadata td !! "title"))
            /\ (forall e st1,
                  transcript_extractor_extract_and_save_transcript self url
                    force_refresh st = (Raises e, st1) -> b = false)
            /\ (forall td st1 e st2,
                  transcript_extractor_extract_and_save_transcript self url
                    force_refresh st = (Returns (Some td), st1) ->
                  vector_store_add_transcript self td st1 = (Raises e, st2) ->
                  b = false))
      /\ (forall urls force_refresh st,
            let log := (System.batch_log self urls force_refresh st).1 in
            (exists st',
                System.add_videos self urls force_refresh st
                = (Returns (System.record_all log ∅), st'))
            /\ map fst log = urls
            /\ (forall url, is_Some (System.record_all log ∅ !! url)
                            <-> url ∈ urls)))
  /\ (forall W (extractor : TranscriptExtractor W) store console,
        99 <= CHUNK_SIZE (config store) - CHUNK_OVERLAP (config store) ->
        (forall docs, encode store docs <> Hangs) ->
        (forall url, extract_video_id extractor url <> Hangs) ->
        (forall video_id w, (load_transcript extractor video_id w).1 <> Hangs) ->
        (forall video_id w,
            (extract_transcript extractor video_id w).1 <> Hangs) ->
        (forall td w, (save_transcript extractor td w).1 <> Hangs) ->
        accepts console ->
        System.never_hangs (system extractor store console)
        /\ accepts (builtins (system extractor store console))).
Proof.
  split; [apply add_video_raises|].
  split; [|intros; split; [by apply system_never_hangs|by apply system_accepts]].
  intros Hnh Hacc. split.
  - intros url force_refresh st.
    destruct (add_video_cases self url force_refresh st Hacc) as [st' ->].
    destruct Hnh as [Hex Hvs]. specialize (Hex url force_refresh st).
    destruct (transcript_extractor_extract_and_save_transcript self url
                force_refresh st) as [[[td|]| |] st1] eqn:Hext; try done.
    + specialize (Hvs td st1).
      destruct (vector_store_add_transcript self td st1) as [[n| |] st2] eqn:Hadd;
        try done.
      * eexists _, _. split; [done|]. rewrite bool_decide_eq_true.
        split; [|split].
        -- split.
           ++ intros Ht. by exists td, st1, n, st2.
           ++ by intros (td' & st1' & n' & st2' & [= <- <-] & _ & Ht).
        -- done.
        -- intros td' st1' e st2' [= <- <-] Hadd'. congruence.
      * eexists _, _. split; [done|]. split; [|done]. split; [done|].
        intros (td' & st1' & n' & st2' & [= <- <-] & Hadd' & _). congruence.
    + eexists _, _. split; [done|]. split; [|done]. split; [done|].
      by intros (? & ? & ? & ? & ? & _).
    + eexists _, _. split; [done|]. split; [|done]. split; [done|].
      by intros (? & ? & ? & ? & ? & _).
  - intros urls force_refresh st log. subst log. split; [|split].
    + unfold System.add_videos.
      rewrite (bind_run _ _ _ _ _
                 (add_videos_loop self urls force_refresh st ∅ Hnh Hacc)).
      apply print_then_returns, Hacc.
    + apply batch_log_urls.
    + intros url. rewrite record_all_lookup, batch_log_urls.
      rewrite lookup_empty. split; [intros [?|[? ?]]; done|by left].
Qed.

(** C10 (removal reports absence as failure), as the code has it.  The
    only exception that leaves [remove_video] of the orchestrator is one
    raised by the print of its handler.  When the standard output takes
    the messages it raises none: it returns whether the count returned
    by the vector store is positive, and false when the vector store
    raises.  On the collection of this repository the count is the
    number of records of the video, 0 without an exception for an absent
    video, so the orchestrator returns true exactly when the video had
    records, and false for an absent video. *)
Theorem remove_video_reports_absence self video_id st :
  (forall e st',
      System.remove_video self video_id st = (Raises e, st') ->
      exists e0 st0,
        print (builtins self) (System.error_removing self video_id e0) st0
        = (Raises e, st'))
  /\ (accepts (builtins self) ->
      (forall e, (System.remove_video self video_id st).1 <> Raises e)
      /\ (forall n st1,
            vector_store_remove_video self video_id st = (Returns n, st1) ->
            exists st',
              System.remove_video self video_id st = (Returns (0 <? n), st'))
      /\ (forall e st1,
            vector_store_remove_video self video_id st = (Raises e, st1) ->
            exists st',
              System.remove_video self video_id st = (Returns false, st')))
  /\ (forall W (extractor : TranscriptExtractor W) (store : VectorStore)
             (console : Builtins W) c w,
        accepts console ->
        let records := List.filter (Store.has_video_id video_id) c in
        remove_video video_id c
        = (Returns (Z.of_nat (length records)), without_video video_id c)
        /\ (exists w',
              System.remove_video (system extractor store console) video_id
                (c, w)
              = (Returns (bool_decide (records <> [])),
                 (without_video video_id c, w')))
        /\ (records = [] ->
            remove_video video_id c = (Returns 0, c)
            /\ exists w',
                 System.remove_video (system extractor store console) video_id
                   (c, w)
                 = (Returns false, (c, w')))).
Proof.
  split; [|split].
  - apply system_remove_video_raises.
  - intros Hacc.
    assert (forall n st1,
              vector_store_remove_video self video_id st = (Returns n, st1) ->
              exists st',
                System.remove_video self video_id st = (Returns (0 <? n), st'))
      as Hret.
    { intros n st1 Hrun.
      destruct (Hacc (if 0 <? n then System.removed_video video_id n
                      else System.not_found video_id) st1) as [st' Hp].
      exists st'. by eapply system_remove_video_returns. }
    assert (forall e st1,
              vector_store_remove_video self video_id st = (Raises e, st1) ->
              exists st',
                System.remove_video self video_id st = (Returns false, st'))
      as Hcaught.
    { intros e st1 Hrun. rewrite (system_remove_video_caught _ _ _ _ _ Hrun).
      apply print_then_returns, Hacc. }
    split; [|by split].
    intros e Hraise.
    destruct (vector_store_remove_video self video_id st) as [[n|e0|] st1] eqn:Hv.
    + destruct (Hret n st1 eq_refl) as [st' Hr]. by rewrite Hr in Hraise.
    + destruct (Hcaught e0 st1 eq_refl) as [st' Hr]. by rewrite Hr in Hraise.
    + unfold System.remove_video, try_except, bind in Hraise.
      by rewrite Hv in Hraise.
  - intros W extractor store console c w Hacc.
    set (records := List.filter (Store.has_video_id video_id) c).
    assert (exists w',
              System.remove_video (system extractor store console) video_id
                (c, w)
              = (Returns (bool_decide (records <> [])),
                 (without_video video_id c, w'))) as Hsys.
    { set (n := Z.of_nat (length records)).
      destruct (Hacc (if 0 <? n then System.removed_video video_id n
                      else System.not_found video_id) w) as [w' Hp].
      exists w'.
      assert (bool_decide (records <> []) = (0 <? n)) as ->.
      { subst n. by destruct records as [|r rs]. }
      eapply system_remove_video_returns.
      - simpl. unfold on_collection. simpl. rewrite remove_video_run.
        fold records. done.
      - by apply system_print. }
    cbv zeta. rewrite remove_video_run. fold records.
    split; [done|]. split; [done|]. intros Hnone.
    destruct Hsys as [w' Hsys]. rewrite Hsys, Hnone.
    assert (without_video video_id c = c) as ->.
    { unfold without_video. fold records. rewrite Hnone. simpl.
      clear. induction c as [|x c IH]; simpl; [done|]. by rewrite IH. }
    split; [done|]. by exists w'.
Qed.

End OrchestratorProperties.

(** The batch of the specification: a url that works and one that does
    not. *)
Lemma add_video_isolates_failures_witness :
  exists st',
    System.add_videos (system one_video_extractor length_store utf8_console)
      [lit "https://youtu.be/abc"; lit "not a url"] false ([], tt)
    = (Returns (<[lit "not a url" := false]>
                  (<[lit "https://youtu.be/abc" := true]> ∅)), st').
Proof.
  destruct (add_video_isolates_failures
              (system one_video_extractor length_store utf8_console))
    as (_ & Hreturns & _).
  destruct Hreturns as [_ Hbatch].
  { apply system_never_hangs; simpl; [lia|done| |done..].
    intros url. by destruct (bool_decide _). }
  { apply system_accepts, utf8_console_accepts. }
  destruct (Hbatch [lit "https://youtu.be/abc"; lit "not a url"] false ([], tt))
    as ([st' Hrun] & _).
  exists st'. rewrite Hrun. reflexivity.
Defined.

(** C9 as the specification states it fails on the code.  With chunks
    of 100 characters overlapping by 2 and a transcript that starts
    with a full stop, [add_video] does not return.  On a standard
    output that encodes to ASCII, [add_video] of a url with another
    letter raises from the print of its handler when the indexing
    fails, and [add_videos] raises from the print that announces the
    url, before the urls behind it are processed. *)
Lemma add_video_hangs_or_raises :
  System.add_video (system dotted_extractor tight_store utf8_console)
    (lit "https://youtu.be/abc") false ([], tt) = (Hangs, ([], tt))
  /\ (System.add_video (system file_extractor failing_store ascii_console)
        accented_url false ([], ∅)).1
     = Raises (OtherError "'ascii' codec can't encode character")
  /\ System.add_videos (system one_video_extractor length_store ascii_console)
       [accented_url; lit "https://youtu.be/abc"] false ([], tt)
     = (Raises (OtherError "'ascii' codec can't encode character"), ([], tt)).
Proof. split; [|split]; by vm_compute. Qed.

Lemma remove_video_reports_absence_witness :
  (exists w',
      System.remove_video (system one_video_extractor length_store utf8_console)
        (lit "abc") (greeting_index, tt) = (Returns true, ([], w')))
  /\ (exists w',
        System.remove_video
          (system one_video_extractor length_store utf8_console)
          (lit "xyz") (greeting_index, tt)
        = (Returns false, (greeting_index, w'))).
Proof.
  split.
  - destruct (remove_video_reports_absence
                (system one_video_extractor length_store utf8_console)
                (lit "abc") (greeting_index, tt)) as (_ & _ & H).
    destruct (H unit one_video_extractor length_store utf8_console
                greeting_index tt utf8_console_accepts) as (_ & [w' Hr] & _).
    exists w'. rewrite Hr. by vm_compute.
  - destruct (remove_video_reports_absence
                (system one_video_extractor length_store utf8_console)
                (lit "xyz") (greeting_index, tt)) as (_ & _ & H).
    destruct (H unit one_video_extractor length_store utf8_console
                greeting_index tt utf8_console_accepts) as (_ & _ & Hnone).
    destruct Hnone as [_ Hr]; [by vm_compute|exact Hr].
Defined.

(** C10 as the specification states it fails on the code.  On a
    standard output that encodes to ASCII, [remove_video] of an absent
    video whose id has another letter raises: the print that reports
    the absence raises, and so does the print of the handler. *)
Lemma remove_video_raises :
  System.remove_video (system one_video_extractor length_store ascii_console)
    accented_id ([], tt)
  = (Raises (OtherError "'ascii' codec can't encode character"), ([], tt)).
Proof. by vm_compute. Qed.

(** * Further properties *)

(** *** The chunks as parts of the text *)

Section ChunkContents.
Import Chunker.

Lemma substring_trans a b c : substring a b -> substring b c -> substring a c.
Proof.
  intros (p1 & q1 & ->) (p2 & q2 & ->). exists (p2 ++ p1), (q1 ++ q2).
  by rewrite <- !app_assoc.
Qed.

Lemma slice_substring s a b : substring (slice s a b) s.
Proof.
  unfold slice.
  set (a' := Z.to_nat (slice_bound (len s) a)).
  set (n := Z.to_nat (slice_bound (len s) b - slice_bound (len s) a)).
  exists (take a' s), (drop n (drop a' s)). by rewrite !take_drop.
Qed.

Lemma rstrip_prefix s : exists ws, s = rstrip s ++ ws.
Proof.
  unfold rstrip. destruct (lstrip_suffix (rev s)) as [ws H]. exists (rev ws).
  rewrite <- rev_app_distr, <- H. by rewrite rev_involutive.
Qed.

Lemma strip_substring s : substring (strip s) s.
Proof.
  unfold strip. destruct (lstrip_suffix s) as [ws Hl].
  destruct (rstrip_prefix (lstrip s)) as [ws' Hr].
  exists ws, ws'. by rewrite <- Hr.
Qed.

Lemma lstrip_head s ch : head (lstrip s) = Some ch -> is_space ch = false.
Proof.
  induction s as [|c s IH]; simpl; [done|].
  destruct (is_space c) eqn:Hc; [done|]. simpl. by intros [= <-].
Qed.

Lemma last_rev {A} (l : list A) : last (rev l) = head l.
Proof. destruct l as [|x l]; simpl; [done|]. by rewrite last_snoc. Qed.

Lemma rstrip_last s ch : last (rstrip s) = Some ch -> is_space ch = false.
Proof. unfold rstrip. rewrite last_rev. apply lstrip_head. Qed.

Lemma rstrip_head s ch ch' :
  head s = Some ch -> head (rstrip s) = Some ch' -> ch' = ch.
Proof.
  destruct (rstrip_prefix s) as [ws H]. intros Hs Hr. rewrite H in Hs.
  destruct (rstrip s) as [|x r]; [done|]. simpl in *. congruence.
Qed.

(** Neither end of a stripped string is white space. *)
Lemma strip_ends s ch :
  head (strip s) = Some ch \/ last (strip s) = Some ch -> is_space ch = false.
Proof.
  unfold strip. intros [Hh|Hl]; [|by eapply rstrip_last].
  destruct (head (lstrip s)) as [c|] eqn:Hc.
  - rewrite (rstrip_head _ c ch Hc Hh). by eapply lstrip_head.
  - apply head_None in Hc. rewrite Hc in Hh. done.
Qed.

Lemma cut_inv text span c :
  cut text span = Some c -> c = strip (slice text span.1 span.2) /\ c <> [].
Proof.
  unfold cut. destruct (truthy _) eqn:Ht; [|done]. intros [= <-].
  split; [done|]. by apply truthy_nonempty.
Qed.

(** X1 (chunks are parts of the text).
    The chunks are contiguous parts of the text: each occurs in the text
    as it is, between two positions. *)
Theorem chunk_text_substrings fuel text cs ov chunks :
  chunk_text_with fuel text cs ov = Some chunks ->
  Forall (fun c => substring c text) chunks.
Proof.
  unfold chunk_text_with. destruct (len text <=? cs).
  - intros [= <-]. apply Forall_singleton. exists [], []. by rewrite app_nil_r.
  - intros Hrun. apply chunk_loop_spans in Hrun as ->. simpl.
    apply Forall_forall. intros c Hc.
    apply list_elem_of_omap in Hc as (span & _ & Hcut).
    apply cut_inv in Hcut as [-> _].
    eapply substring_trans; [apply strip_substring|apply slice_substring].
Qed.

Lemma chunk_text_substrings_witness :
  Forall (fun c => substring c two_sentences)
    [rep 50 "a"%char ++ lit "."; rep 3 "a"%char ++ lit ". " ++ rep 98 "b"%char].
Proof. apply (chunk_text_substrings 3 two_sentences 110 5). by vm_compute. Defined.

(** X2 (chunks are stripped).
    The chunks cut by the loop, for a text longer than the chunk size,
    neither start nor end with white space. *)
Theorem chunk_text_stripped fuel text cs ov chunks :
  cs < len text ->
  chunk_text_with fuel text cs ov = Some chunks ->
  Forall (fun c => forall ch,
            head c = Some ch \/ last c = Some ch -> is_space ch = false)
    chunks.
Proof.
  intros Hlong. unfold chunk_text_with.
  destruct (Z.leb_spec (len text) cs); [lia|].
  intros Hrun. apply chunk_loop_spans in Hrun as ->. simpl.
  apply Forall_forall. intros c Hc.
  apply list_elem_of_omap in Hc as (span & _ & Hcut).
  apply cut_inv in Hcut as [-> _]. apply strip_ends.
Qed.

Lemma chunk_text_stripped_witness :
  Forall (fun c => forall ch,
            head c = Some ch \/ last c = Some ch -> is_space ch = false)
    [rep 50 "a"%char ++ lit "."; rep 3 "a"%char ++ lit ". " ++ rep 98 "b"%char].
Proof.
  apply (chunk_text_stripped 3 two_sentences 110 5); by vm_compute.
Defined.

(** X3 (deciding termination).
    Whether [chunk_text] returns is decided by [len(text) + 1]
    iterations of its loop. *)
Theorem chunk_text_halting text cs ov :
  (exists fuel, is_Some (chunk_text_with fuel text cs ov))
  <-> is_Some (chunk_text_with (S (length text)) text cs ov).
Proof.
  split; [|by exists (S (length text))].
  intros [fuel [chunks Hrun]].
  destruct (chunk_text_with (S (length text)) text cs ov) as [r|] eqn:Hn;
    [done|].
  rewrite (chunk_text_hangs text cs ov Hn fuel) in Hrun. done.
Qed.

End ChunkContents.

(** *** Coverage of the text by the cuts *)

Section Coverage.
Import Chunker.

Lemma slice_lookup text s e p :
  0 <= s <= p -> p < e -> p < len text ->
  slice text s e !! Z.to_nat (p - s) = text !! Z.to_nat p.
Proof.
  intros Hs He Hp. unfold slice, slice_bound.
  destruct (Z.ltb_spec s 0), (Z.ltb_spec e 0); try lia.
  rewrite lookup_take_lt by lia. rewrite lookup_drop. f_equal. lia.
Qed.

Lemma spans_cover text cs ov :
  0 <= ov -> 99 <= cs - ov ->
  forall fuel start,
    (Z.to_nat (len text - start) < fuel)%nat ->
    forall p, start <= p < len text ->
      exists s e, (s, e) ∈ spans fuel text cs ov start
                  /\ start <= s <= p /\ p < e.
Proof.
  intros Hov Hcfg. induction fuel as [|fuel IH]; intros start Hfuel p Hp; [lia|].
  simpl. destruct (Z.ltb_spec start (len text)); [|lia].
  pose proof (chunk_end_bounds text cs start) as Hb.
  destruct (Z.lt_ge_cases p (chunk_end text cs start)) as [Hin|Hout].
  - exists start, (chunk_end text cs start).
    split; [apply list_elem_of_here|lia].
  - destruct (Z.geb_spec (chunk_end text cs start - ov) (len text)); [lia|].
    destruct (IH (chunk_end text cs start - ov) ltac:(lia) p ltac:(lia))
      as (s & e & Hin & Hs & He).
    exists s, e. split; [by apply list_elem_of_further|lia].
Qed.

(** X4 (no gap between cuts).
    With an overlap that is not negative and is at least 99 below the
    chunk size, the cuts leave no gap: every position of a text longer
    than the chunk size lies in the cut [text[start:end]] of some
    iteration, which holds the character of that position. *)
Theorem chunk_spans_cover text cs ov p :
  cs < len text -> 0 <= ov -> 99 <= cs - ov ->
  0 <= p < len text ->
  exists s e,
    (s, e) ∈ spans (S (length text)) text cs ov 0
    /\ 0 <= s <= p /\ p < e
    /\ slice text s e !! Z.to_nat (p - s) = text !! Z.to_nat p.
Proof.
  intros _ Hov Hcfg Hp.
  destruct (spans_cover text cs ov Hov Hcfg (S (length text)) 0
              ltac:(unfold len; lia) p Hp) as (s & e & Hin & Hs & He).
  exists s, e. split; [done|]. split; [done|]. split; [done|].
  apply slice_lookup; lia.
Qed.

Lemma chunk_spans_cover_witness :
  exists s e,
    (s, e) ∈ spans (S (length two_sentences)) two_sentences 110 5 0
    /\ 0 <= s <= 100 /\ 100 < e
    /\ slice two_sentences s e !! Z.to_nat (100 - s)
       = two_sentences !! Z.to_nat 100.
Proof.
  apply (chunk_spans_cover two_sentences 110 5 100); by vm_compute.
Defined.

(** Two iterations in a row: the second starts [overlap] before the end
    of the first. *)
Lemma spans_next fuel text cs ov start k s e s' e' :
  spans fuel text cs ov start !! k = Some (s, e) ->
  spans fuel text cs ov start !! S k = Some (s', e') ->
  e = chunk_end text cs s /\ s' = e - ov /\ e' = chunk_end text cs s'
  /\ s < len text /\ s' < len text.
Proof.
  revert start k. induction fuel as [|fuel IH]; intros start k; simpl; [done|].
  destruct (Z.ltb_spec start (len text)) as [Hlt|]; [|done].
  destruct k as [|k]; simpl.
  - intros [= <- <-].
    destruct (Z.geb_spec (chunk_end text cs start - ov) (len text)) as [|Hnext];
      [done|].
    destruct fuel as [|fuel]; simpl; [done|].
    destruct (Z.ltb_spec (chunk_end text cs start - ov) (len text)); [|done].
    simpl. intros [= <- <-]. done.
  - destruct (chunk_end text cs start - ov >=? len text); [done|]. apply IH.
Qed.

(** X5 (repeated tail).
    Once the end of a cut has reached the end of the text, a further
    iteration cuts nothing new: its cut is the rest of the previous cut
    from the position [overlap] before its end. *)
Theorem chunk_tail_repeats fuel text cs ov k s e s' e' :
  99 <= cs - ov ->
  spans fuel text cs ov 0 !! k = Some (s, e) ->
  spans fuel text cs ov 0 !! S k = Some (s', e') ->
  0 <= s -> len text <= e ->
  s < s' < len text
  /\ slice text s e = drop (Z.to_nat s) text
  /\ slice text s' e' = drop (Z.to_nat (s' - s)) (slice text s e).
Proof.
  intros Hcfg Hk Hk' Hs He.
  destruct (spans_next _ _ _ _ _ _ _ _ _ _ Hk Hk') as (-> & -> & -> & Hslt & Hs'lt).
  pose proof (chunk_end_bounds text cs s) as Hb.
  set (e := chunk_end text cs s) in *.
  pose proof (chunk_end_bounds text cs (e - ov)) as Hb'.
  assert (chunk_end text cs (e - ov) = e - ov + cs) as He'.
  { unfold chunk_end. destruct (Z.ltb_spec (e - ov + cs) (len text)); [lia|done]. }
  pose proof (len_nonneg text) as Hn.
  assert (forall a b, 0 <= a < len text -> len text <= b ->
            slice text a b = drop (Z.to_nat a) text) as Hdrop.
  { intros a b Ha Hb0. unfold slice, slice_bound.
    destruct (Z.ltb_spec a 0), (Z.ltb_spec b 0); try lia.
    rewrite (Z.min_l a), (Z.min_r b) by lia. apply take_ge. rewrite length_drop.
    unfold len in *. lia. }
  split; [lia|]. rewrite He'. rewrite !Hdrop by lia. split; [done|].
  rewrite drop_drop. f_equal. lia.
Qed.

Lemma chunk_tail_repeats_witness :
  slice (two_sentences ++ rep 5 "b"%char) 152 262
  = drop 105 (slice (two_sentences ++ rep 5 "b"%char) 47 157).
Proof.
  destruct (chunk_tail_repeats 4 (two_sentences ++ rep 5 "b"%char) 110 5 1
              47 157 152 262) as (_ & _ & H); [lia|by vm_compute..|].
  exact H.
Defined.

End Coverage.

(** *** Removing and re-indexing *)

Section RemoveAndReindex.


Lemma make_id_inj_index v : Inj (=) (=) (make_id v).
Proof. intros i j H. by apply make_id_inj in H as [_ ->]. Qed.

(** The ids that [add_transcript] hands to the collection are pairwise
    different. *)
Lemma prepare_ids_NoDup v md segs chunks :
  NoDup (prepare v md segs chunks).2.
Proof.
  rewrite prepare_spec. simpl.
  assert (map (fun ic : nat * str => make_id v ic.1) (enumerate chunks)
          = make_id v <$> seq 0 (length chunks)) as ->.
  { unfold enumerate. rewrite <- (fst_zip (seq 0 (length chunks)) chunks) at 2
      by (rewrite length_seq; lia).
    by rewrite <- list_fmap_compose. }
  pose proof (make_id_inj_index v) as Hinj.
  apply (NoDup_fmap_2 (make_id v)). apply NoDup_seq.
Qed.








(** X9 (record ids).
    Record ids never collide: the id [f"{video_id}_{i}"] determines both
    the video id, whatever characters it contains, and the chunk index;
    the ids of one call are pairwise different. *)
Theorem record_ids_unique :
  (forall v v' i i', make_id v i = make_id v' i' <-> v = v' /\ i = i')
  /\ (forall v md segs chunks, NoDup (prepare v md segs chunks).2).
Proof.
  split; [|apply prepare_ids_NoDup].
  intros v v' i i'. split; [apply make_id_inj|by intros [-> ->]].
Qed.

End RemoveAndReindex.

(** *** The video records *)

Section VideoRecords.

Lemma value_eqb_str_iff (x : Value) v :
  value_eqb x (VStr v) = false <-> x <> VStr v.
Proof.
  rewrite <- (value_eqb_str_r x v). by destruct (value_eqb x (VStr v)).
Qed.

Lemma assoc_mem_str v (videos : list (Value * VideoRecord)) :
  assoc_mem (VStr v) videos = true <-> VStr v ∈ map fst videos.
Proof.
  unfold assoc_mem. induction videos as [|kv videos IH]; simpl.
  - by rewrite elem_of_nil.
  - rewrite orb_true_iff, IH, elem_of_cons, value_eqb_str_r.
    split; (intros [H|H]; [left|right]; done).
Qed.

Lemma assoc_update_fst key (videos : list (Value * VideoRecord)) :
  map fst (assoc_update key add_chunk videos) = map fst videos.
Proof.
  unfold assoc_update. induction videos as [|kv videos IH]; simpl; [done|].
  rewrite IH. by destruct (value_eqb kv.1 key).
Qed.

Lemma assoc_update_absent v (videos : list (Value * VideoRecord)) :
  VStr v ∉ map fst videos ->
  assoc_update (VStr v) add_chunk videos = videos.
Proof.
  unfold assoc_update. induction videos as [|kv videos IH]; simpl; [done|].
  rewrite not_elem_of_cons. intros [Hne Hnin].
  rewrite IH by done. apply not_eq_sym, value_eqb_str_iff in Hne.
  by rewrite Hne.
Qed.

Lemma chunk_total_app r1 r2 :
  chunk_total (r1 ++ r2) = chunk_total r1 + chunk_total r2.
Proof.
  unfold chunk_total. induction r1 as [|r r1 IH]; simpl; [done|]. lia.
Qed.

(** With keys that are pairwise different, counting a chunk of a video
    that has a record adds one to the total. *)
Lemma chunk_total_update v (videos : list (Value * VideoRecord)) :
  NoDup (map fst videos) ->
  VStr v ∈ map fst videos ->
  chunk_total (map snd (assoc_update (VStr v) add_chunk videos))
  = chunk_total (map snd videos) + 1.
Proof.
  induction videos as [|kv videos IH]; simpl.
  - intros _ H. by apply elem_of_nil in H.
  - intros Hnd Hin. apply NoDup_cons in Hnd as [Hnin Hnd].
    destruct (value_eqb kv.1 (VStr v)) eqn:Hk; simpl.
    + apply value_eqb_str_r in Hk. rewrite Hk in Hnin.
      fold (assoc_update (VStr v) add_chunk videos).
      rewrite assoc_update_absent by done. unfold chunk_total. simpl. lia.
    + apply value_eqb_str_iff in Hk.
      apply elem_of_cons in Hin as [Hin|Hin]; [congruence|].
      fold (assoc_update (VStr v) add_chunk videos).
      unfold chunk_total in *. simpl. rewrite IH by done. lia.
Qed.

Lemma count_step_total v md (videos : list (Value * VideoRecord)) :
  NoDup (map fst videos) ->
  Forall (fun kv => vr_video_id kv.2 = kv.1) videos ->
  NoDup (map fst (count_step videos (VStr v) md))
  /\ Forall (fun kv => vr_video_id kv.2 = kv.1) (count_step videos (VStr v) md)
  /\ chunk_total (map snd (count_step videos (VStr v) md))
     = chunk_total (map snd videos) + 1.
Proof.
  intros Hnd Hcons. unfold count_step. rewrite assoc_update_fst.
  destruct (assoc_mem (VStr v) videos) eqn:Hmem; simpl.
  - apply assoc_mem_str in Hmem. split; [done|].
    split; [by apply update_consistent|by apply chunk_total_update].
  - assert (VStr v ∉ map fst videos) as Hnin.
    { intros Hin. apply assoc_mem_str in Hin. congruence. }
    assert (NoDup (map fst (videos ++ [(VStr v, fresh_record (VStr v) md)])))
      as Hnd'.
    { rewrite map_app. simpl. apply NoDup_app. split; [done|].
      split; [|apply NoDup_singleton].
      intros x Hx Hx'. apply list_elem_of_singleton in Hx' as ->. done. }
    split; [done|]. split.
    + apply update_consistent, Forall_app. split; [done|].
      by apply Forall_singleton.
    + rewrite chunk_total_update; [|done|].
      * rewrite map_app, chunk_total_app. unfold chunk_total at 2. simpl. lia.
      * rewrite map_app. apply elem_of_app. right. apply list_elem_of_here.
Qed.

Lemma count_loop_total metadatas (videos : list (Value * VideoRecord)) c :
  Forall (fun m => exists v, m !! "video_id" = Some (VStr v)) metadatas ->
  NoDup (map fst videos) ->
  Forall (fun kv => vr_video_id kv.2 = kv.1) videos ->
  exists videos',
    for_each metadatas videos count_metadata c = (Returns videos', c)
    /\ NoDup (map fst videos')
    /\ Forall (fun kv => vr_video_id kv.2 = kv.1) videos'
    /\ chunk_total (map snd videos')
       = chunk_total (map snd videos) + Z.of_nat (length metadatas).
Proof.
  revert videos. induction metadatas as [|m metadatas IH];
    intros videos Hall Hnd Hcons; simpl.
  - exists videos. repeat split; try done. lia.
  - apply Forall_cons in Hall as [[v Hv] Hall].
    unfold bind. rewrite (count_metadata_run _ _ (VStr v)) by done.
    destruct (count_step_total v m videos Hnd Hcons) as (Hnd' & Hcons' & Ht).
    destruct (IH _ Hall Hnd' Hcons') as (videos' & Hrun & Hnd'' & Hcons'' & Ht').
    exists videos'. repeat split; try done. lia.
Qed.

(** X10 (video records and statistics).
    [list_videos] and [get_collection_stats] on a collection whose
    records carry ids built from their video id: one record per video
    that has records and none for another, the chunk counts add up to the
    number of records of the collection, and the statistics report that
    number and the number of videos. *)
Theorem list_videos_totals self c :
  wf_collection c ->
  exists records stats,
    list_videos c = (Returns records, c)
    /\ NoDup (map vr_video_id records)
    /\ (forall v, VStr v ∈ map vr_video_id records
                  <-> exists e, e ∈ c /\ Store.has_video_id v e = true)
    /\ chunk_total records = Z.of_nat (length c)
    /\ get_collection_stats self c = (Returns stats, c)
    /\ stats !! "total_chunks" = Some (VInt (chunk_total records))
    /\ stats !! "total_videos" = Some (VInt (Z.of_nat (length records))).
Proof.
  intros Hwf.
  assert (Forall (fun m => exists v, m !! "video_id" = Some (VStr v))
            (map metadata c)) as Hall.
  { apply Forall_fmap. eapply Forall_impl; [exact Hwf|].
    intros e (v & i & Hm & _). by exists v. }
  destruct (count_loop_total (map metadata c) [] c Hall)
    as (videos & Hrun & Hnd & Hcons & Ht); [constructor|constructor|].
  assert (list_videos c = (Returns (map snd videos), c)) as Hlist.
  { unfold list_videos, try_except, bind, Store.get_metadatas. by rewrite Hrun. }
  assert (map vr_video_id (map snd videos) = map fst videos) as Hids.
  { clear -Hcons. induction videos as [|kv videos IH]; simpl; [done|].
    apply Forall_cons in Hcons as [-> Hcons]. by rewrite IH. }
  destruct (get_collection_stats_run self c _ Hlist) as (stats & Hs & Htc & Htv).
  exists (map snd videos), stats. split; [done|].
  split; [by rewrite Hids|]. split.
  { intros v. destruct (list_videos_of_video v c Hwf) as (records & Hl & Hcase).
    rewrite Hlist in Hl. injection Hl as <-. simpl in Hcase.
    assert (forall rs : list VideoRecord,
              VStr v ∈ map vr_video_id rs
              <-> List.filter (fun r => value_eqb (vr_video_id r) (VStr v)) rs
                  <> []) as Hfilter.
    { induction rs as [|r rs IH]; simpl; [by rewrite elem_of_nil|].
      rewrite elem_of_cons, IH.
      destruct (value_eqb (vr_video_id r) (VStr v)) eqn:Hk.
      - apply value_eqb_str_r in Hk. split; [done|]. intros _. by left.
      - apply value_eqb_str_iff in Hk. split; [|by right].
        intros [Heq|Hin]; [congruence|done]. }
    rewrite Hfilter.
    assert ((exists e, e ∈ c /\ Store.has_video_id v e = true)
            <-> List.filter (Store.has_video_id v) c <> []) as ->.
    { split.
      - intros (e & He & Hv) Hnil.
        assert (e ∈ List.filter (Store.has_video_id v) c) as H
          by by apply elem_of_filter_bool.
        rewrite Hnil in H. by apply elem_of_nil in H.
      - destruct (List.filter (Store.has_video_id v) c) as [|e l] eqn:Hf; [done|].
        intros _. exists e. apply elem_of_filter_bool. rewrite Hf.
        apply list_elem_of_here. }
    destruct Hcase as [[Hz ->]|(Hpos & r & -> & _)].
    - split; [done|]. intros H.
      destruct (List.filter (Store.has_video_id v) c); [done|].
      simpl in Hz. lia.
    - split; [|done]. intros _ Hnil. rewrite Hnil in Hpos. simpl in Hpos. lia. }
  change (chunk_total (map snd [])) with 0 in Ht.
  rewrite length_map, Z.add_0_l in Ht.
  split; [done|]. split; [done|]. split; [|done].
  by rewrite Htc, Ht.
Qed.

Lemma list_videos_totals_witness :
  exists records,
    list_videos greeting_again_index = (Returns records, greeting_again_index)
    /\ chunk_total records = 2.
Proof.
  destruct (list_videos_totals length_store greeting_again_index)
    as (records & stats & Hl & _ & _ & Ht & _).
  - assert (wf_collection greeting_index) as Hwf.
    { assert (greeting_index = [greeting_entry]) as -> by by vm_compute.
      apply Forall_singleton. exists (lit "abc"), 0%nat. split; by vm_compute. }
    apply (add_transcript_wf length_store greeting_again) in Hwf. exact Hwf.
  - exists records. split; [exact Hl|]. rewrite Ht. by vm_compute.
Defined.

Lemma count_loop_missing metadatas (videos : list (Value * VideoRecord))
    (st : Collection) m :
  m ∈ metadatas -> m !! "video_id" = None ->
  for_each metadatas videos count_metadata st
  = (Raises (KeyError "video_id"), st).
Proof.
  intros Hm Hnone. revert videos.
  induction metadatas as [|x metadatas IH]; intros videos;
    [by apply elem_of_nil in Hm|].
  simpl. unfold bind at 1.
  destruct (x !! "video_id") as [key|] eqn:Hkey.
  - rewrite (count_metadata_run _ _ key) by done.
    apply elem_of_cons in Hm as [->|Hm]; [congruence|]. by apply IH.
  - unfold count_metadata, bind, dict_index. by rewrite Hkey.
Qed.

(** X11 (a record without video id).
    One record without the key [video_id] hides every video: the
    [KeyError] is caught, [list_videos] returns the empty list without
    raising, and the statistics report no video beside the true number
    of chunks. *)
Theorem list_videos_missing_key self c e :
  e ∈ c -> metadata e !! "video_id" = None ->
  list_videos c = (Returns [], c)
  /\ exists stats,
       get_collection_stats self c = (Returns stats, c)
       /\ stats !! "total_videos" = Some (VInt 0)
       /\ stats !! "total_chunks" = Some (VInt (Z.of_nat (length c))).
Proof.
  intros He Hnone.
  assert (list_videos c = (Returns [], c)) as Hlist.
  { unfold list_videos, try_except, bind, Store.get_metadatas.
    rewrite (count_loop_missing (map metadata c) [] c (metadata e)); [done| |done].
    by apply list_elem_of_fmap_2. }
  split; [done|].
  destruct (get_collection_stats_run self c [] Hlist) as (stats & Hs & Htc & Htv).
  by exists stats.
Qed.

Lemma list_videos_missing_key_witness :
  list_videos [ {| id := lit "x"; document := lit "text"; metadata := ∅;
                   embedding := [] |}; greeting_entry ]
  = (Returns [],
     [ {| id := lit "x"; document := lit "text"; metadata := ∅;
          embedding := [] |}; greeting_entry ]).
Proof.
  eapply (list_videos_missing_key length_store).
  - apply list_elem_of_here.
  - reflexivity.
Defined.

End VideoRecords.

(** *** The metadata of a record *)

Section RecordMetadata.

Lemma metadata_entry_counts v md i chunk segs :
  metadata_entry v md i chunk segs !! "text_length" = Some (VInt (len chunk))
  /\ metadata_entry v md i chunk segs !! "segments_count"
     = Some (VInt (Z.of_nat (length segs))).
Proof.
  unfold metadata_entry. destruct segs as [|seg rest]; simpl; split;
    rewrite !lookup_insert_ne by done; by rewrite lookup_insert_eq.
Qed.

Lemma metadata_entry_video v md i chunk segs :
  metadata_entry v md i chunk segs !! "video_title"
  = Some (default (VStr (lit "Unknown")) (md !! "title"))
  /\ metadata_entry v md i chunk segs !! "uploader"
     = Some (default (VStr (lit "Unknown")) (md !! "uploader"))
  /\ metadata_entry v md i chunk segs !! "upload_date"
     = Some (default (VStr (lit "Unknown")) (md !! "upload_date"))
  /\ metadata_entry v md i chunk segs !! "video_url"
     = Some (default (VStr []) (md !! "url"))
  /\ metadata_entry v md i chunk segs !! "duration"
     = Some (default (VInt 0) (md !! "duration")).
Proof.
  unfold metadata_entry, dict_get. destruct segs as [|seg rest]; simpl;
    repeat split; rewrite !lookup_insert_ne by done; by rewrite lookup_insert_eq.
Qed.

(** X12 (metadata of a record).
    After a call of [add_transcript] that returns, every record of the
    video describes its own document: [text_length] is the length of the
    document, [segments_count] the number of segments that the mapper
    matches in it, and the fields of the video are those of the
    transcript's metadata, with ['Unknown'], [''] and [0] for a missing
    title, uploader or date, url and duration. *)
Theorem add_transcript_metadata self td c n c' :
  add_transcript self td c = (Returns n, c') ->
  forall e, e ∈ c' -> Store.has_video_id (td_video_id td) e = true ->
    metadata e !! "text_length" = Some (VInt (len (document e)))
    /\ metadata e !! "segments_count"
       = Some (VInt (Z.of_nat (length
            (find_segments_for_chunk (document e)
               (default [] (td_segments td))))))
    /\ metadata e !! "video_title"
       = Some (default (VStr (lit "Unknown")) (td_metadata td !! "title"))
    /\ metadata e !! "uploader"
       = Some (default (VStr (lit "Unknown")) (td_metadata td !! "uploader"))
    /\ metadata e !! "upload_date"
       = Some (default (VStr (lit "Unknown")) (td_metadata td !! "upload_date"))
    /\ metadata e !! "video_url"
       = Some (default (VStr []) (td_metadata td !! "url"))
    /\ metadata e !! "duration"
       = Some (default (VInt 0) (td_metadata td !! "duration")).
Proof.
  intros Hrun e He Hv.
  apply add_transcript_returns in Hrun
    as (chunks & embs & _ & _ & _ & _ & _ & ->).
  apply video_entry_is_built in He; [|done].
  apply built_entry_inv in He as (i & chunk & emb & _ & _ & ->). simpl.
  destruct (metadata_entry_counts (td_video_id td) (td_metadata td) i chunk
              (find_segments_for_chunk chunk (default [] (td_segments td))))
    as [-> ->].
  split; [done|]. split; [done|]. apply metadata_entry_video.
Qed.

Lemma add_transcript_metadata_witness :
  metadata greeting_entry !! "text_length" = Some (VInt 16)
  /\ metadata greeting_entry !! "segments_count" = Some (VInt 2)
  /\ metadata greeting_entry !! "uploader" = Some (VStr (lit "Unknown")).
Proof.
  destruct (add_transcript_metadata length_store greeting [] 1 greeting_index)
    with (e := greeting_entry) as (Hl & Hs & _ & Hu & _).
  - by vm_compute.
  - vm_compute. apply list_elem_of_here.
  - by vm_compute.
  - split; [exact Hl|]. split; [exact Hs|exact Hu].
Defined.

End RecordMetadata.

(** *** Answering a question *)

Section AnsweringProperties.
Context {St : Type}.
Implicit Types self : Answering St.

(** What [ask_question] gives once its body raised: the handler prints
    and returns the error text. *)
Lemma ask_question_caught self question top_k st e st1 :
  (let k := Some (default (TOP_K_RESULTS (answering_config self)) top_k) in
   vector_store_search self question k st = (Raises e, st1)
   \/ exists r context st0,
        vector_store_search self question k st = (Returns (r :: context), st0)
        /\ llm_generate_answer self question (r :: context) st0
           = (Raises e, st1)) ->
  ask_question self question top_k st
  = (let* _ := print (answering_builtins self) (error_answering self e) in
     ret (error_answer self e)) st1.
Proof.
  cbv zeta. unfold ask_question, try_except.
  intros [Hs|(r & context & st0 & Hs & Hl)].
  - unfold bind at 1. by rewrite Hs.
  - rewrite (bind_run _ _ _ _ _ Hs). unfold bind at 1. by rewrite Hl.
Qed.

(** X13 (outcomes of answering).
    [ask_question] returns the fixed message, without asking the
    language model, when the search finds nothing, and the answer of the
    language model when that returns.  When the search or the language
    model raises, the handler prints the exception: if the print returns,
    the error text with [str(e)] is returned, and if the print raises,
    that exception leaves [ask_question].  No other exception leaves it,
    so it raises none when the standard output takes every message.
    [get_relevant_sources] has no handler: it raises what the search
    raises. *)
Theorem ask_question_outcomes self question top_k st :
  let k := Some (default (TOP_K_RESULTS (answering_config self)) top_k) in
  (forall st1,
      vector_store_search self question k st = (Returns [], st1) ->
      ask_question self question top_k st = (Returns no_information, st1))
  /\ (forall r context st1 answer st2,
        vector_store_search self question k st = (Returns (r :: context), st1) ->
        llm_generate_answer self question (r :: context) st1
        = (Returns answer, st2) ->
        ask_question self question top_k st = (Returns answer, st2))
  /\ (forall e st1,
        (vector_store_search self question k st = (Raises e, st1)
         \/ exists r context st0,
              vector_store_search self question k st
              = (Returns (r :: context), st0)
              /\ llm_generate_answer self question (r :: context) st0
                 = (Raises e, st1)) ->
        (forall st2,
            print (answering_builtins self) (error_answering self e) st1
            = (Returns tt, st2) ->
            ask_question self question top_k st
            = (Returns (error_answer self e), st2))
        /\ (forall e' st2,
              print (answering_builtins self) (error_answering self e) st1
              = (Raises e', st2) ->
              ask_question self question top_k st = (Raises e', st2)))
  /\ (forall e st1,
        vector_store_search self question k st = (Raises e, st1) ->
        get_relevant_sources self question top_k st = (Raises e, st1))
  /\ (forall e st',
        ask_question self question top_k st = (Raises e, st') ->
        exists e0 st0,
          print (answering_builtins self) (error_answering self e0) st0
          = (Raises e, st'))
  /\ (accepts (answering_builtins self) ->
      forall e, (ask_question self question top_k st).1 <> Raises e).
Proof.
  cbv zeta.
  assert (forall e st',
            ask_question self question top_k st = (Raises e, st') ->
            exists e0 st0,
              print (answering_builtins self) (error_answering self e0) st0
              = (Raises e, st')) as Hraise.
  { intros e st' H. apply try_except_raises in H as (e0 & st0 & _ & H).
    apply print_then_raises in H. by exists e0, st0. }
  split; [|split; [|split; [|split; [|split]]]].
  - intros st1 Hs. unfold ask_question, try_except.
    by rewrite (bind_run _ _ _ _ _ Hs).
  - intros r context st1 answer st2 Hs Hl. unfold ask_question, try_except.
    by rewrite (bind_run _ _ _ _ _ Hs), (bind_run _ _ _ _ _ Hl).
  - intros e st1 Hbody. rewrite (ask_question_caught _ _ _ _ _ _ Hbody).
    split.
    + intros st2 Hp. by rewrite (bind_run _ _ _ _ _ Hp).
    + intros e' st2 Hp. unfold bind. by rewrite Hp.
  - intros e st1 Hs. unfold get_relevant_sources. by rewrite Hs.
  - exact Hraise.
  - intros Hacc e.
    destruct (ask_question self question top_k st) as [o st'] eqn:Hrun.
    simpl. intros ->. destruct (Hraise e st' eq_refl) as (e0 & st0 & Hp).
    destruct (Hacc (error_answering self e0) st0) as [st2 Hp']. congruence.
Qed.

End AnsweringProperties.

Lemma ask_question_outcomes_witness :
  ask_question (echo_answering length_store utf8_console) (lit "what?") None
    greeting_index = (Returns no_information, greeting_index)
  /\ (ask_question (echo_answering length_store utf8_console) (lit "what?")
        None greeting_index).1 <> Raises IndexError.
Proof.
  destruct (ask_question_outcomes (echo_answering length_store utf8_console)
              (lit "what?") None greeting_index)
    as (Hnone & _ & _ & _ & _ & Hquiet).
  split.
  - apply Hnone. reflexivity.
  - apply Hquiet. apply utf8_console_accepts.
Defined.

(** X14 (embedding failure while answering).
    On the vector store of the repository [search] has no handler, so a
    failure of the embedding model on the question comes out of it as an
    exception, with the collection unchanged.  [ask_question] prints it:
    when the print returns it returns the error text, and when the print
    raises, that exception leaves [ask_question]. *)
Theorem ask_question_embedding_failure store
    (self : Answering Collection) question top_k c e :
  vector_store_search self = search store ->
  encode store [question] = Raises e ->
  search store question top_k c = (Raises e, c)
  /\ (forall c',
        print (answering_builtins self) (error_answering self e) c
        = (Returns tt, c') ->
        ask_question self question top_k c
        = (Returns (error_answer self e), c'))
  /\ (forall e' c',
        print (answering_builtins self) (error_answering self e) c
        = (Raises e', c') ->
        ask_question self question top_k c = (Raises e', c')).
Proof.
  intros Hsearch Henc.
  assert (forall k, search store question k c = (Raises e, c)) as Hraise.
  { intros k. unfold search, bind, lift. by rewrite Henc. }
  split; [done|].
  assert (ask_question self question top_k c
          = (let* _ := print (answering_builtins self)
                         (error_answering self e) in
             ret (error_answer self e)) c) as ->.
  { apply ask_question_caught. left. by rewrite Hsearch. }
  split.
  - intros c' Hp. by rewrite (bind_run _ _ _ _ _ Hp).
  - intros e' c' Hp. unfold bind. by rewrite Hp.
Qed.

Lemma ask_question_embedding_failure_witness :
  ask_question (echo_answering failing_store utf8_console) (lit "what?") None
    greeting_index
  = (Returns (error_prefix ++ lit "CUDA out of memory"), greeting_index).
Proof.
  destruct (ask_question_embedding_failure failing_store
              (echo_answering failing_store utf8_console) (lit "what?") None
              greeting_index (OtherError "CUDA out of memory")) as (_ & H & _);
    [reflexivity|reflexivity|].
  apply H. reflexivity.
Defined.

(** *** Acquiring transcripts *)

Section Acquisition.
Context {W : Type}.
Implicit Types self : TranscriptExtractor W.

Lemma for_each_app {A B} (xs ys : list A) (acc : B) (body : B -> A -> M W B) st :
  for_each (xs ++ ys) acc body st
  = bind (for_each xs acc body) (fun acc' => for_each ys acc' body) st.
Proof.
  revert acc st. induction xs as [|x xs IH]; intros acc st; simpl.
  - unfold bind, ret. done.
  - unfold bind. destruct (body acc x st) as [[acc'| |] st']; [|done..].
    rewrite IH. by unfold bind.
Qed.

Lemma batch_extract_loop self urls force_refresh acc st results st' :
  for_each urls acc
    (fun results url =>
       let* transcript_data :=
         extract_and_save_transcript self url force_refresh in
       match transcript_data with
       | Some td => ret (results ++ [td])
       | None => ret results
       end) st = (Returns results, st') ->
  exists new,
    results = acc ++ new
    /\ (length new <= length urls)%nat
    /\ Forall (fun td => exists url st1 st2,
                 url ∈ urls
                 /\ extract_and_save_transcript self url force_refresh st1
                    = (Returns (Some td), st2)) new.
Proof.
  revert acc st. induction urls as [|url urls IH]; intros acc st; simpl.
  - intros [= <- <-]. exists []. by rewrite app_nil_r.
  - intros Hrun. apply bind_returns in Hrun as (acc' & st1 & Hbody & Hrun).
    apply bind_returns in Hbody as (r & st0 & Hcall & Hret).
    apply IH in Hrun as (new & -> & Hlen & Hall).
    assert (Forall (fun td => exists url0 st2 st3,
                      url0 ∈ url :: urls
                      /\ extract_and_save_transcript self url0 force_refresh st2
                         = (Returns (Some td), st3)) new) as Hall'.
    { eapply Forall_impl; [exact Hall|]. intros td (u & s1 & s2 & Hu & Hr).
      exists u, s1, s2. split; [by apply list_elem_of_further|done]. }
    destruct r as [td|]; injection Hret as <- <-.
    + exists (td :: new). rewrite <- app_assoc. split; [done|].
      split; [simpl; lia|]. apply Forall_cons. split; [|done].
      exists url, st, st0. split; [apply list_elem_of_here|done].
    + exists new. split; [done|]. split; [simpl; lia|done].
Qed.

(** X15 (batch extraction).
    [batch_extract_transcripts] collects, in order, the transcripts of
    the urls for which one was obtained, so never more than there are
    urls.  Unlike [add_videos] it has no handler: when the call for one
    url raises, the batch raises and the transcripts obtained before are
    not returned. *)
Theorem batch_extract_no_isolation self force_refresh :
  (forall urls st results st',
      batch_extract_transcripts self urls force_refresh st
      = (Returns results, st') ->
      (length results <= length urls)%nat
      /\ Forall (fun td => exists url st1 st2,
                   url ∈ urls
                   /\ extract_and_save_transcript self url force_refresh st1
                      = (Returns (Some td), st2)) results)
  /\ (forall before url rest st results st1 e st2,
        batch_extract_transcripts self before force_refresh st
        = (Returns results, st1) ->
        extract_and_save_transcript self url force_refresh st1
        = (Raises e, st2) ->
        batch_extract_transcripts self (before ++ url :: rest) force_refresh st
        = (Raises e, st2)).
Proof.
  split.
  - intros urls st results st' Hrun.
    apply batch_extract_loop in Hrun as (new & -> & Hlen & Hall). done.
  - intros before url rest st results st1 e st2 Hbefore Hraise.
    unfold batch_extract_transcripts in *. rewrite for_each_app.
    unfold bind at 1. rewrite Hbefore. simpl. unfold bind at 1. unfold bind at 1.
    by rewrite Hraise.
Qed.

(** X16 (cached transcripts).
    A transcript that was fetched and saved is served from its file
    afterwards: when a saved file can be read back and the fetched
    transcript carries the id it was asked for, a call without
    [force_refresh] after a successful forced call returns the same
    transcript and leaves the files alone, whatever fetching and saving
    would do now. *)
Theorem extract_and_save_cached self self' url td st st' :
  (forall td0 w path w',
      save_transcript self td0 w = (Returns path, w') ->
      load_transcript self (td_video_id td0) w' = (Returns (Some td0), w')) ->
  (forall video_id w td0 w',
      extract_transcript self video_id w = (Returns (Some td0), w') ->
      td_video_id td0 = video_id) ->
  extract_video_id self' = extract_video_id self ->
  load_transcript self' = load_transcript self ->
  extract_and_save_transcript self url true st = (Returns (Some td), st') ->
  extract_and_save_transcript self' url false st' = (Returns (Some td), st').
Proof.
  intros Hfile Hid Hsame_id Hsame_load Hrun.
  unfold extract_and_save_transcript in *. rewrite Hsame_id, Hsame_load.
  apply bind_returns in Hrun as (vid & st0 & Hvid & Hrun).
  apply lift_returns in Hvid as [Hvid ->].
  unfold bind at 1. unfold lift. rewrite Hvid.
  destruct vid as [[|ch video_id]|]; try done. simpl in Hrun.
  apply bind_returns in Hrun as (cached & st0 & Hc & Hrun).
  injection Hc as <- <-.
  apply bind_returns in Hrun as (fetched & st1 & Hfetch & Hrun).
  destruct fetched as [td0|]; [|done].
  apply bind_returns in Hrun as (path & st2 & Hsave & Hrun).
  injection Hrun as <- <-.
  apply Hid in Hfetch. apply Hfile in Hsave. rewrite Hfetch in Hsave.
  simpl. unfold bind at 1. by rewrite Hsave.
Qed.

End Acquisition.

Lemma batch_extract_no_isolation_witness :
  batch_extract_transcripts readonly_extractor
    [lit "not a url"; lit "https://youtu.be/abc"; lit "never reached"] false ∅
  = (Raises (OtherError "Permission denied"), ∅).
Proof.
  destruct (batch_extract_no_isolation readonly_extractor false) as [_ H].
  apply (H [lit "not a url"] (lit "https://youtu.be/abc") [lit "never reached"]
           ∅ [] ∅); by vm_compute.
Defined.

Lemma extract_and_save_cached_witness :
  exists td files,
    extract_and_save_transcript file_extractor (lit "https://youtu.be/abc")
      true ∅ = (Returns (Some td), files)
    /\ extract_and_save_transcript offline_extractor
         (lit "https://youtu.be/abc") false files = (Returns (Some td), files).
Proof.
  destruct (extract_and_save_transcript file_extractor
              (lit "https://youtu.be/abc") true ∅) as [[[td|]| |] files] eqn:Hrun;
    try by vm_compute in Hrun.
  exists td, files. split; [done|].
  apply (extract_and_save_cached file_extractor offline_extractor _ _ ∅);
    try done.
  - intros td0 w path w' [= <- <-]. simpl. by rewrite lookup_insert_eq.
  - by intros video_id w td0 w' [= <- <-].
Defined.

(** *** Video ids *)

Section VideoIds.
Import VideoId.

Example extract_video_id_examples :
  extract_video_id (lit "https://www.youtube.com/watch?v=dQw4w9WgXcQ&t=42s")
  = Some (lit "dQw4w9WgXcQ")
  /\ extract_video_id (lit "https://youtu.be/dQw4w9WgXcQ?si=x")
     = Some (lit "dQw4w9WgXcQ")
  /\ extract_video_id (lit "https://www.youtube.com/watch?feature=share&v=abc#t")
     = Some (lit "abc")
  /\ extract_video_id (lit "https://www.youtube.com/watch?v=&v=abc&v=xyz")
     = Some (lit "xyz")
  /\ extract_video_id (lit "dQw4w9WgXcQ") = Some (lit "dQw4w9WgXcQ")
  /\ extract_video_id (lit "https://example.com/video") = None.
Proof. repeat split; reflexivity. Qed.

Lemma run_allowed s : Forall (fun c => allowed c = true) (run s).
Proof.
  induction s as [|c s IH]; simpl; [constructor|].
  destruct (allowed c) eqn:Hc; [|constructor]. by constructor.
Qed.

Lemma run_prefix s : exists rest, s = run s ++ rest.
Proof.
  induction s as [|c s [rest IH]]; simpl; [by exists []|].
  destruct (allowed c); [|by eexists].
  exists rest. simpl. by f_equal.
Qed.

Lemma run_all s : Forall (fun c => allowed c = true) s -> run s = s.
Proof.
  induction 1 as [|c s Hc _ IH]; simpl; [done|]. by rewrite Hc, IH.
Qed.

Lemma starts_with_app p s : starts_with (p ++ s) p = true.
Proof. apply starts_with_spec. by exists s. Qed.

Lemma group_after_inv p s r :
  group_after p s = Some r ->
  r <> [] /\ Forall (fun c => allowed c = true) r /\ substring r s.
Proof.
  unfold group_after. destruct (starts_with s p) eqn:Hp; [|done].
  apply starts_with_spec in Hp as [post ->]. rewrite drop_app_length.
  pose proof (run_allowed post) as Hall.
  destruct (run_prefix post) as [rest Hrest].
  destruct (run post) as [|c r'] eqn:Hrun; [done|]. intros [= <-].
  split; [done|]. split; [done|]. exists p, rest. by rewrite Hrest at 1.
Qed.

Lemma substring_cons r c s : substring r s -> substring r (c :: s).
Proof. intros (pre & post & ->). by exists (c :: pre), post. Qed.

Lemma substring_drop r n s : substring r (drop n s) -> substring r s.
Proof.
  intros (pre & post & H). exists (take n s ++ pre), post.
  rewrite <- app_assoc, <- H. by rewrite take_drop.
Qed.

Lemma last_v_inv rest r :
  last_v rest = Some r ->
  r <> [] /\ Forall (fun c => allowed c = true) r /\ substring r rest.
Proof.
  induction rest as [|c rest IH]; simpl; [done|].
  destruct (if bool_decide (c = "010"%char) then None else last_v rest)
    as [r'|] eqn:Hlater.
  - intros [= <-]. destruct (bool_decide (c = "010"%char)); [done|].
    destruct (IH Hlater) as (H1 & H2 & H3).
    split; [done|]. split; [done|]. by apply substring_cons.
  - apply group_after_inv.
Qed.

Lemma search_from_inv here s r :
  (forall s' r', here s' = Some r' ->
     r' <> [] /\ Forall (fun c => allowed c = true) r' /\ substring r' s') ->
  search_from here s = Some r ->
  r <> [] /\ Forall (fun c => allowed c = true) r /\ substring r s.
Proof.
  intros Hhere. induction s as [|c s IH]; simpl.
  - destruct (here []) eqn:Hh; [|done]. intros [= <-]. by apply Hhere.
  - destruct (here (c :: s)) eqn:Hh.
    + intros [= <-]. by apply Hhere.
    + intros H. destruct (IH H) as (H1 & H2 & H3).
      split; [done|]. split; [done|]. by apply substring_cons.
Qed.

Lemma pattern1_here_inv s r :
  pattern1_here s = Some r ->
  r <> [] /\ Forall (fun c => allowed c = true) r /\ substring r s.
Proof.
  unfold pattern1_here.
  destruct (group_after (lit "youtube.com/watch?v=") s) eqn:H1.
  { intros [= <-]. by eapply group_after_inv. }
  destruct (group_after (lit "youtu.be/") s) eqn:H2.
  { intros [= <-]. by eapply group_after_inv. }
  apply group_after_inv.
Qed.

Lemma pattern2_here_inv s r :
  pattern2_here s = Some r ->
  r <> [] /\ Forall (fun c => allowed c = true) r /\ substring r s.
Proof.
  unfold pattern2_here. destruct (starts_with s _); [|done]. intros H.
  apply last_v_inv in H as (H1 & H2 & H3).
  split; [done|]. split; [done|]. by eapply substring_drop.
Qed.

(** X17 (shape of a video id).
    The id that [extract_video_id] returns is never empty and is a part
    of the url.  When it comes from one of the two patterns it holds no
    ['&'], ['?'], ['#'] or newline; otherwise it is the url itself, of
    eleven id characters and possibly a final newline. *)
Theorem extract_video_id_result url video_id :
  extract_video_id url = Some video_id ->
  video_id <> []
  /\ substring video_id url
  /\ (Forall (fun c => allowed c = true) video_id
      \/ (video_id = url
          /\ Forall (fun c => id_char c = true) (take 11 url)
          /\ (length url = 11%nat \/ drop 11 url = ["010"%char]))).
Proof.
  unfold extract_video_id.
  destruct (search_from pattern1_here url) as [r|] eqn:H1.
  { intros [= <-].
    apply (search_from_inv _ _ _ pattern1_here_inv) in H1 as (? & ? & ?).
    split; [done|]. split; [done|]. by left. }
  destruct (search_from pattern2_here url) as [r|] eqn:H2.
  { intros [= <-].
    apply (search_from_inv _ _ _ pattern2_here_inv) in H2 as (? & ? & ?).
    split; [done|]. split; [done|]. by left. }
  destruct (bare_id url) eqn:Hb; [|done]. intros [= <-].
  unfold bare_id in Hb. apply andb_true_iff in Hb as [Hchars Hlen].
  apply orb_true_iff in Hlen. rewrite !bool_decide_eq_true in Hlen.
  split.
  { intros ->. destruct Hlen as [Hlen|Hlen]; simpl in Hlen; done. }
  split; [exists [], []; by rewrite app_nil_r|]. right.
  split; [done|]. split; [|done].
  apply Forall_forall. intros c Hc. apply list_elem_of_In in Hc.
  by eapply forallb_forall in Hchars.
Qed.

Lemma extract_video_id_result_witness :
  lit "abc" <> []
  /\ substring (lit "abc")
       (lit "https://www.youtube.com/watch?feature=share&v=abc#t").
Proof.
  destruct (extract_video_id_result
              (lit "https://www.youtube.com/watch?feature=share&v=abc#t")
              (lit "abc")) as (H1 & H2 & _); [reflexivity|done].
Defined.

Lemma search_from_skip here c s :
  here (c :: s) = None -> search_from here (c :: s) = search_from here s.
Proof. intros H. simpl. by rewrite H. Qed.

Lemma search_from_here here s r :
  here s = Some r -> search_from here s = Some r.
Proof. intros H. destruct s; simpl; by rewrite H. Qed.

Lemma pattern1_here_other c s :
  c <> "y"%char -> pattern1_here (c :: s) = None.
Proof.
  intros Hc. unfold pattern1_here, group_after. simpl.
  by rewrite !bool_decide_eq_false_2 by congruence.
Qed.

Lemma group_after_app p video_id :
  video_id <> [] -> Forall (fun c => allowed c = true) video_id ->
  group_after p (p ++ video_id) = Some video_id.
Proof.
  intros Hne Hall. unfold group_after.
  rewrite starts_with_app, drop_app_length, run_all by done.
  by destruct video_id.
Qed.

(** X18 (urls of a video id).
    The url that [get_video_metadata] builds for a video id leads back
    to the id, and so do the short and the embed forms: from
    [https://www.youtube.com/watch?v=ID], [https://youtu.be/ID] and
    [https://www.youtube.com/embed/ID] the id [ID] is extracted,
    whenever [ID] is not empty and holds no ['&'], ['?'], ['#'] or
    newline. *)
Theorem extract_video_id_watch_url video_id :
  video_id <> [] ->
  Forall (fun c => allowed c = true) video_id ->
  extract_video_id (watch_url video_id) = Some video_id
  /\ extract_video_id (lit "https://youtu.be/" ++ video_id) = Some video_id
  /\ extract_video_id (lit "https://www.youtube.com/embed/" ++ video_id)
     = Some video_id.
Proof.
  intros Hne Hall. unfold extract_video_id, watch_url.
  split; [|split].
  - change (lit "https://www.youtube.com/watch?v=" ++ video_id)
      with (lit "https://www." ++ lit "youtube.com/watch?v=" ++ video_id).
    change (lit "https://www.") with
      ["h";"t";"t";"p";"s";":";"/";"/";"w";"w";"w";"."]%char.
    cbn [app]. rewrite !search_from_skip by by apply pattern1_here_other.
    rewrite (search_from_here _ _ video_id); [done|].
    unfold pattern1_here. by rewrite group_after_app.
  - change (lit "https://youtu.be/" ++ video_id)
      with (lit "https://" ++ lit "youtu.be/" ++ video_id).
    change (lit "https://") with ["h";"t";"t";"p";"s";":";"/";"/"]%char.
    cbn [app]. rewrite !search_from_skip by by apply pattern1_here_other.
    rewrite (search_from_here _ _ video_id); [done|].
    unfold pattern1_here.
    assert (group_after (lit "youtube.com/watch?v=")
              (lit "youtu.be/" ++ video_id) = None) as ->.
    { unfold group_after. simpl. by rewrite ?bool_decide_eq_true_2. }
    by rewrite group_after_app.
  - change (lit "https://www.youtube.com/embed/" ++ video_id)
      with (lit "https://www." ++ lit "youtube.com/embed/" ++ video_id).
    change (lit "https://www.") with
      ["h";"t";"t";"p";"s";":";"/";"/";"w";"w";"w";"."]%char.
    cbn [app]. rewrite !search_from_skip by by apply pattern1_here_other.
    rewrite (search_from_here _ _ video_id); [done|].
    unfold pattern1_here.
    assert (group_after (lit "youtube.com/watch?v=")
              (lit "youtube.com/embed/" ++ video_id) = None) as ->.
    { unfold group_after. simpl. by rewrite ?bool_decide_eq_true_2. }
    assert (group_after (lit "youtu.be/")
              (lit "youtube.com/embed/" ++ video_id) = None) as ->.
    { unfold group_after. simpl. by rewrite ?bool_decide_eq_true_2. }
    by rewrite group_after_app.
Qed.

Lemma extract_video_id_watch_url_witness :
  extract_video_id (watch_url (lit "dQw4w9WgXcQ")) = Some (lit "dQw4w9WgXcQ").
Proof.
  destruct (extract_video_id_watch_url (lit "dQw4w9WgXcQ")) as [H _];
    [done|by repeat constructor|exact H].
Defined.

End VideoIds.

Section BareIds.
Import VideoId.

Lemma id_char_not_slash c : id_char c = true -> c <> "/"%char.
Proof. intros H ->. by vm_compute in H. Qed.

Lemma starts_with_elem s p c : starts_with s p = true -> c ∈ p -> c ∈ s.
Proof.
  intros Hp Hc. apply starts_with_spec in Hp as [post ->].
  apply elem_of_app. by left.
Qed.

Lemma group_after_no_slash p s :
  "/"%char ∈ p -> "/"%char ∉ s -> group_after p s = None.
Proof.
  intros Hp Hs. unfold group_after.
  destruct (starts_with s p) eqn:H; [|done].
  destruct Hs. by eapply starts_with_elem.
Qed.

Lemma pattern1_here_no_slash s : "/"%char ∉ s -> pattern1_here s = None.
Proof.
  intros Hs. unfold pattern1_here.
  rewrite !group_after_no_slash; try done;
    apply (bool_decide_unpack _); by vm_compute.
Qed.

Lemma pattern2_here_no_slash s : "/"%char ∉ s -> pattern2_here s = None.
Proof.
  intros Hs. unfold pattern2_here.
  destruct (starts_with s _) eqn:H; [|done].
  destruct Hs. eapply starts_with_elem; [exact H|].
  apply (bool_decide_unpack _). by vm_compute.
Qed.

Lemma search_from_no_slash here s :
  (forall s', "/"%char ∉ s' -> here s' = None) ->
  "/"%char ∉ s -> search_from here s = None.
Proof.
  intros Hhere. induction s as [|c s IH]; intros Hs; simpl.
  - by rewrite Hhere.
  - rewrite Hhere by done. apply IH. intros H. apply Hs. by right.
Qed.

(** X19 (bare video ids).
    A string of eleven letters, digits, underscores and hyphens is its
    own video id.  So is such a string with a newline behind it: the
    newline is returned with it. *)
Theorem extract_video_id_bare url :
  length url = 11%nat ->
  Forall (fun c => id_char c = true) url ->
  extract_video_id url = Some url
  /\ extract_video_id (url ++ ["010"%char]) = Some (url ++ ["010"%char]).
Proof.
  intros Hlen Hchars.
  assert ("/"%char ∉ url) as Hurl.
  { intros H. eapply Forall_forall in Hchars; [|exact H].
    by apply id_char_not_slash in Hchars. }
  assert ("/"%char ∉ url ++ ["010"%char]) as Hurl'.
  { intros [H|H]%elem_of_app; [done|].
    apply list_elem_of_singleton in H. done. }
  assert (forallb id_char url = true) as Hall.
  { apply forallb_forall. intros c Hc. apply list_elem_of_In in Hc.
    by eapply Forall_forall in Hchars. }
  unfold extract_video_id.
  rewrite !(search_from_no_slash pattern1_here)
    by auto using pattern1_here_no_slash.
  rewrite !(search_from_no_slash pattern2_here)
    by auto using pattern2_here_no_slash.
  unfold bare_id. split.
  - rewrite take_ge by lia. rewrite Hall. simpl.
    by rewrite (bool_decide_eq_true_2 _ Hlen).
  - rewrite take_app_length' by done. rewrite Hall. simpl.
    rewrite drop_app_length' by done.
    rewrite (bool_decide_eq_true_2 ([_] = [_])) by done.
    by rewrite orb_true_r.
Qed.

Lemma extract_video_id_bare_witness :
  extract_video_id (lit "dQw4w9WgXcQ") = Some (lit "dQw4w9WgXcQ").
Proof.
  destruct (extract_video_id_bare (lit "dQw4w9WgXcQ")) as [H _];
    [reflexivity|by repeat constructor|exact H].
Defined.

End BareIds.

(** *** Cleaning a model response *)

Section CleanResponse.
Import Llm.

Example clean_response_examples :
  clean_response
    (lit "Answer: 42" ++ "010"%char :: lit "  It is 42.<pad>"
     ++ "010"%char :: lit "Question: why?" ++ "010"%char :: "010"%char
     :: lit " Because. <|endoftext|>")
  = lit "It is 42. Because."
  /\ clean_response (lit "<|endo<|endoftext|>ftext|>") = lit "<|endoftext|>"
  /\ clean_response (lit "Answer:") = [].
Proof. repeat split; reflexivity. Qed.

Lemma split_no_sep s sep : Forall (fun line => sep ∉ line) (split s sep).
Proof.
  induction s as [|c s IH]; simpl.
  - repeat constructor. by intros ?%elem_of_nil.
  - destruct (bool_decide (c = sep)) eqn:Hc.
    + constructor; [by intros ?%elem_of_nil|done].
    + apply bool_decide_eq_false in Hc.
      destruct (split s sep) as [|line lines].
      * repeat constructor. intros H%list_elem_of_singleton. congruence.
      * apply Forall_cons in IH as [Hl Hls]. constructor; [|done].
        intros [->|H]%elem_of_cons; done.
Qed.

Lemma substring_elem (r s : str) c : substring r s -> c ∈ r -> c ∈ s.
Proof.
  intros (pre & post & ->) H. apply elem_of_app. right.
  apply elem_of_app. by left.
Qed.

Lemma strip_clean line :
  "010"%char ∉ line ->
  truthy (strip line) && negb (starts_with_label (strip line)) = true ->
  clean_line (strip line).
Proof.
  intros Hnl [Ht Hl%negb_true_iff]%andb_true_iff.
  split; [by apply truthy_nonempty|]. split; [apply strip_ends|].
  split; [|done].
  intros H. apply Hnl. eapply substring_elem; [apply strip_substring|done].
Qed.

Lemma clean_lines_clean lines cleaned :
  Forall (fun line => "010"%char ∉ line) lines ->
  Forall clean_line cleaned ->
  Forall clean_line (clean_lines lines cleaned).
Proof.
  intros Hlines. revert cleaned.
  induction Hlines as [|line lines Hnl _ IH]; intros cleaned Hc; simpl; [done|].
  destruct (truthy (strip line) && negb (starts_with_label (strip line)))
    eqn:Hkeep; [|by apply IH].
  assert (Forall clean_line (cleaned ++ [strip line])) as Hc'.
  { apply Forall_app. split; [done|]. repeat constructor.
    all: by apply strip_clean. }
  destruct (300 <? _); [done|by apply IH].
Qed.

Lemma join_cons sep part rest :
  rest <> [] -> join sep (part :: rest) = part ++ sep ++ join sep rest.
Proof. by destruct rest. Qed.

Lemma join_nonempty sep parts :
  parts <> [] -> Forall (fun p => p <> []) parts -> join sep parts <> [].
Proof.
  destruct parts as [|part rest]; [done|]. intros _ [Hp _]%Forall_cons.
  destruct rest; simpl; [done|]. by destruct part.
Qed.

Lemma join_snoc sep parts part :
  parts <> [] -> join sep (parts ++ [part]) = join sep parts ++ sep ++ part.
Proof.
  induction parts as [|p parts IH]; [done|]. intros _.
  destruct parts as [|q parts]; [done|].
  change ((p :: q :: parts) ++ [part]) with (p :: ((q :: parts) ++ [part])).
  rewrite join_cons by by destruct parts.
  rewrite IH by done. rewrite (join_cons sep p (q :: parts)) by done.
  by rewrite <- !app_assoc.
Qed.

Lemma join_elem c sep parts :
  c ∈ join sep parts -> c ∈ sep \/ exists p, p ∈ parts /\ c ∈ p.
Proof.
  induction parts as [|part rest IH]; simpl; [by intros ?%elem_of_nil|].
  destruct rest as [|q rest].
  - intros H. right. exists part. split; [apply list_elem_of_here|done].
  - intros [H|[H|H]%elem_of_app]%elem_of_app.
    + right. exists part. split; [apply list_elem_of_here|done].
    + by left.
    + destruct (IH H) as [?|(p & Hp & Hc)]; [by left|].
      right. exists p. split; [by apply list_elem_of_further|done].
Qed.

Lemma head_app_nonempty {A} (l k : list A) : l <> [] -> head (l ++ k) = head l.
Proof. by destruct l. Qed.

Lemma last_app_nonempty {A} (l k : list A) : k <> [] -> last (l ++ k) = last k.
Proof.
  intros Hk. destruct k as [|x k] using rev_ind; [done|].
  by rewrite app_assoc, !last_snoc.
Qed.

Lemma join_head sep part rest :
  part <> [] -> head (join sep (part :: rest)) = head part.
Proof.
  intros Hp. destruct rest; [done|]. rewrite join_cons by done.
  by apply head_app_nonempty.
Qed.

Lemma join_last sep parts part :
  part <> [] -> last (join sep (parts ++ [part])) = last part.
Proof.
  intros Hp. destruct parts as [|p parts]; [done|].
  rewrite join_snoc by done. rewrite app_assoc. by apply last_app_nonempty.
Qed.

Lemma starts_with_before_space line rest p :
  " "%char ∉ p ->
  starts_with (line ++ " "%char :: rest) p = true -> starts_with line p = true.
Proof.
  revert line. induction p as [|c p IH]; intros line Hp; [done|].
  destruct line as [|d line]; simpl.
  - intros [Hc _]%andb_true_iff. apply bool_decide_eq_true in Hc as ->.
    destruct Hp. apply list_elem_of_here.
  - intros [Hc H]%andb_true_iff. rewrite Hc. simpl. apply IH; [|done].
    intros H'. apply Hp. by apply list_elem_of_further.
Qed.

Lemma labels_no_space : Forall (fun p => " "%char ∉ p) labels.
Proof.
  repeat constructor; intros H; apply (bool_decide_pack _) in H;
    by vm_compute in H.
Qed.

Lemma starts_with_label_join part rest :
  starts_with_label (join (lit " ") (part :: rest)) = true ->
  starts_with_label part = true.
Proof.
  destruct rest as [|q rest]; [done|]. rewrite join_cons by done.
  unfold starts_with_label. rewrite !existsb_exists.
  intros (p & Hp & H). exists p. split; [done|].
  eapply starts_with_before_space; [|exact H].
  apply list_elem_of_In in Hp.
  by eapply Forall_forall in Hp; [|apply labels_no_space].
Qed.

(** X20 (shape of a cleaned response).
    The cleaned response is one line: it holds no newline.  It has no
    white space at either end, and it starts with none of [Question:],
    [Context:] and [Answer:]. *)
Theorem clean_response_one_line response :
("010"%char ∉ clean_response response)
  /\ (forall ch, head (clean_response response) = Some ch
                 \/ last (clean_response response) = Some ch ->
        is_space ch = false)
  /\ starts_with_label (clean_response response) = false.
Proof.
  unfold clean_response.
  set (lines := split _ _).
  assert (Forall clean_line (clean_lines lines [])) as Hclean.
  { apply clean_lines_clean; [apply split_no_sep|done]. }
  set (cleaned := clean_lines lines []) in *. clearbody cleaned. clear lines.
  split; [|split].
  - intros [H|(p & Hp & Hc)]%join_elem.
    + apply (bool_decide_pack _) in H. by vm_compute in H.
    + eapply Forall_forall in Hclean; [|exact Hp].
      by destruct Hclean as (_ & _ & Hnl & _).
  - intros ch [H|H].
    + destruct cleaned as [|part rest]; [done|].
      apply Forall_cons in Hclean as [(Hne & Hends & _) _].
      rewrite join_head in H by done. apply Hends. by left.
    + destruct cleaned as [|part rest _] using rev_ind; [done|].
      apply Forall_app in Hclean as [_ [(Hne & Hends & _) _]%Forall_cons].
      rewrite join_last in H by done. apply Hends. by right.
  - destruct cleaned as [|part rest]; [done|].
    apply Forall_cons in Hclean as [(_ & _ & _ & Hl) _].
    destruct (starts_with_label (join _ _)) eqn:H; [|done].
    apply starts_with_label_join in H. congruence.
Qed.

Lemma clean_lines_extends lines cleaned :
  exists new, clean_lines lines cleaned = cleaned ++ new.
Proof.
  revert cleaned. induction lines as [|line lines IH]; intros cleaned; simpl.
  - exists []. by rewrite app_nil_r.
  - destruct (truthy _ && negb _).
    + destruct (300 <? _).
      * by eexists.
      * destruct (IH (cleaned ++ [strip line])) as [new ->].
        exists (strip line :: new). by rewrite <- app_assoc.
    + apply IH.
Qed.

Lemma clean_lines_break lines cleaned kept final :
  len (join (lit " ") cleaned) <= 300 ->
  clean_lines lines cleaned = kept ++ [final] ->
  kept ++ [final] = cleaned \/ len (join (lit " ") kept) <= 300.
Proof.
  revert cleaned. induction lines as [|line lines IH]; intros cleaned Hc; simpl.
  - intros <-. by left.
  - destruct (truthy _ && negb _); [|by apply IH].
    destruct (300 <? _) eqn:Hlong.
    + intros H. apply app_inj_tail in H as [<- _]. by right.
    + apply Z.ltb_ge in Hlong. intros H.
      destruct (IH _ Hlong H) as [Heq|Hk]; [|by right].
      apply app_inj_tail in Heq as [-> _]. by right.
Qed.

(** X21 (length of a cleaned response).
    The loop stops at the first line that brings the text above 300
    characters: the lines that are kept, without the last one, join to
    at most 300 characters, so the cleaned response is longer than 301
    characters by at most its last line. *)
Theorem clean_lines_bound lines kept final :
  clean_lines lines [] = kept ++ [final] ->
  len (join (lit " ") kept) <= 300
  /\ len (join (lit " ") (clean_lines lines [])) <= 301 + len final.
Proof.
  intros H.
  assert (len (join (lit " ") kept) <= 300) as Hk.
  { destruct (clean_lines_break lines [] kept final) as [Heq|Hk];
      [done|done|by destruct kept|done]. }
  split; [done|]. rewrite H.
  destruct kept as [|p kept]; [simpl; lia|].
  rewrite join_snoc by done. rewrite !len_app.
  change (len (lit " ")) with 1. lia.
Qed.

Lemma clean_lines_bound_witness :
  len (join (lit " ") [lit "one"]) <= 300
  /\ len (join (lit " ")
       (clean_lines [lit " one"; lit "Answer: none"; lit "two "] []))
     <= 301 + len (lit "two").
Proof.
  exact (clean_lines_bound [lit " one"; lit "Answer: none"; lit "two "]
           [lit "one"] (lit "two") eq_refl).
Defined.

End CleanResponse.
